(** * A shallow embedding of the streaming CSS tokenizer [CSSParser]

    The development follows the class one method at a time: the code point
    classes, the typed buffers, the object's fields as a record, the token
    emitters, the lexical states ([$ident] is [S_ident] here, and its tag in
    the [_lex] field is [L_ident]), the dispatcher and the stream entry
    points [_write] and [_finish]. *)

From Stdlib Require Import ZArith Lia Bool List String.
From stdpp Require Import base option list.
Open Scope Z_scope.

(** ** JavaScript values and typed arrays *)

(** What an indexed read of a typed array yields and what a lexical state
    receives: a number, or [undefined] when the index is outside the array. *)
Inductive value := Num (n : Z) | Undefined.

(** [v === n] for a number literal [n]; [undefined] equals no literal. *)
Definition eqv (v : value) (n : Z) : bool :=
  match v with Num m => m =? n | Undefined => false end.
Infix "===" := eqv (at level 70, no associativity).

(** [switch (v) { case n1: case n2: ... }]: does one of the labels match. *)
Definition case_of (v : value) (labels : list Z) : bool := existsb (eqv v) labels.

(** [v >= n]; [undefined >= n] is false. *)
Definition gev (v : value) (n : Z) : bool :=
  match v with Num m => n <=? m | Undefined => false end.

Definition ToUint32 (n : Z) : Z := n mod 2 ^ 32.
Definition ToInt32 (n : Z) : Z := (n + 2 ^ 31) mod 2 ^ 32 - 2 ^ 31.
Definition imul (a b : Z) : Z := ToInt32 (a * b).

(** The number a [Uint32Array] stores for [v] ([undefined] is stored as 0). *)
Definition u32 (v : value) : Z :=
  match v with Num n => ToUint32 n | Undefined => 0 end.

(** Typed arrays have a fixed length: a read outside it is [undefined], a
    write outside it is ignored. *)
Definition ta_get {A} (a : list A) (i : Z) : option A :=
  if i <? 0 then None else a !! Z.to_nat i.
Definition ta_set {A} (a : list A) (i : Z) (x : A) : list A :=
  if i <? 0 then a else <[Z.to_nat i := x]> a.

Definition u32_get (a : list Z) (i : Z) : value :=
  match ta_get a i with Some n => Num n | None => Undefined end.
Definition u32_set (a : list Z) (i : Z) (v : value) : list Z := ta_set a i (u32 v).

(** [a.subarray(begin, end)]: relative indices count from the end, and both
    are clamped to the array. *)
Definition rel_index (len i : Z) : Z := if i <? 0 then Z.max (len + i) 0 else Z.min i len.
Definition subarray {A} (a : list A) (begin_ end_ : Z) : list A :=
  let len := Z.of_nat (List.length a) in
  let b := rel_index len begin_ in
  let e := rel_index len end_ in
  take (Z.to_nat (e - b)) (drop (Z.to_nat b) a).

(** ** Token kinds and code point classes *)

Definition DEFAULT_SIZE : Z := 2 ^ 16.

Definition AT_KEYWORD_TOKEN : Z := 0.
Definition BAD_STRING_TOKEN : Z := 1.
Definition BAD_URL_TOKEN : Z := 2.
Definition CDC_TOKEN : Z := 3.
Definition CDO_TOKEN : Z := 4.
Definition COLON_TOKEN : Z := 5.
Definition COMMA_TOKEN : Z := 6.
Definition DELIM_TOKEN : Z := 7.
Definition DIMENSION_TOKEN : Z := 8.
Definition FUNCTION_TOKEN : Z := 9.
Definition HASH_TOKEN : Z := 10.
Definition IDENT_TOKEN : Z := 11.
Definition LEFT_BRACE_TOKEN : Z := 12.
Definition LEFT_BRACKET_TOKEN : Z := 13.
Definition LEFT_PARENTHESIS_TOKEN : Z := 14.
Definition NUMBER_TOKEN : Z := 15.
Definition PERCENTAGE_TOKEN : Z := 16.
Definition RIGHT_BRACE_TOKEN : Z := 17.
Definition RIGHT_BRACKET_TOKEN : Z := 18.
Definition RIGHT_PARENTHESIS_TOKEN : Z := 19.
Definition SEMICOLON_TOKEN : Z := 20.
Definition STRING_TOKEN : Z := 21.
Definition URL_TOKEN : Z := 22.
Definition WHITESPACE_TOKEN : Z := 23.
Definition COMMENT_TOKEN : Z := 24.

Definition EOF_SENTINEL : Z := 0x110000.

Definition digits : list Z :=
  [0x30; 0x31; 0x32; 0x33; 0x34; 0x35; 0x36; 0x37; 0x38; 0x39].
Definition whitespace : list Z := [0x09; 0x0A; 0x20].

Definition isHex (cp : value) : bool :=
  case_of cp
    [0x30; 0x31; 0x32; 0x33; 0x34; 0x35; 0x36; 0x37; 0x38; 0x39; 0x41; 0x42;
     0x43; 0x44; 0x45; 0x46; 0x61; 0x62; 0x63; 0x64; 0x65; 0x66].

Definition isNameContinue (cp : value) : bool :=
  if case_of cp
       [0x2D; 0x30; 0x31; 0x32; 0x33; 0x34; 0x35; 0x36; 0x37; 0x38; 0x39; 0x41;
        0x42; 0x43; 0x44; 0x45; 0x46; 0x47; 0x48; 0x49; 0x4A; 0x4B; 0x4C; 0x4D;
        0x4E; 0x4F; 0x50; 0x51; 0x52; 0x53; 0x54; 0x55; 0x56; 0x57; 0x58; 0x59;
        0x5A; 0x5F; 0x61; 0x62; 0x63; 0x64; 0x65; 0x66; 0x67; 0x68; 0x69; 0x6A;
        0x6B; 0x6C; 0x6D; 0x6E; 0x6F; 0x70; 0x71; 0x72; 0x73; 0x74; 0x75; 0x76;
        0x77; 0x78; 0x79; 0x7A]
  then true else gev cp 0x80.

Definition isNameStart (cp : value) : bool :=
  if case_of cp
       [0x41; 0x42; 0x43; 0x44; 0x45; 0x46; 0x47; 0x48; 0x49; 0x4A; 0x4B; 0x4C;
        0x4D; 0x4E; 0x4F; 0x50; 0x51; 0x52; 0x53; 0x54; 0x55; 0x56; 0x57; 0x58;
        0x59; 0x5A; 0x5F; 0x61; 0x62; 0x63; 0x64; 0x65; 0x66; 0x67; 0x68; 0x69;
        0x6A; 0x6B; 0x6C; 0x6D; 0x6E; 0x6F; 0x70; 0x71; 0x72; 0x73; 0x74; 0x75;
        0x76; 0x77; 0x78; 0x79; 0x7A]
  then true else gev cp 0x80.

Definition normalizeEscapeCP (cp : Z) : Z :=
  if (cp =? 0) || (0x10FFFF <? cp) then 0xFFFD
  else if 0xDFFF <? cp then cp
  else if 0xD7FF <? cp then 0xFFFD
  else cp.

(** [cp & 0b1000000 ? cp + 0x09 & 0b1111 : cp ^ 0b110000], on 32-bit
    integers ([undefined] converts to 0). *)
Definition toHexValue (cp : value) : Z :=
  let n := match cp with Num n => ToInt32 n | Undefined => 0 end in
  if Z.land n 0x40 =? 0 then Z.lxor n 0x30 else Z.land (n + 0x09) 0x0F.

(** ** The fields of a [CSSParser] *)

(** The lexical states: the methods a [_lex] field can hold. *)
Inductive lexState :=
  | L_atKeyword | L_atKeywordEscape | L_badURL | L_badURLEscape | L_cdcOrIdent
  | L_comment | L_commentAfterAsterisk | L_delimOrAtKeyword
  | L_delimOrAtKeywordAfterBackslash | L_delimOrAtKeywordAfterHyphen
  | L_delimOrAtKeywordAfterHyphenBackslash | L_delimOrCDO
  | L_delimOrCDOAfterExclamationPoint | L_delimOrCDOAfterExclamationPointHyphen
  | L_delimOrComment | L_delimOrFractionalNumber | L_delimOrHash
  | L_delimOrHashAfterBackslash | L_delimOrIdentAfterHyphenBackslash
  | L_delimOrIdentInitialEscape | L_delimOrNegativeSignedNumberOrCDCOrIdent
  | L_delimOrNegativeSignedNumberFractional | L_delimOrPositiveSignedNumber
  | L_delimOrPositiveSignedNumberFractional | L_escape | L_escapeHex
  | L_functionOrURL | L_hash | L_hashAfterHyphen | L_hashAfterHyphenBackslash
  | L_hashEscape | L_ident | L_identEscape | L_input | L_number
  | L_numberExponent | L_numberInDecimal | L_numberPossibleExponentOrUnit
  | L_numberPossibleExponentSignedOrUnitPlus
  | L_numberPossibleExponentSignedOrUnitHyphen | L_numberPossibleFraction
  | L_numberPossibleUnitBackslash | L_numberPossibleUnitHyphen
  | L_numberPossibleUnitHyphenBackslash | L_numberUnit | L_numberUnitEscape
  | L_string | L_stringEscape | L_url | L_urlAfterWhitespace | L_urlEscape
  | L_whitespace.

(** A JavaScript number held in [_numericTokenValue]: the constructor's 0, or
    what the host's [Number.parseFloat] returns for the text of a source
    slice. The host's decimal parser is interpreted where the text is an
    integer literal that a double holds exactly (see [number_value]), and
    left symbolic elsewhere. *)
Inductive number := Zero | ParseFloat (src : list Z).

(** An element of the [Int32Array]: the number that was assigned, as the
    store converts it. The conversion is the host's [ToInt32]: the fraction
    is dropped and the integer wraps modulo 2^32 into the signed range (see
    [int32_value]). *)
Inductive int32 := StoreInt32 (n : number).

(** The value of a run of decimal digits. *)
Definition digits_value (ds : list Z) : Z :=
  fold_left (fun n d => 10 * n + (d - 0x30)) ds 0.

(** The integer that the text [src] spells: decimal digits, at least one,
    after an optional sign. *)
Definition integer_literal (src : list Z) : option Z :=
  let '(sign, ds) :=
    match src with
    | cp :: ds =>
        if cp =? 0x2B then (1, ds) else if cp =? 0x2D then (-1, ds) else (1, src)
    | [] => (1, src)
    end in
  if (0 <? Z.of_nat (List.length ds)) && forallb (fun d => case_of (Num d) digits) ds
  then Some (sign * digits_value ds) else None.

(** What [Number.parseFloat] returns, where the model tells: the integer
    itself for an integer literal of magnitude up to 2^53, which a double
    holds exactly. *)
Definition number_value (n : number) : option Z :=
  match n with
  | Zero => Some 0
  | ParseFloat src =>
      z ← integer_literal src; if Z.abs z <=? 2 ^ 53 then Some z else None
  end.

(** The integer held by an element of the [Int32Array]. *)
Definition int32_value (x : int32) : option Z :=
  match x with StoreInt32 n => ToInt32 <$> number_value n end.

(** The [Error] built by [_fail], by what its message is made of: the spec
    reference, the origin of the offending token, the place where the error
    became evident, the snippet, and the numbers of blanks and of carets of
    the pointer line under it. *)
Record Error := mkError {
  err_module : string;
  err_hash : string;
  err_line : value;
  err_column : value;
  err_disambigLine : Z;
  err_disambigCol : Z;
  err_sourceText : list Z;
  err_pointerPrefix : Z;
  err_pointer : Z;
}.

(** The object's fields, as the constructor lists them. [replayed] is not a
    field of the object: it is a trace, in which every token emission that
    re-feeds stored code points notes its token kind and the number of
    [_lex] calls it made. *)
Record CSSParser := mkCSSParser {
  _column : Z;
  _error : option Error;
  _errors : list Error;
  _escapeCount : Z;
  _escapeCP : Z;
  _floatValues : list number;
  _floatValuesLength : Z;
  _hashTokenIsID : bool;
  _intValues : list int32;
  _intValuesLength : Z;
  _lastCPWasCR : bool;
  _lex : lexState;
  _lexAfterEscape : lexState;
  _line : Z;
  _numericTokenIsFloat : bool;
  _numericTokenValue : number;
  _positions : list Z;
  _positionsLength : Z;
  _recover : bool;
  _source : list Z;
  _sourceLength : Z;
  _stringDelimiter : Z;
  _stringValues : list Z;
  _stringValuesLength : Z;
  _stringValuesStart : Z;
  _tokens : list Z;
  _tokensLength : Z;
  _urlWhitespaceCount : Z;
  replayed : list (Z * Z);
}.

(** Field assignments. *)
Definition set_column (v : Z) (s : CSSParser) : CSSParser :=
  let '(mkCSSParser x0 x1 x2 x3 x4 x5 x6 x7 x8 x9 x10 x11 x12 x13 x14 x15 x16 x17 x18 x19 x20 x21 x22 x23 x24 x25 x26 x27 x28) := s in
  mkCSSParser v x1 x2 x3 x4 x5 x6 x7 x8 x9 x10 x11 x12 x13 x14 x15 x16 x17 x18 x19 x20 x21 x22 x23 x24 x25 x26 x27 x28.
Definition set_error (v : option Error) (s : CSSParser) : CSSParser :=
  let '(mkCSSParser x0 x1 x2 x3 x4 x5 x6 x7 x8 x9 x10 x11 x12 x13 x14 x15 x16 x17 x18 x19 x20 x21 x22 x23 x24 x25 x26 x27 x28) := s in
  mkCSSParser x0 v x2 x3 x4 x5 x6 x7 x8 x9 x10 x11 x12 x13 x14 x15 x16 x17 x18 x19 x20 x21 x22 x23 x24 x25 x26 x27 x28.
Definition set_errors (v : list Error) (s : CSSParser) : CSSParser :=
  let '(mkCSSParser x0 x1 x2 x3 x4 x5 x6 x7 x8 x9 x10 x11 x12 x13 x14 x15 x16 x17 x18 x19 x20 x21 x22 x23 x24 x25 x26 x27 x28) := s in
  mkCSSParser x0 x1 v x3 x4 x5 x6 x7 x8 x9 x10 x11 x12 x13 x14 x15 x16 x17 x18 x19 x20 x21 x22 x23 x24 x25 x26 x27 x28.
Definition set_escapeCount (v : Z) (s : CSSParser) : CSSParser :=
  let '(mkCSSParser x0 x1 x2 x3 x4 x5 x6 x7 x8 x9 x10 x11 x12 x13 x14 x15 x16 x17 x18 x19 x20 x21 x22 x23 x24 x25 x26 x27 x28) := s in
  mkCSSParser x0 x1 x2 v x4 x5 x6 x7 x8 x9 x10 x11 x12 x13 x14 x15 x16 x17 x18 x19 x20 x21 x22 x23 x24 x25 x26 x27 x28.
Definition set_escapeCP (v : Z) (s : CSSParser) : CSSParser :=
  let '(mkCSSParser x0 x1 x2 x3 x4 x5 x6 x7 x8 x9 x10 x11 x12 x13 x14 x15 x16 x17 x18 x19 x20 x21 x22 x23 x24 x25 x26 x27 x28) := s in
  mkCSSParser x0 x1 x2 x3 v x5 x6 x7 x8 x9 x10 x11 x12 x13 x14 x15 x16 x17 x18 x19 x20 x21 x22 x23 x24 x25 x26 x27 x28.
Definition set_floatValues (v : list number) (s : CSSParser) : CSSParser :=
  let '(mkCSSParser x0 x1 x2 x3 x4 x5 x6 x7 x8 x9 x10 x11 x12 x13 x14 x15 x16 x17 x18 x19 x20 x21 x22 x23 x24 x25 x26 x27 x28) := s in
  mkCSSParser x0 x1 x2 x3 x4 v x6 x7 x8 x9 x10 x11 x12 x13 x14 x15 x16 x17 x18 x19 x20 x21 x22 x23 x24 x25 x26 x27 x28.
Definition set_floatValuesLength (v : Z) (s : CSSParser) : CSSParser :=
  let '(mkCSSParser x0 x1 x2 x3 x4 x5 x6 x7 x8 x9 x10 x11 x12 x13 x14 x15 x16 x17 x18 x19 x20 x21 x22 x23 x24 x25 x26 x27 x28) := s in
  mkCSSParser x0 x1 x2 x3 x4 x5 v x7 x8 x9 x10 x11 x12 x13 x14 x15 x16 x17 x18 x19 x20 x21 x22 x23 x24 x25 x26 x27 x28.
Definition set_hashTokenIsID (v : bool) (s : CSSParser) : CSSParser :=
  let '(mkCSSParser x0 x1 x2 x3 x4 x5 x6 x7 x8 x9 x10 x11 x12 x13 x14 x15 x16 x17 x18 x19 x20 x21 x22 x23 x24 x25 x26 x27 x28) := s in
  mkCSSParser x0 x1 x2 x3 x4 x5 x6 v x8 x9 x10 x11 x12 x13 x14 x15 x16 x17 x18 x19 x20 x21 x22 x23 x24 x25 x26 x27 x28.
Definition set_intValues (v : list int32) (s : CSSParser) : CSSParser :=
  let '(mkCSSParser x0 x1 x2 x3 x4 x5 x6 x7 x8 x9 x10 x11 x12 x13 x14 x15 x16 x17 x18 x19 x20 x21 x22 x23 x24 x25 x26 x27 x28) := s in
  mkCSSParser x0 x1 x2 x3 x4 x5 x6 x7 v x9 x10 x11 x12 x13 x14 x15 x16 x17 x18 x19 x20 x21 x22 x23 x24 x25 x26 x27 x28.
Definition set_intValuesLength (v : Z) (s : CSSParser) : CSSParser :=
  let '(mkCSSParser x0 x1 x2 x3 x4 x5 x6 x7 x8 x9 x10 x11 x12 x13 x14 x15 x16 x17 x18 x19 x20 x21 x22 x23 x24 x25 x26 x27 x28) := s in
  mkCSSParser x0 x1 x2 x3 x4 x5 x6 x7 x8 v x10 x11 x12 x13 x14 x15 x16 x17 x18 x19 x20 x21 x22 x23 x24 x25 x26 x27 x28.
Definition set_lastCPWasCR (v : bool) (s : CSSParser) : CSSParser :=
  let '(mkCSSParser x0 x1 x2 x3 x4 x5 x6 x7 x8 x9 x10 x11 x12 x13 x14 x15 x16 x17 x18 x19 x20 x21 x22 x23 x24 x25 x26 x27 x28) := s in
  mkCSSParser x0 x1 x2 x3 x4 x5 x6 x7 x8 x9 v x11 x12 x13 x14 x15 x16 x17 x18 x19 x20 x21 x22 x23 x24 x25 x26 x27 x28.
Definition set_lex (v : lexState) (s : CSSParser) : CSSParser :=
  let '(mkCSSParser x0 x1 x2 x3 x4 x5 x6 x7 x8 x9 x10 x11 x12 x13 x14 x15 x16 x17 x18 x19 x20 x21 x22 x23 x24 x25 x26 x27 x28) := s in
  mkCSSParser x0 x1 x2 x3 x4 x5 x6 x7 x8 x9 x10 v x12 x13 x14 x15 x16 x17 x18 x19 x20 x21 x22 x23 x24 x25 x26 x27 x28.
Definition set_lexAfterEscape (v : lexState) (s : CSSParser) : CSSParser :=
  let '(mkCSSParser x0 x1 x2 x3 x4 x5 x6 x7 x8 x9 x10 x11 x12 x13 x14 x15 x16 x17 x18 x19 x20 x21 x22 x23 x24 x25 x26 x27 x28) := s in
  mkCSSParser x0 x1 x2 x3 x4 x5 x6 x7 x8 x9 x10 x11 v x13 x14 x15 x16 x17 x18 x19 x20 x21 x22 x23 x24 x25 x26 x27 x28.
Definition set_line (v : Z) (s : CSSParser) : CSSParser :=
  let '(mkCSSParser x0 x1 x2 x3 x4 x5 x6 x7 x8 x9 x10 x11 x12 x13 x14 x15 x16 x17 x18 x19 x20 x21 x22 x23 x24 x25 x26 x27 x28) := s in
  mkCSSParser x0 x1 x2 x3 x4 x5 x6 x7 x8 x9 x10 x11 x12 v x14 x15 x16 x17 x18 x19 x20 x21 x22 x23 x24 x25 x26 x27 x28.
Definition set_numericTokenIsFloat (v : bool) (s : CSSParser) : CSSParser :=
  let '(mkCSSParser x0 x1 x2 x3 x4 x5 x6 x7 x8 x9 x10 x11 x12 x13 x14 x15 x16 x17 x18 x19 x20 x21 x22 x23 x24 x25 x26 x27 x28) := s in
  mkCSSParser x0 x1 x2 x3 x4 x5 x6 x7 x8 x9 x10 x11 x12 x13 v x15 x16 x17 x18 x19 x20 x21 x22 x23 x24 x25 x26 x27 x28.
Definition set_numericTokenValue (v : number) (s : CSSParser) : CSSParser :=
  let '(mkCSSParser x0 x1 x2 x3 x4 x5 x6 x7 x8 x9 x10 x11 x12 x13 x14 x15 x16 x17 x18 x19 x20 x21 x22 x23 x24 x25 x26 x27 x28) := s in
  mkCSSParser x0 x1 x2 x3 x4 x5 x6 x7 x8 x9 x10 x11 x12 x13 x14 v x16 x17 x18 x19 x20 x21 x22 x23 x24 x25 x26 x27 x28.
Definition set_positions (v : list Z) (s : CSSParser) : CSSParser :=
  let '(mkCSSParser x0 x1 x2 x3 x4 x5 x6 x7 x8 x9 x10 x11 x12 x13 x14 x15 x16 x17 x18 x19 x20 x21 x22 x23 x24 x25 x26 x27 x28) := s in
  mkCSSParser x0 x1 x2 x3 x4 x5 x6 x7 x8 x9 x10 x11 x12 x13 x14 x15 v x17 x18 x19 x20 x21 x22 x23 x24 x25 x26 x27 x28.
Definition set_positionsLength (v : Z) (s : CSSParser) : CSSParser :=
  let '(mkCSSParser x0 x1 x2 x3 x4 x5 x6 x7 x8 x9 x10 x11 x12 x13 x14 x15 x16 x17 x18 x19 x20 x21 x22 x23 x24 x25 x26 x27 x28) := s in
  mkCSSParser x0 x1 x2 x3 x4 x5 x6 x7 x8 x9 x10 x11 x12 x13 x14 x15 x16 v x18 x19 x20 x21 x22 x23 x24 x25 x26 x27 x28.
Definition set_recover (v : bool) (s : CSSParser) : CSSParser :=
  let '(mkCSSParser x0 x1 x2 x3 x4 x5 x6 x7 x8 x9 x10 x11 x12 x13 x14 x15 x16 x17 x18 x19 x20 x21 x22 x23 x24 x25 x26 x27 x28) := s in
  mkCSSParser x0 x1 x2 x3 x4 x5 x6 x7 x8 x9 x10 x11 x12 x13 x14 x15 x16 x17 v x19 x20 x21 x22 x23 x24 x25 x26 x27 x28.
Definition set_source (v : list Z) (s : CSSParser) : CSSParser :=
  let '(mkCSSParser x0 x1 x2 x3 x4 x5 x6 x7 x8 x9 x10 x11 x12 x13 x14 x15 x16 x17 x18 x19 x20 x21 x22 x23 x24 x25 x26 x27 x28) := s in
  mkCSSParser x0 x1 x2 x3 x4 x5 x6 x7 x8 x9 x10 x11 x12 x13 x14 x15 x16 x17 x18 v x20 x21 x22 x23 x24 x25 x26 x27 x28.
Definition set_sourceLength (v : Z) (s : CSSParser) : CSSParser :=
  let '(mkCSSParser x0 x1 x2 x3 x4 x5 x6 x7 x8 x9 x10 x11 x12 x13 x14 x15 x16 x17 x18 x19 x20 x21 x22 x23 x24 x25 x26 x27 x28) := s in
  mkCSSParser x0 x1 x2 x3 x4 x5 x6 x7 x8 x9 x10 x11 x12 x13 x14 x15 x16 x17 x18 x19 v x21 x22 x23 x24 x25 x26 x27 x28.
Definition set_stringDelimiter (v : Z) (s : CSSParser) : CSSParser :=
  let '(mkCSSParser x0 x1 x2 x3 x4 x5 x6 x7 x8 x9 x10 x11 x12 x13 x14 x15 x16 x17 x18 x19 x20 x21 x22 x23 x24 x25 x26 x27 x28) := s in
  mkCSSParser x0 x1 x2 x3 x4 x5 x6 x7 x8 x9 x10 x11 x12 x13 x14 x15 x16 x17 x18 x19 x20 v x22 x23 x24 x25 x26 x27 x28.
Definition set_stringValues (v : list Z) (s : CSSParser) : CSSParser :=
  let '(mkCSSParser x0 x1 x2 x3 x4 x5 x6 x7 x8 x9 x10 x11 x12 x13 x14 x15 x16 x17 x18 x19 x20 x21 x22 x23 x24 x25 x26 x27 x28) := s in
  mkCSSParser x0 x1 x2 x3 x4 x5 x6 x7 x8 x9 x10 x11 x12 x13 x14 x15 x16 x17 x18 x19 x20 x21 v x23 x24 x25 x26 x27 x28.
Definition set_stringValuesLength (v : Z) (s : CSSParser) : CSSParser :=
  let '(mkCSSParser x0 x1 x2 x3 x4 x5 x6 x7 x8 x9 x10 x11 x12 x13 x14 x15 x16 x17 x18 x19 x20 x21 x22 x23 x24 x25 x26 x27 x28) := s in
  mkCSSParser x0 x1 x2 x3 x4 x5 x6 x7 x8 x9 x10 x11 x12 x13 x14 x15 x16 x17 x18 x19 x20 x21 x22 v x24 x25 x26 x27 x28.
Definition set_stringValuesStart (v : Z) (s : CSSParser) : CSSParser :=
  let '(mkCSSParser x0 x1 x2 x3 x4 x5 x6 x7 x8 x9 x10 x11 x12 x13 x14 x15 x16 x17 x18 x19 x20 x21 x22 x23 x24 x25 x26 x27 x28) := s in
  mkCSSParser x0 x1 x2 x3 x4 x5 x6 x7 x8 x9 x10 x11 x12 x13 x14 x15 x16 x17 x18 x19 x20 x21 x22 x23 v x25 x26 x27 x28.
Definition set_tokens (v : list Z) (s : CSSParser) : CSSParser :=
  let '(mkCSSParser x0 x1 x2 x3 x4 x5 x6 x7 x8 x9 x10 x11 x12 x13 x14 x15 x16 x17 x18 x19 x20 x21 x22 x23 x24 x25 x26 x27 x28) := s in
  mkCSSParser x0 x1 x2 x3 x4 x5 x6 x7 x8 x9 x10 x11 x12 x13 x14 x15 x16 x17 x18 x19 x20 x21 x22 x23 x24 v x26 x27 x28.
Definition set_tokensLength (v : Z) (s : CSSParser) : CSSParser :=
  let '(mkCSSParser x0 x1 x2 x3 x4 x5 x6 x7 x8 x9 x10 x11 x12 x13 x14 x15 x16 x17 x18 x19 x20 x21 x22 x23 x24 x25 x26 x27 x28) := s in
  mkCSSParser x0 x1 x2 x3 x4 x5 x6 x7 x8 x9 x10 x11 x12 x13 x14 x15 x16 x17 x18 x19 x20 x21 x22 x23 x24 x25 v x27 x28.
Definition set_urlWhitespaceCount (v : Z) (s : CSSParser) : CSSParser :=
  let '(mkCSSParser x0 x1 x2 x3 x4 x5 x6 x7 x8 x9 x10 x11 x12 x13 x14 x15 x16 x17 x18 x19 x20 x21 x22 x23 x24 x25 x26 x27 x28) := s in
  mkCSSParser x0 x1 x2 x3 x4 x5 x6 x7 x8 x9 x10 x11 x12 x13 x14 x15 x16 x17 x18 x19 x20 x21 x22 x23 x24 x25 x26 v x28.
Definition set_replayed (v : list (Z * Z)) (s : CSSParser) : CSSParser :=
  let '(mkCSSParser x0 x1 x2 x3 x4 x5 x6 x7 x8 x9 x10 x11 x12 x13 x14 x15 x16 x17 x18 x19 x20 x21 x22 x23 x24 x25 x26 x27 x28) := s in
  mkCSSParser x0 x1 x2 x3 x4 x5 x6 x7 x8 x9 x10 x11 x12 x13 x14 x15 x16 x17 x18 x19 x20 x21 x22 x23 x24 x25 x26 x27 v.

(** Statements in source order: [s |> f |> g] runs [f], then [g]. *)
Notation "s |> f" := (f s) (at level 45, left associativity, only parsing).

(** The fields of a new parser. *)
Definition new_fields (recover : bool) (size : Z) : CSSParser := {|
  _column := 0;
  _error := None;
  _errors := [];
  _escapeCount := 0;
  _escapeCP := 0;
  _floatValues := replicate (Z.to_nat size) Zero;
  _floatValuesLength := 0;
  _hashTokenIsID := false;
  _intValues := replicate (Z.to_nat size) (StoreInt32 Zero);
  _intValuesLength := 0;
  _lastCPWasCR := false;
  _lex := L_input;
  _lexAfterEscape := L_input;
  _line := 0;
  _numericTokenIsFloat := false;
  _numericTokenValue := Zero;
  _positions := replicate (Z.to_nat (imul size 2)) 0;
  _positionsLength := 0;
  _recover := recover;
  _source := replicate (Z.to_nat size) 0;
  _sourceLength := 0;
  _stringDelimiter := 0;
  _stringValues := replicate (Z.to_nat size) 0;
  _stringValuesLength := 0;
  _stringValuesStart := 0;
  _tokens := replicate (Z.to_nat (imul size 4)) 0;
  _tokensLength := 0;
  _urlWhitespaceCount := 0;
  replayed := [];
|}.

(** [new CSSParser({ recover, size })]. A negative size is rejected with a
    [TypeError], and [new Uint32Array(n)] throws a [RangeError] for a
    negative [n], which [Math.imul(size, 2)] or [Math.imul(size, 4)] is for
    some sizes from 2^29 on ([None] in either case). What length of a typed
    array the host can allocate is not modelled. *)
Definition constructor (recover : bool) (size : Z) : option CSSParser :=
  if (size <? 0) || (imul size 2 <? 0) || (imul size 4 <? 0) then None
  else Some (new_fields recover size).

(** ** META *)

(** [new T(length)] followed by [fresh.set(old)]: a [RangeError] ([None]) for
    a negative length or an [old] that does not fit. *)
Definition grow {A} (zero : A) (length : Z) (old : list A) : option (list A) :=
  if (length <? 0) || (length <? Z.of_nat (List.length old)) then None
  else Some (old ++ replicate (Z.to_nat length - List.length old)%nat zero).

Definition _expandBuffers (min : Z) (s : CSSParser) : option CSSParser :=
  let length := imul (Z.max (_sourceLength s) min) 2 in
  floatValues ← grow Zero length (_floatValues s);
  intValues ← grow (StoreInt32 Zero) length (_intValues s);
  positions ← grow 0 (imul length 2) (_positions s);
  source ← grow 0 length (_source s);
  stringValues ← grow 0 length (_stringValues s);
  tokens ← grow 0 (imul length 4) (_tokens s);
  Some (s |> set_floatValues floatValues
          |> set_intValues intValues
          |> set_positions positions
          |> set_source source
          |> set_stringValues stringValues
          |> set_tokens tokens).

(** [this._tokensLength === 0 ? 0 : this._tokens[this._tokensLength - 3]]:
    where the token in progress starts, as [_fail] and [_commitNumber] both
    compute it. *)
Definition previousTokenEnd (s : CSSParser) : value :=
  if _tokensLength s =? 0 then Num 0
  else u32_get (_tokens s) (_tokensLength s - 3).

(** [_fail(module, hash)] returns whether the error is terminal. Building the
    message throws a [RangeError] ([None]) when the snippet holds a number
    that is no code point, or when the pointer would have a negative length.
    A [badTokenStart] read outside the token array is [undefined]: the
    arithmetic on it is [NaN], which every use below turns into 0.
    [_positionsLength] is even, two entries a code point, so that its half
    is the integer quotient. *)
Definition _fail (module hash : string) (s : CSSParser) : option (bool * CSSParser) :=
  let badTokenStart := previousTokenEnd s in
  let actualEnd := _positionsLength s / 2 in
  let '(source, startOffset, positionOffset, pIndex) :=
    match badTokenStart with
    | Num badTokenStart =>
        let sourceStart := Z.max (badTokenStart - 15) 0 in
        let sourceEnd := Z.min (sourceStart + 45) actualEnd in
        (subarray (_source s) sourceStart sourceEnd,
         badTokenStart - sourceStart,
         _sourceLength s - badTokenStart,
         imul badTokenStart 2)
    | Undefined => ([], 0, 0, 0)
    end in
  if existsb (fun cp => 0x10FFFF <? cp) source || (positionOffset <? 0) then None
  else
    let err := {|
      err_module := module;
      err_hash := hash;
      err_line := u32_get (_positions s) pIndex;
      err_column := u32_get (_positions s) (pIndex + 1);
      err_disambigLine := _line s;
      err_disambigCol := _column s;
      err_sourceText := source;
      err_pointerPrefix := startOffset;
      err_pointer := positionOffset;
    |} in
    if _recover s then Some (false, s |> set_errors (_errors s ++ [err]))
    else Some (true, s |> set_error (Some err)).

(** ** TOKEN CREATION & LEXICAL CONCERNS

    Every emitter ends its bookkeeping with [this._token(tokenType,
    tokenIndex)], a hook that is empty unless the debugging option replaces
    it by a printer; it has no part in the model. *)

(** [this._tokens[this._tokensLength++] = v]. *)
Definition push_token (v : value) (s : CSSParser) : CSSParser :=
  s |> set_tokens (u32_set (_tokens s) (_tokensLength s) v)
    |> set_tokensLength (_tokensLength s + 1).

Definition _stringValue (cp : value) (s : CSSParser) : CSSParser :=
  s |> set_stringValues (u32_set (_stringValues s) (_stringValuesLength s) cp)
    |> set_stringValuesLength (_stringValuesLength s + 1).

(** The trace entry of an emission that made [n] calls of [_lex]. *)
Definition note (tokenType n : Z) (s : CSSParser) : CSSParser :=
  s |> set_replayed ((tokenType, n) :: replayed s).

Definition _addDelimTokenWithoutOffset (cp : value) (s : CSSParser) : CSSParser :=
  s |> set_lex L_input
    |> push_token (Num DELIM_TOKEN)
    |> (fun s => push_token (Num (_sourceLength s)) s)
    |> push_token cp
    |> (fun s => set_tokensLength (_tokensLength s + 1) s).

Definition _addGeneralTokenWithoutOffset (tokenType : Z) (s : CSSParser) : CSSParser :=
  s |> set_lex L_input
    |> push_token (Num tokenType)
    |> (fun s => push_token (Num (_sourceLength s)) s)
    |> (fun s => set_tokensLength (_tokensLength s + 2) s).

Definition _addPercentageToken (s : CSSParser) : CSSParser :=
  s |> set_lex L_input
    |> set_floatValues (ta_set (_floatValues s) (_floatValuesLength s) (_numericTokenValue s))
    |> push_token (Num PERCENTAGE_TOKEN)
    |> (fun s => push_token (Num (_sourceLength s)) s)
    |> (fun s => s |> set_floatValuesLength (_floatValuesLength s + 1)
                   |> push_token (Num (_floatValuesLength s)))
    |> (fun s => set_tokensLength (_tokensLength s + 1) s)
    |> set_numericTokenIsFloat false.

Definition _addStringValueTokenWithoutOffset (tokenType : Z) (s : CSSParser) : CSSParser :=
  s |> set_lex L_input
    |> push_token (Num tokenType)
    |> (fun s => push_token (Num (_sourceLength s)) s)
    |> (fun s => push_token (Num (_stringValuesStart s)) s)
    |> (fun s => push_token (Num (_stringValuesLength s)) s)
    |> (fun s => set_stringValuesStart (_stringValuesLength s) s).

(** [Number.parseFloat(String.fromCodePoint(...src))] for the slice from the
    end of the last token; [String.fromCodePoint] throws a [RangeError]
    ([None]) for a number that is no code point. *)
Definition _commitNumber (offset : Z) (s : CSSParser) : option CSSParser :=
  let start := match previousTokenEnd s with Num n => n | Undefined => 0 end in
  let end_ := _sourceLength s - offset in
  let src := subarray (_source s) start end_ in
  if existsb (fun cp => 0x10FFFF <? cp) src then None
  else Some (s |> set_numericTokenValue (ParseFloat src)).

Definition _finishHexEscape (s : CSSParser) : CSSParser :=
  s |> _stringValue (Num (normalizeEscapeCP (_escapeCP s)))
    |> set_lex (_lexAfterEscape s).

Definition _isStringValueURL (s : CSSParser) : bool :=
  if negb (_stringValuesLength s - _stringValuesStart s =? 3) then false
  else
    let u := u32_get (_stringValues s) (_stringValuesStart s) in
    let r := u32_get (_stringValues s) (_stringValuesStart s + 1) in
    let l := u32_get (_stringValues s) (_stringValuesStart s + 2) in
    ((u === 0x75) || (u === 0x55)) &&
    ((r === 0x72) || (r === 0x52)) &&
    ((r === 0x6C) || (l === 0x4C)).

(** The methods below call [this._lex(cp)], the method that the [_lex] field
    holds at the time of the call. They are written over that call, which the
    dispatcher [lex] further down ties to the lexical states. *)
Section Methods.

Variable lex : CSSParser -> value -> option CSSParser.

(** [this._lex(this._source[this._sourceLength++])]. *)
Definition refeed (s : CSSParser) : option CSSParser :=
  lex (s |> set_sourceLength (_sourceLength s + 1))
      (u32_get (_source s) (_sourceLength s)).

Fixpoint refeeds (n : nat) (s : CSSParser) : option CSSParser :=
  match n with
  | O => Some s
  | S n => s ← refeed s; refeeds n s
  end.

(** [switch (offset) { case 3: ...; case 2: ...; case 1: ... }] without a
    [break]: the number of statements run from the matching label on. *)
Definition fallthrough3 (offset : Z) : nat :=
  if offset =? 3 then 3 else if offset =? 2 then 2 else if offset =? 1 then 1 else 0.

(** The offset is subtracted from [_sourceLength]: for an [undefined] offset
    the length would be [NaN], which the model does not follow ([None]). *)
Definition _addDelimTokenWithOffset (cp : value) (offset : value) (s : CSSParser)
  : option CSSParser :=
  match offset with
  | Undefined => None
  | Num offset =>
      let s := s |> set_sourceLength (_sourceLength s - offset)
                 |> _addDelimTokenWithoutOffset cp in
      s ← refeeds (fallthrough3 offset) s;
      Some (s |> note DELIM_TOKEN (Z.of_nat (fallthrough3 offset)))
  end.

(** The tail shared by [_addDimensionToken] and [_addHashToken]. *)
Definition refeed_1_or_2 (offset : Z) (s : CSSParser) : option CSSParser :=
  if offset =? 1 then lex s (u32_get (_source s) (_sourceLength s - 1))
  else
    let s := s |> set_sourceLength (_sourceLength s - 1) in
    s ← lex s (u32_get (_source s) (_sourceLength s - 1));
    Some (s |> set_sourceLength (_sourceLength s + 1)).

Definition _addDimensionToken (offset : Z) (s : CSSParser) : option CSSParser :=
  let s :=
    if _numericTokenIsFloat s then
      s |> set_numericTokenIsFloat false
        |> set_floatValues
             (ta_set (_floatValues s) (_floatValuesLength s) (_numericTokenValue s))
        |> _stringValue (Num 0x01)
        |> set_floatValuesLength (_floatValuesLength s + 1)
        |> _stringValue (Num (_floatValuesLength s))
    else
      s |> set_intValues
             (ta_set (_intValues s) (_intValuesLength s) (StoreInt32 (_numericTokenValue s)))
        |> _stringValue (Num 0x00)
        |> set_intValuesLength (_intValuesLength s + 1)
        |> _stringValue (Num (_intValuesLength s)) in
  let s :=
    s |> set_lex L_input
      |> push_token (Num DIMENSION_TOKEN)
      |> push_token (Num (_sourceLength s - offset))
      |> push_token (Num (_stringValuesStart s))
      |> push_token (Num (_stringValuesLength s - 2))
      |> set_stringValuesStart (_stringValuesLength s) in
  s ← refeed_1_or_2 offset s;
  Some (s |> note DIMENSION_TOKEN 1).

Definition _addHashToken (offset : Z) (s : CSSParser) : option CSSParser :=
  let sv1 := ToInt32 (Z.shiftl (_stringValuesStart s) 1) + Z.b2z (_hashTokenIsID s) in
  let s :=
    s |> set_lex L_input
      |> push_token (Num HASH_TOKEN)
      |> push_token (Num (_sourceLength s - offset))
      |> push_token (Num sv1)
      |> push_token (Num (_stringValuesLength s))
      |> set_stringValuesStart (_stringValuesLength s)
      |> set_hashTokenIsID false in
  s ← refeed_1_or_2 offset s;
  Some (s |> note HASH_TOKEN 1).

Definition _addNumberToken (offset : Z) (s : CSSParser) : option CSSParser :=
  let s :=
    s |> set_lex L_input
      |> push_token (Num NUMBER_TOKEN)
      |> set_sourceLength (_sourceLength s - offset)
      |> push_token (Num (_sourceLength s - offset)) in
  let s :=
    if _numericTokenIsFloat s then
      s |> set_numericTokenIsFloat false
        |> set_floatValues
             (ta_set (_floatValues s) (_floatValuesLength s) (_numericTokenValue s))
        |> push_token (Num 1)
        |> set_floatValuesLength (_floatValuesLength s + 1)
        |> push_token (Num (_floatValuesLength s))
    else
      s |> set_intValues
             (ta_set (_intValues s) (_intValuesLength s) (StoreInt32 (_numericTokenValue s)))
        |> push_token (Num 0)
        |> set_intValuesLength (_intValuesLength s + 1)
        |> push_token (Num (_intValuesLength s)) in
  s ← refeeds (fallthrough3 offset) s;
  Some (s |> note NUMBER_TOKEN (Z.of_nat (fallthrough3 offset))).

(** [while (offset-- && this._error === undefined) this._lex(...)], for an
    offset that is not negative; the number of calls made is returned too. *)
Fixpoint refeed_while (offset : nat) (s : CSSParser) : option (Z * CSSParser) :=
  match offset with
  | O => Some (0, s)
  | S offset =>
      match _error s with
      | Some _ => Some (0, s)
      | None =>
          s ← refeed s;
          '(n, s) ← refeed_while offset s;
          Some (n + 1, s)
      end
  end.

(** A negative offset other than in the two labelled cases would keep the
    loop running past the counter; no caller passes one ([None]). *)
Definition _addStringValueTokenWithOffset (tokenType : Z) (offset : Z) (s : CSSParser)
  : option CSSParser :=
  let s := s |> set_sourceLength (_sourceLength s - offset)
             |> _addStringValueTokenWithoutOffset tokenType in
  if offset =? 2 then
    s ← refeeds 2 s; Some (s |> note tokenType 2)
  else if offset =? 1 then
    s ← refeeds 1 s; Some (s |> note tokenType 1)
  else if offset <? 0 then None
  else
    '(n, s) ← refeed_while (Z.to_nat offset) s;
    Some (s |> note tokenType n).

Definition _addWhitespaceToken (cp : value) (s : CSSParser) : option CSSParser :=
  let s :=
    s |> set_lex L_input
      |> push_token (Num WHITESPACE_TOKEN)
      |> push_token (Num (_sourceLength s - 1))
      |> (fun s => set_tokensLength (_tokensLength s + 2) s) in
  match _error s with
  | None => s ← lex s cp; Some (s |> note WHITESPACE_TOKEN 1)
  | Some _ => Some (s |> note WHITESPACE_TOKEN 0)
  end.

Definition _escape (lexState : lexState) (cp : value) (s : CSSParser) : option CSSParser :=
  lex (s |> set_lexAfterEscape lexState |> set_lex L_escape) cp.

Definition _reconsumeCurrentCP (lexState : lexState) (cp : value) (s : CSSParser)
  : option CSSParser :=
  lex (s |> set_lex lexState) cp.

(** [if (this._fail(module, hash)) return; rest]. *)
Definition fail_or (module hash : string) (rest : CSSParser -> option CSSParser)
    (s : CSSParser) : option CSSParser :=
  '(terminal, s) ← _fail module hash s;
  if terminal : bool then Some s else rest s.

(** [this._fail(module, hash)] as a statement, its result unused. *)
Definition fail_then (module hash : string) (s : CSSParser) : option CSSParser :=
  '(_, s) ← _fail module hash s; Some s.

(** ** LEXICAL STATES *)

Definition S_atKeyword (cp : value) (s : CSSParser) : option CSSParser :=
  if isNameContinue cp then Some (s |> _stringValue cp)
  else if cp === 0x5C then Some (s |> set_lex L_atKeywordEscape)
  else _addStringValueTokenWithOffset AT_KEYWORD_TOKEN 1 s.

Definition S_atKeywordEscape (cp : value) (s : CSSParser) : option CSSParser :=
  if cp === 0x0A then _addStringValueTokenWithOffset AT_KEYWORD_TOKEN 2 s
  else _escape L_atKeyword cp s.

Definition S_badURL (cp : value) (s : CSSParser) : option CSSParser :=
  if case_of cp [0x29; EOF_SENTINEL] then
    Some (s |> _addStringValueTokenWithoutOffset BAD_URL_TOKEN)
  else if cp === 0x5C then Some (s |> set_lex L_badURLEscape)
  else Some s.

(** The [EOF_SENTINEL] case has no [return] after the token: it runs into
    the default case. *)
Definition S_badURLEscape (cp : value) (s : CSSParser) : option CSSParser :=
  if cp === EOF_SENTINEL then
    fail_or "css-syntax-3" "consume-escaped-code-point"
      (fun s => Some (s |> _addStringValueTokenWithoutOffset BAD_URL_TOKEN
                        |> set_lex L_badURL)) s
  else Some (s |> set_lex L_badURL).

Definition S_cdcOrIdent (cp : value) (s : CSSParser) : option CSSParser :=
  if cp === 0x3E then Some (s |> _addGeneralTokenWithoutOffset CDC_TOKEN)
  else s |> _stringValue (Num 0x2D) |> _stringValue (Num 0x2D)
         |> _reconsumeCurrentCP L_ident cp.

Definition S_comment (cp : value) (s : CSSParser) : option CSSParser :=
  if cp === 0x2A then Some (s |> set_lex L_commentAfterAsterisk)
  else if cp === EOF_SENTINEL then
    fail_or "css-syntax-3" "consume-comment"
      (fun s => Some (s |> _addGeneralTokenWithoutOffset COMMENT_TOKEN)) s
  else Some s.

Definition S_commentAfterAsterisk (cp : value) (s : CSSParser) : option CSSParser :=
  if cp === 0x2A then Some s
  else if cp === 0x2F then Some (s |> _addGeneralTokenWithoutOffset COMMENT_TOKEN)
  else if cp === EOF_SENTINEL then
    fail_or "css-syntax-3" "consume-comment"
      (fun s => Some (s |> _addGeneralTokenWithoutOffset COMMENT_TOKEN)) s
  else Some (s |> set_lex L_comment).

Definition S_delimOrAtKeyword (cp : value) (s : CSSParser) : option CSSParser :=
  if isNameStart cp then Some (s |> _stringValue cp |> set_lex L_atKeyword)
  else if cp === 0x2D then Some (s |> set_lex L_delimOrAtKeywordAfterHyphen)
  else if cp === 0x5C then Some (s |> set_lex L_delimOrAtKeywordAfterBackslash)
  else _addDelimTokenWithOffset (Num 0x40) (Num 1) s.

Definition S_delimOrAtKeywordAfterBackslash (cp : value) (s : CSSParser)
  : option CSSParser :=
  if cp === 0x0A then _addDelimTokenWithOffset (Num 0x40) (Num 2) s
  else _escape L_atKeyword cp s.

Definition S_delimOrAtKeywordAfterHyphen (cp : value) (s : CSSParser) : option CSSParser :=
  if isNameStart cp || (cp === 0x2D) then
    Some (s |> _stringValue (Num 0x2D) |> _stringValue cp |> set_lex L_atKeyword)
  else if cp === 0x5C then Some (s |> set_lex L_delimOrAtKeywordAfterHyphenBackslash)
  else _addDelimTokenWithOffset (Num 0x40) (Num 2) s.

Definition S_delimOrAtKeywordAfterHyphenBackslash (cp : value) (s : CSSParser)
  : option CSSParser :=
  if cp === 0x0A then _addDelimTokenWithOffset (Num 0x40) (Num 3) s
  else s |> _stringValue (Num 0x2D) |> _escape L_atKeyword cp.

Definition S_delimOrCDO (cp : value) (s : CSSParser) : option CSSParser :=
  if cp === 0x21 then Some (s |> set_lex L_delimOrCDOAfterExclamationPoint)
  else _addDelimTokenWithOffset (Num 0x3C) (Num 1) s.

Definition S_delimOrCDOAfterExclamationPoint (cp : value) (s : CSSParser)
  : option CSSParser :=
  if cp === 0x2D then Some (s |> set_lex L_delimOrCDOAfterExclamationPointHyphen)
  else _addDelimTokenWithOffset (Num 0x3C) (Num 2) s.

Definition S_delimOrCDOAfterExclamationPointHyphen (cp : value) (s : CSSParser)
  : option CSSParser :=
  if cp === 0x2D then Some (s |> _addGeneralTokenWithoutOffset CDO_TOKEN)
  else _addDelimTokenWithOffset (Num 0x3C) (Num 3) s.

Definition S_delimOrComment (cp : value) (s : CSSParser) : option CSSParser :=
  if cp === 0x2A then Some (s |> set_lex L_comment)
  else _addDelimTokenWithOffset (Num 0x2F) (Num 1) s.

Definition S_delimOrFractionalNumber (cp : value) (s : CSSParser) : option CSSParser :=
  if case_of cp digits then
    Some (s |> set_numericTokenIsFloat true |> set_lex L_numberInDecimal)
  else _addDelimTokenWithOffset (Num 0x2E) (Num 1) s.

Definition S_delimOrHash (cp : value) (s : CSSParser) : option CSSParser :=
  if isNameStart cp then
    Some (s |> set_hashTokenIsID true |> _stringValue cp |> set_lex L_hash)
  else if cp === 0x2D then Some (s |> _stringValue cp |> set_lex L_hashAfterHyphen)
  else if cp === 0x5C then Some (s |> set_lex L_delimOrHashAfterBackslash)
  else if isNameContinue cp then Some (s |> _stringValue cp |> set_lex L_hash)
  else _addDelimTokenWithOffset (Num 0x23) (Num 1) s.

Definition S_delimOrHashAfterBackslash (cp : value) (s : CSSParser) : option CSSParser :=
  if cp === 0x0A then _addDelimTokenWithOffset (Num 0x23) (Num 2) s
  else s |> set_hashTokenIsID true |> _escape L_hash cp.

Definition S_delimOrIdentAfterHyphenBackslash (cp : value) (s : CSSParser)
  : option CSSParser :=
  if cp === 0x0A then _addDelimTokenWithOffset (Num 0x2D) (Num 1) s
  else s |> _stringValue (Num 0x2D) |> _escape L_ident cp.

Definition S_delimOrIdentInitialEscape (cp : value) (s : CSSParser) : option CSSParser :=
  if cp === 0x0A then
    fail_or "css-syntax-3" "consume-token"
      (_addDelimTokenWithOffset (Num 0x5C) (Num 1)) s
  else _escape L_ident cp s.

(** The default case passes the code point itself as the offset. *)
Definition S_delimOrNegativeSignedNumberOrCDCOrIdent (cp : value) (s : CSSParser)
  : option CSSParser :=
  if cp === 0x2D then Some (s |> set_lex L_cdcOrIdent)
  else if cp === 0x2E then Some (s |> set_lex L_delimOrNegativeSignedNumberFractional)
  else if cp === 0x5C then Some (s |> set_lex L_delimOrIdentAfterHyphenBackslash)
  else if case_of cp digits then Some (s |> set_lex L_number)
  else if isNameStart cp then
    s |> _stringValue (Num 0x2D) |> _reconsumeCurrentCP L_ident cp
  else _addDelimTokenWithOffset (Num 0x2D) cp s.

Definition S_delimOrNegativeSignedNumberFractional (cp : value) (s : CSSParser)
  : option CSSParser :=
  if case_of cp digits then
    Some (s |> set_numericTokenIsFloat true |> set_lex L_numberInDecimal)
  else _addDelimTokenWithOffset (Num 0x2D) (Num 2) s.

Definition S_delimOrPositiveSignedNumber (cp : value) (s : CSSParser) : option CSSParser :=
  if cp === 0x2E then Some (s |> set_lex L_delimOrPositiveSignedNumberFractional)
  else if case_of cp digits then Some (s |> set_lex L_number)
  else _addDelimTokenWithOffset (Num 0x2B) (Num 1) s.

Definition S_delimOrPositiveSignedNumberFractional (cp : value) (s : CSSParser)
  : option CSSParser :=
  if case_of cp digits then
    Some (s |> set_numericTokenIsFloat true |> set_lex L_numberInDecimal)
  else _addDelimTokenWithOffset (Num 0x2B) (Num 2) s.

Definition S_escape (cp : value) (s : CSSParser) : option CSSParser :=
  if isHex cp then
    Some (s |> set_escapeCount 1 |> set_escapeCP (toHexValue cp) |> set_lex L_escapeHex)
  else if cp === EOF_SENTINEL then
    s ← fail_then "css-syntax-3" "consume-escaped-code-point" s;
    Some (s |> _stringValue (Num 0xFFFD) |> set_lex (_lexAfterEscape s))
  else Some (s |> _stringValue cp |> set_lex (_lexAfterEscape s)).

Definition S_escapeHex (cp : value) (s : CSSParser) : option CSSParser :=
  if isHex cp then
    let s := s |> set_escapeCP (ToInt32 (Z.shiftl (_escapeCP s) 4)) in
    let s := s |> set_escapeCP (_escapeCP s + toHexValue cp) in
    let s := s |> set_escapeCount (_escapeCount s + 1) in
    if _escapeCount s =? 6 then Some (s |> _finishHexEscape) else Some s
  else
    let s := s |> _finishHexEscape in
    if case_of cp [0x09; 0x0A; 0x20] then Some s else lex s cp.

(** The quote case has no [return] after the token: it runs into the
    default case. *)
Definition S_functionOrURL (cp : value) (s : CSSParser) : option CSSParser :=
  if case_of cp [0x09; 0x0A; 0x20] then
    Some (s |> set_urlWhitespaceCount (_urlWhitespaceCount s + 1))
  else if case_of cp [0x22; 0x27] then
    s ← _addStringValueTokenWithOffset FUNCTION_TOKEN (_urlWhitespaceCount s + 1) s;
    s |> set_stringValuesLength (_stringValuesStart s) |> _reconsumeCurrentCP L_url cp
  else
    s |> set_stringValuesLength (_stringValuesStart s) |> _reconsumeCurrentCP L_url cp.

Definition S_hash (cp : value) (s : CSSParser) : option CSSParser :=
  if isNameContinue cp then Some (s |> _stringValue cp)
  else if cp === 0x5C then Some (s |> set_lex L_hashEscape)
  else _addHashToken 1 s.

Definition S_hashAfterHyphen (cp : value) (s : CSSParser) : option CSSParser :=
  if isNameStart cp || (cp === 0x2D) then
    Some (s |> set_hashTokenIsID true |> _stringValue cp |> set_lex L_hash)
  else if cp === 0x5C then Some (s |> set_lex L_hashAfterHyphenBackslash)
  else if isNameContinue cp then Some (s |> _stringValue cp |> set_lex L_hash)
  else _addHashToken 1 s.

Definition S_hashAfterHyphenBackslash (cp : value) (s : CSSParser) : option CSSParser :=
  if cp === 0x0A then _addHashToken 2 s
  else s |> set_hashTokenIsID true |> _escape L_hash cp.

Definition S_hashEscape (cp : value) (s : CSSParser) : option CSSParser :=
  if cp === 0x0A then _addHashToken 2 s
  else _escape L_hash cp s.

Definition S_ident (cp : value) (s : CSSParser) : option CSSParser :=
  if isNameContinue cp then Some (s |> _stringValue cp)
  else if cp === 0x5C then Some (s |> set_lex L_identEscape)
  else if cp === 0x28 then
    if _isStringValueURL s then
      Some (s |> set_urlWhitespaceCount 0 |> set_lex L_functionOrURL)
    else Some (s |> _addStringValueTokenWithoutOffset FUNCTION_TOKEN)
  else _addStringValueTokenWithOffset IDENT_TOKEN 1 s.

Definition S_identEscape (cp : value) (s : CSSParser) : option CSSParser :=
  if cp === 0x0A then _addStringValueTokenWithOffset IDENT_TOKEN 2 s
  else _escape L_ident cp s.

Definition S_input (cp : value) (s : CSSParser) : option CSSParser :=
  if case_of cp [0x09; 0x0A; 0x20] then Some (s |> set_lex L_whitespace)
  else if cp === 0x22 then Some (s |> set_stringDelimiter 0x22 |> set_lex L_string)
  else if cp === 0x23 then Some (s |> set_lex L_delimOrHash)
  else if cp === 0x27 then Some (s |> set_stringDelimiter 0x27 |> set_lex L_string)
  else if cp === 0x28 then Some (s |> _addGeneralTokenWithoutOffset LEFT_PARENTHESIS_TOKEN)
  else if cp === 0x29 then Some (s |> _addGeneralTokenWithoutOffset RIGHT_PARENTHESIS_TOKEN)
  else if cp === 0x2B then Some (s |> set_lex L_delimOrPositiveSignedNumber)
  else if cp === 0x2C then Some (s |> _addGeneralTokenWithoutOffset COMMA_TOKEN)
  else if cp === 0x2D then Some (s |> set_lex L_delimOrNegativeSignedNumberOrCDCOrIdent)
  else if cp === 0x2E then Some (s |> set_lex L_delimOrFractionalNumber)
  else if cp === 0x2F then Some (s |> set_lex L_delimOrComment)
  else if case_of cp digits then Some (s |> set_lex L_number)
  else if cp === 0x3A then Some (s |> _addGeneralTokenWithoutOffset COLON_TOKEN)
  else if cp === 0x3B then Some (s |> _addGeneralTokenWithoutOffset SEMICOLON_TOKEN)
  else if cp === 0x3C then Some (s |> set_lex L_delimOrCDO)
  else if cp === 0x40 then Some (s |> set_lex L_delimOrAtKeyword)
  else if cp === 0x5B then Some (s |> _addGeneralTokenWithoutOffset LEFT_BRACKET_TOKEN)
  else if cp === 0x5C then Some (s |> set_lex L_delimOrIdentInitialEscape)
  else if cp === 0x5D then Some (s |> _addGeneralTokenWithoutOffset RIGHT_BRACKET_TOKEN)
  else if cp === 0x7B then Some (s |> _addGeneralTokenWithoutOffset LEFT_BRACE_TOKEN)
  else if cp === 0x7D then Some (s |> _addGeneralTokenWithoutOffset RIGHT_BRACE_TOKEN)
  else if cp === EOF_SENTINEL then Some s
  else if isNameStart cp then _reconsumeCurrentCP L_ident cp s
  else Some (s |> _addDelimTokenWithoutOffset cp).

(** The default case shared by [$number], [$numberExponent] and
    [$numberInDecimal]. *)
Definition number_default (cp : value) (s : CSSParser) : option CSSParser :=
  s ← _commitNumber 1 s;
  if isNameStart cp then Some (s |> _stringValue cp |> set_lex L_numberUnit)
  else _addNumberToken 1 s.

Definition S_number (cp : value) (s : CSSParser) : option CSSParser :=
  if cp === 0x25 then s ← _commitNumber 1 s; Some (s |> _addPercentageToken)
  else if cp === 0x2D then
    s ← _commitNumber 1 s; Some (s |> set_lex L_numberPossibleUnitHyphen)
  else if cp === 0x2E then Some (s |> set_lex L_numberPossibleFraction)
  else if case_of cp digits then Some s
  else if case_of cp [0x45; 0x65] then Some (s |> set_lex L_numberPossibleExponentOrUnit)
  else if cp === 0x5C then
    s ← _commitNumber 1 s; Some (s |> set_lex L_numberPossibleUnitBackslash)
  else number_default cp s.

Definition S_numberExponent (cp : value) (s : CSSParser) : option CSSParser :=
  if cp === 0x25 then s ← _commitNumber 1 s; Some (s |> _addPercentageToken)
  else if cp === 0x2D then
    s ← _commitNumber 1 s; Some (s |> set_lex L_numberPossibleUnitHyphen)
  else if case_of cp digits then Some s
  else if cp === 0x5C then
    s ← _commitNumber 1 s; Some (s |> set_lex L_numberPossibleUnitBackslash)
  else number_default cp s.

Definition S_numberInDecimal (cp : value) (s : CSSParser) : option CSSParser :=
  if cp === 0x25 then s ← _commitNumber 1 s; Some (s |> _addPercentageToken)
  else if cp === 0x2D then
    s ← _commitNumber 1 s; Some (s |> set_lex L_numberPossibleUnitHyphen)
  else if case_of cp digits then Some s
  else if case_of cp [0x45; 0x65] then Some (s |> set_lex L_numberPossibleExponentOrUnit)
  else if cp === 0x5C then
    s ← _commitNumber 1 s; Some (s |> set_lex L_numberPossibleUnitBackslash)
  else number_default cp s.

Definition S_numberPossibleExponentOrUnit (cp : value) (s : CSSParser) : option CSSParser :=
  if cp === 0x2B then Some (s |> set_lex L_numberPossibleExponentSignedOrUnitPlus)
  else if cp === 0x2D then Some (s |> set_lex L_numberPossibleExponentSignedOrUnitHyphen)
  else if case_of cp digits then
    Some (s |> set_numericTokenIsFloat true |> set_lex L_numberExponent)
  else if cp === 0x5C then
    s ← _commitNumber 2 s;
    s |> _stringValue (u32_get (_source s) (_sourceLength s - 2))
      |> _reconsumeCurrentCP L_numberUnitEscape (Num 0x5C)
  else
    s ← _commitNumber 2 s;
    let s := s |> _stringValue (u32_get (_source s) (_sourceLength s - 2)) in
    if isNameContinue cp then Some (s |> _stringValue cp |> set_lex L_numberUnit)
    else _addDimensionToken 1 s.

Definition S_numberPossibleExponentSignedOrUnitPlus (cp : value) (s : CSSParser)
  : option CSSParser :=
  if case_of cp digits then
    Some (s |> set_numericTokenIsFloat true |> set_lex L_numberExponent)
  else
    s ← _commitNumber 3 s;
    s |> _stringValue (u32_get (_source s) (_sourceLength s - 3))
      |> _addDimensionToken 2.

Definition S_numberPossibleExponentSignedOrUnitHyphen (cp : value) (s : CSSParser)
  : option CSSParser :=
  if case_of cp digits then
    Some (s |> set_numericTokenIsFloat true |> set_lex L_numberExponent)
  else
    let s := s |> _stringValue (u32_get (_source s) (_sourceLength s - 3))
               |> _stringValue (Num 0x2D) in
    if isNameContinue cp || (cp === 0x5C) then _reconsumeCurrentCP L_numberUnit cp s
    else s ← _commitNumber 3 s; _addDimensionToken 2 s.

Definition S_numberPossibleFraction (cp : value) (s : CSSParser) : option CSSParser :=
  if case_of cp digits then
    Some (s |> set_numericTokenIsFloat true |> set_lex L_numberInDecimal)
  else s ← _commitNumber 2 s; _addNumberToken 2 s.

Definition S_numberPossibleUnitBackslash (cp : value) (s : CSSParser) : option CSSParser :=
  if cp === 0x0A then _addNumberToken 2 s
  else _escape L_numberUnit cp s.

Definition S_numberPossibleUnitHyphen (cp : value) (s : CSSParser) : option CSSParser :=
  if cp === 0x2D then
    Some (s |> _stringValue (Num 0x2D) |> _stringValue (Num 0x2D) |> set_lex L_numberUnit)
  else if cp === 0x5C then Some (s |> set_lex L_numberPossibleUnitHyphenBackslash)
  else if isNameStart cp then
    Some (s |> _stringValue (Num 0x2D) |> _stringValue cp |> set_lex L_numberUnit)
  else _addNumberToken 2 s.

Definition S_numberPossibleUnitHyphenBackslash (cp : value) (s : CSSParser)
  : option CSSParser :=
  if cp === 0x0A then _addNumberToken 3 s
  else s |> _stringValue (Num 0x2D) |> _escape L_numberUnit cp.

Definition S_numberUnit (cp : value) (s : CSSParser) : option CSSParser :=
  if cp === 0x5C then Some (s |> set_lex L_numberUnitEscape)
  else if isNameContinue cp then Some (s |> _stringValue cp)
  else _addDimensionToken 1 s.

Definition S_numberUnitEscape (cp : value) (s : CSSParser) : option CSSParser :=
  if cp === 0x0A then _addDimensionToken 2 s
  else _escape L_numberUnit cp s.

Definition S_string (cp : value) (s : CSSParser) : option CSSParser :=
  if cp === _stringDelimiter s then
    Some (s |> _addStringValueTokenWithoutOffset STRING_TOKEN)
  else if cp === 0x0A then
    fail_or "css-syntax-3" "consume-a-string-token"
      (fun s => s |> set_stringValuesLength (_stringValuesStart s)
                  |> _addStringValueTokenWithOffset BAD_STRING_TOKEN 1) s
  else if cp === 0x5C then Some (s |> set_lex L_stringEscape)
  else if cp === EOF_SENTINEL then
    fail_or "css-syntax-3" "consume-a-string-token"
      (fun s => Some (s |> _addStringValueTokenWithoutOffset STRING_TOKEN)) s
  else Some (s |> _stringValue cp).

Definition S_stringEscape (cp : value) (s : CSSParser) : option CSSParser :=
  if cp === 0x0A then Some (s |> set_lex L_string)
  else if cp === EOF_SENTINEL then
    fail_or "css-syntax-3" "consume-a-string-token"
      (fun s => Some (s |> _addStringValueTokenWithoutOffset STRING_TOKEN)) s
  else _escape L_string cp s.

(** The tail of [$url]'s switch: the [EOF_SENTINEL] case has no [return],
    it runs into the default case. *)
Definition url_eof (cp : value) (s : CSSParser) : option CSSParser :=
  s ← fail_then "css-syntax-3" "consume-url-token" s;
  Some (s |> _addStringValueTokenWithoutOffset URL_TOKEN |> _stringValue cp).

(** The case of the non-printable code points has no [return] either: it
    runs into the [EOF_SENTINEL] case. *)
Definition S_url (cp : value) (s : CSSParser) : option CSSParser :=
  if case_of cp [0x09; 0x0A; 0x20] then Some (s |> set_lex L_urlAfterWhitespace)
  else if case_of cp [0x22; 0x27; 0x28] then
    s ← fail_then "css-syntax-3" "consume-url-token" s;
    Some (s |> set_stringValuesLength (_stringValuesStart s) |> set_lex L_badURL)
  else if cp === 0x29 then Some (s |> _addStringValueTokenWithoutOffset URL_TOKEN)
  else if cp === 0x5C then Some (s |> set_lex L_urlEscape)
  else if case_of cp
            [0x00; 0x01; 0x02; 0x03; 0x04; 0x05; 0x06; 0x07; 0x08; 0x0B; 0x0E;
             0x0F; 0x10; 0x11; 0x12; 0x13; 0x14; 0x15; 0x16; 0x17; 0x18; 0x19;
             0x1A; 0x1B; 0x1C; 0x1D; 0x1E; 0x1F; 0x7F] then
    s ← fail_then "css-syntax-3" "consume-url-token" s;
    s |> set_stringValuesLength (_stringValuesStart s) |> set_lex L_badURL
      |> url_eof cp
  else if cp === EOF_SENTINEL then url_eof cp s
  else Some (s |> _stringValue cp).

(** A non-terminal failure at [EOF_SENTINEL] runs into the case of [)]. *)
Definition S_urlAfterWhitespace (cp : value) (s : CSSParser) : option CSSParser :=
  if case_of cp [0x09; 0x0A; 0x20] then Some s
  else if cp === EOF_SENTINEL then
    fail_or "css-syntax-3" "consume-url-token"
      (fun s => Some (s |> _addStringValueTokenWithoutOffset URL_TOKEN)) s
  else if cp === 0x29 then Some (s |> _addStringValueTokenWithoutOffset URL_TOKEN)
  else Some (s |> set_stringValuesLength (_stringValuesStart s) |> set_lex L_badURL).

Definition S_urlEscape (cp : value) (s : CSSParser) : option CSSParser :=
  if cp === 0x0A then
    Some (s |> set_stringValuesLength (_stringValuesStart s) |> set_lex L_badURL)
  else _escape L_url cp s.

Definition S_whitespace (cp : value) (s : CSSParser) : option CSSParser :=
  if case_of cp [0x09; 0x0A; 0x20] then Some s
  else _addWhitespaceToken cp s.

(** The method held by the [_lex] field. *)
Definition method (l : lexState) : value -> CSSParser -> option CSSParser :=
  match l with
  | L_atKeyword => S_atKeyword
  | L_atKeywordEscape => S_atKeywordEscape
  | L_badURL => S_badURL
  | L_badURLEscape => S_badURLEscape
  | L_cdcOrIdent => S_cdcOrIdent
  | L_comment => S_comment
  | L_commentAfterAsterisk => S_commentAfterAsterisk
  | L_delimOrAtKeyword => S_delimOrAtKeyword
  | L_delimOrAtKeywordAfterBackslash => S_delimOrAtKeywordAfterBackslash
  | L_delimOrAtKeywordAfterHyphen => S_delimOrAtKeywordAfterHyphen
  | L_delimOrAtKeywordAfterHyphenBackslash => S_delimOrAtKeywordAfterHyphenBackslash
  | L_delimOrCDO => S_delimOrCDO
  | L_delimOrCDOAfterExclamationPoint => S_delimOrCDOAfterExclamationPoint
  | L_delimOrCDOAfterExclamationPointHyphen => S_delimOrCDOAfterExclamationPointHyphen
  | L_delimOrComment => S_delimOrComment
  | L_delimOrFractionalNumber => S_delimOrFractionalNumber
  | L_delimOrHash => S_delimOrHash
  | L_delimOrHashAfterBackslash => S_delimOrHashAfterBackslash
  | L_delimOrIdentAfterHyphenBackslash => S_delimOrIdentAfterHyphenBackslash
  | L_delimOrIdentInitialEscape => S_delimOrIdentInitialEscape
  | L_delimOrNegativeSignedNumberOrCDCOrIdent => S_delimOrNegativeSignedNumberOrCDCOrIdent
  | L_delimOrNegativeSignedNumberFractional => S_delimOrNegativeSignedNumberFractional
  | L_delimOrPositiveSignedNumber => S_delimOrPositiveSignedNumber
  | L_delimOrPositiveSignedNumberFractional => S_delimOrPositiveSignedNumberFractional
  | L_escape => S_escape
  | L_escapeHex => S_escapeHex
  | L_functionOrURL => S_functionOrURL
  | L_hash => S_hash
  | L_hashAfterHyphen => S_hashAfterHyphen
  | L_hashAfterHyphenBackslash => S_hashAfterHyphenBackslash
  | L_hashEscape => S_hashEscape
  | L_ident => S_ident
  | L_identEscape => S_identEscape
  | L_input => S_input
  | L_number => S_number
  | L_numberExponent => S_numberExponent
  | L_numberInDecimal => S_numberInDecimal
  | L_numberPossibleExponentOrUnit => S_numberPossibleExponentOrUnit
  | L_numberPossibleExponentSignedOrUnitPlus => S_numberPossibleExponentSignedOrUnitPlus
  | L_numberPossibleExponentSignedOrUnitHyphen =>
      S_numberPossibleExponentSignedOrUnitHyphen
  | L_numberPossibleFraction => S_numberPossibleFraction
  | L_numberPossibleUnitBackslash => S_numberPossibleUnitBackslash
  | L_numberPossibleUnitHyphen => S_numberPossibleUnitHyphen
  | L_numberPossibleUnitHyphenBackslash => S_numberPossibleUnitHyphenBackslash
  | L_numberUnit => S_numberUnit
  | L_numberUnitEscape => S_numberUnitEscape
  | L_string => S_string
  | L_stringEscape => S_stringEscape
  | L_url => S_url
  | L_urlAfterWhitespace => S_urlAfterWhitespace
  | L_urlEscape => S_urlEscape
  | L_whitespace => S_whitespace
  end.

End Methods.

(** [this._lex(cp)]. The methods call it in turn while they re-feed stored
    code points, to a depth that no measure bounds (a [-] followed by U+0002
    re-feeds itself for ever): [fuel] bounds the depth of these nested calls,
    and [None] stands for a call that does not return within it. *)
Fixpoint lex (fuel : nat) (s : CSSParser) (cp : value) : option CSSParser :=
  match fuel with
  | O => None
  | S fuel => method (lex fuel) (_lex s) cp s
  end.

(** ** The stream entry points *)

(** The body of [_write]'s loop over a chunk of code points. *)
Fixpoint write_loop (fuel : nat) (cps : list Z) (s : CSSParser) : option CSSParser :=
  match cps with
  | [] => Some s
  | cp :: cps =>
      if _lastCPWasCR s && (cp =? 0x0A) then
        write_loop fuel cps (s |> set_lastCPWasCR false)
      else
        let cp :=
          if cp =? 0x00 then 0xFFFD
          else if (cp =? 0x0C) || (cp =? 0x0D) then 0x0A
          else cp in
        let s :=
          s |> set_lastCPWasCR (cp =? 0x0D)
            |> set_source (u32_set (_source s) (_sourceLength s) (Num cp))
            |> set_sourceLength (_sourceLength s + 1)
            |> set_positions (u32_set (_positions s) (_positionsLength s) (Num (_line s)))
            |> set_positionsLength (_positionsLength s + 1)
            |> (fun s' =>
                  s' |> set_positions
                          (u32_set (_positions s') (_positionsLength s') (Num (_column s)))
                     |> set_positionsLength (_positionsLength s' + 1)) in
        s ← lex fuel s (Num cp);
        match _error s with
        | Some _ => Some s
        | None =>
            if (cp =? 0x0A) || (cp =? 0x2028) || (cp =? 0x2029) then
              write_loop fuel cps (s |> set_line (_line s + 1) |> set_column 0)
            else write_loop fuel cps (s |> set_column (_column s + 1))
        end
  end.

(** [_write(chunk)] for a chunk holding the code points [cps]. *)
Definition _write (fuel : nat) (cps : list Z) (s : CSSParser) : option CSSParser :=
  let length := Z.of_nat (List.length cps) in
  s ← (if Z.of_nat (List.length (_source s)) - _sourceLength s <? length
       then _expandBuffers length s else Some s);
  write_loop fuel cps s.

Definition _finish (fuel : nat) (s : CSSParser) : option CSSParser :=
  match _error s with
  | Some _ => Some s
  | None =>
      let s :=
        s |> set_source (u32_set (_source s) (_sourceLength s) (Num EOF_SENTINEL))
          |> set_sourceLength (_sourceLength s + 1) in
      s ← lex fuel s (Num EOF_SENTINEL);
      Some (s |> set_sourceLength (_sourceLength s - 1))
  end.

(** A stream that has reported an error through [done] is written no
    further chunk. *)
Fixpoint write_chunks (fuel : nat) (chunks : list (list Z)) (s : CSSParser)
  : option CSSParser :=
  match chunks with
  | [] => Some s
  | cps :: chunks =>
      s ← _write fuel cps s;
      match _error s with
      | Some _ => Some s
      | None => write_chunks fuel chunks s
      end
  end.

(** A parser of the given options fed the chunks, then the end of input. *)
Definition tokenize (fuel : nat) (recover : bool) (size : Z) (chunks : list (list Z))
  : option CSSParser :=
  s ← constructor recover size;
  s ← write_chunks fuel chunks s;
  _finish fuel s.

(** [fromCPs(cps, opts)]: the size defaults to the number of code points, and
    the input is written as one chunk. *)
Definition fromCPs (fuel : nat) (recover : bool) (cps : list Z) : option CSSParser :=
  tokenize fuel recover (Z.of_nat (List.length cps)) [cps].

(** ** TOKEN INTROSPECTION *)

Definition _getDelimTokenCP (index : Z) (s : CSSParser) : value :=
  u32_get (_tokens s) (index + 2).

Definition _getHashTokenIsID (index : Z) (s : CSSParser) : bool :=
  match u32_get (_tokens s) (index + 2) with
  | Num n => Z.land n 1 =? 1
  | Undefined => false
  end.

Definition _getNumberTokenIsFloat (index : Z) (s : CSSParser) : bool :=
  u32_get (_tokens s) (index + 2) === 1.

(** [a.subarray(begin, end)] for arguments that are the results of reads:
    an [undefined] begin counts as 0, an [undefined] end as the length. *)
Definition subarray_v {A} (a : list A) (begin_ end_ : value) : list A :=
  subarray a (match begin_ with Num n => n | Undefined => 0 end)
             (match end_ with Num n => n | Undefined => Z.of_nat (List.length a) end).

Definition _getStringValueOfNonHashToken (index : Z) (s : CSSParser) : list Z :=
  subarray_v (_stringValues s) (u32_get (_tokens s) (index + 2))
             (u32_get (_tokens s) (index + 3)).

Definition _getStringValueOfHashToken (index : Z) (s : CSSParser) : list Z :=
  subarray_v (_stringValues s)
    (match u32_get (_tokens s) (index + 2) with
     | Num n => Num (Z.shiftr n 1)
     | Undefined => Undefined
     end)
    (u32_get (_tokens s) (index + 3)).

(** The kinds and the source end indices of the tokens recorded so far, in
    order (four slots a token). *)
Definition token_kinds (s : CSSParser) : list value :=
  map (fun i => u32_get (_tokens s) (4 * Z.of_nat i)) (seq 0 (Z.to_nat (_tokensLength s / 4))).
Definition token_ends (s : CSSParser) : list value :=
  map (fun i => u32_get (_tokens s) (4 * Z.of_nat i + 1))
      (seq 0 (Z.to_nat (_tokensLength s / 4))).

(** Code points handed to [_lex] one after the other, as the loop of
    [_write] does for a chunk (without the bookkeeping of the source
    buffer). *)
Fixpoint feed (fuel : nat) (s : CSSParser) (cps : list value) : option CSSParser :=
  match cps with
  | [] => Some s
  | cp :: cps => s ← lex fuel s cp; feed fuel s cps
  end.

(** The code points of an ASCII string literal. *)
Definition codepoints (text : string) : list Z :=
  map (fun a => Z.of_nat (Ascii.nat_of_ascii a)) (list_ascii_of_string text).

(** ** TOKEN INTROSPECTION, the other getters *)

(** The indexed read [a[i]] for an index that is itself the result of a
    read: an index that is no number reads [undefined]. *)
Definition ta_get_v {A} (a : list A) (i : value) : option A :=
  match i with Num n => ta_get a n | Undefined => None end.
Definition u32_get_v (a : list Z) (i : value) : value :=
  match i with Num n => u32_get a n | Undefined => Undefined end.

(** What the getters of numeric values return: an element of the float
    buffer, an element of the integer buffer, or [undefined]. *)
Inductive numeric := OfFloat (n : number) | OfInt (n : int32) | NoNumber.

(** The integer that the result of a getter is, for an element of the
    integer buffer. *)
Definition integer_read (x : numeric) : option Z :=
  match x with OfInt n => int32_value n | _ => None end.

Definition float_at (a : list number) (i : value) : numeric :=
  match ta_get_v a i with Some n => OfFloat n | None => NoNumber end.
Definition int_at (a : list int32) (i : value) : numeric :=
  match ta_get_v a i with Some n => OfInt n | None => NoNumber end.

Definition _getDimensionTokenIsFloat (index : Z) (s : CSSParser) : bool :=
  u32_get_v (_stringValues s) (u32_get (_tokens s) (index + 3)) === 1.

(** [this._tokens[index + 3] + 1] is no number when the read is
    [undefined]. *)
Definition _getNumericValueOfDimensionToken (index : Z) (s : CSSParser) : numeric :=
  let numberIndex :=
    u32_get_v (_stringValues s)
      (match u32_get (_tokens s) (index + 3) with
       | Num n => Num (n + 1)
       | Undefined => Undefined
       end) in
  if _getDimensionTokenIsFloat index s then float_at (_floatValues s) numberIndex
  else int_at (_intValues s) numberIndex.

Definition _getNumericValueOfNumberToken (index : Z) (s : CSSParser) : numeric :=
  let numberIndex := u32_get (_tokens s) (index + 3) in
  if _getNumberTokenIsFloat index s then float_at (_floatValues s) numberIndex
  else int_at (_intValues s) numberIndex.

Definition _getNumericValueOfPercentageToken (index : Z) (s : CSSParser) : numeric :=
  float_at (_floatValues s) (u32_get (_tokens s) (index + 2)).

(** [Math.imul] converts an [undefined] operand to 0. *)
Definition _getPositionOfToken (index : Z) (s : CSSParser) : list Z :=
  let positionIndex :=
    if index =? 0 then 0
    else imul (match u32_get (_tokens s) (index - 3) with Num n => n | Undefined => 0 end) 2 in
  subarray (_positions s) positionIndex (positionIndex + 2).

Definition _getSourceOfToken (index : Z) (s : CSSParser) : list Z :=
  let start := if index =? 0 then Num 0 else u32_get (_tokens s) (index - 3) in
  let end_ := u32_get (_tokens s) (index + 1) in
  subarray_v (_source s) start end_.

(** [v !== w] negated, for two values. *)
Definition same_value (v w : value) : bool :=
  match v, w with
  | Num n, Num m => n =? m
  | Undefined, Undefined => true
  | _, _ => false
  end.

(** The loop of [_testSimpleStringValue]: [n] is the number of rounds left,
    [end - i]. *)
Fixpoint test_from (n : nat) (i j : Z) (buf : list Z) (s : CSSParser) : bool :=
  match n with
  | O => true
  | S n =>
      if same_value (u32_get (_stringValues s) i) (u32_get buf j)
      then test_from n (i + 1) (j + 1) buf s
      else false
  end.

(** [buf] is an array of code points. A [start] or [end] that is
    [undefined] makes [end - start] no number, which differs from every
    length. *)
Definition _testSimpleStringValue (index : Z) (buf : list Z) (s : CSSParser) : bool :=
  match u32_get (_tokens s) (index + 2), u32_get (_tokens s) (index + 3) with
  | Num start, Num end_ =>
      if negb (end_ - start =? Z.of_nat (List.length buf)) then false
      else test_from (Z.to_nat (end_ - start)) start 0 buf s
  | _, _ => false
  end.

(** * Specification

    The notions the properties below are stated with. *)

(** An entry of the trace is in order when at most 3 code points were
    re-fed, or when it belongs to a FUNCTION token. *)
Definition replay_ok (e : Z * Z) : Prop := e.2 <= 3 \/ e.1 = FUNCTION_TOKEN.

(** [s'] extends [s]: the tokens and the numeric values recorded in [s] are
    still there, at their indices and in buffers of the same length; so are
    the string values below the watermark [_stringValuesStart], which does
    not go back (when it was not above [_stringValuesLength] to begin with);
    and the entries added to the trace are in order. *)
Record extends (s s' : CSSParser) : Prop := {
  ext_tokensLength : _tokensLength s <= _tokensLength s';
  ext_tokens : forall i, i < _tokensLength s ->
    u32_get (_tokens s') i = u32_get (_tokens s) i;
  ext_tokens_size : List.length (_tokens s') = List.length (_tokens s);
  ext_floatValuesLength : _floatValuesLength s <= _floatValuesLength s';
  ext_floatValues : forall i, i < _floatValuesLength s ->
    ta_get (_floatValues s') i = ta_get (_floatValues s) i;
  ext_floatValues_size : List.length (_floatValues s') = List.length (_floatValues s);
  ext_intValuesLength : _intValuesLength s <= _intValuesLength s';
  ext_intValues : forall i, i < _intValuesLength s ->
    ta_get (_intValues s') i = ta_get (_intValues s) i;
  ext_intValues_size : List.length (_intValues s') = List.length (_intValues s);
  ext_stringValues :
    _stringValuesStart s <= _stringValuesLength s ->
    _stringValuesStart s <= _stringValuesStart s' /\
    _stringValuesStart s' <= _stringValuesLength s' /\
    forall i, i < _stringValuesStart s ->
      u32_get (_stringValues s') i = u32_get (_stringValues s) i;
  ext_stringValues_size : List.length (_stringValues s') = List.length (_stringValues s);
  ext_replayed : exists new, replayed s' = new ++ replayed s /\ Forall replay_ok new;
  ext_recover : _recover s' = _recover s;
  ext_lastCPWasCR : _lastCPWasCR s' = _lastCPWasCR s;
  ext_positions : _positions s' = _positions s;
  ext_positionsLength : _positionsLength s' = _positionsLength s;
}.

(** The value of a hex digit and of a run of hex digits, and the code point
    an escape of that value stands for, as the CSS syntax words them. *)
Definition hexDigitValue (d : Z) : Z :=
  if (0x30 <=? d) && (d <=? 0x39) then d - 0x30
  else if (0x41 <=? d) && (d <=? 0x46) then d - 0x41 + 10
  else d - 0x61 + 10.

Definition hexNumber (ds : list Z) : Z :=
  fold_left (fun acc d => 16 * acc + hexDigitValue d) ds 0.

Definition decoded (n : Z) : Z :=
  if (n =? 0) || (0x10FFFF <? n) || ((0xD800 <=? n) && (n <=? 0xDFFF)) then 0xFFFD
  else n.

(** The state in the middle of a hex escape: [k] digits read, of value [v]. *)
Definition in_hex_escape (k v : Z) (s : CSSParser) : CSSParser :=
  s |> set_escapeCount k |> set_escapeCP v |> set_lex L_escapeHex.

(** The state a hex escape of [k] digits and value [v] leaves behind. *)
Definition after_hex_escape (k v : Z) (s : CSSParser) : CSSParser :=
  s |> set_escapeCount k |> set_escapeCP v
    |> _stringValue (Num (decoded v)) |> set_lex (_lexAfterEscape s).

(** Every field but the error list is the same in [s'] as in [s]. *)
Definition unchanged_but_errors (s s' : CSSParser) : Prop :=
  _column s' = _column s /\
  _error s' = _error s /\
  _escapeCount s' = _escapeCount s /\
  _escapeCP s' = _escapeCP s /\
  _floatValues s' = _floatValues s /\
  _floatValuesLength s' = _floatValuesLength s /\
  _hashTokenIsID s' = _hashTokenIsID s /\
  _intValues s' = _intValues s /\
  _intValuesLength s' = _intValuesLength s /\
  _lastCPWasCR s' = _lastCPWasCR s /\
  _lex s' = _lex s /\
  _lexAfterEscape s' = _lexAfterEscape s /\
  _line s' = _line s /\
  _numericTokenIsFloat s' = _numericTokenIsFloat s /\
  _numericTokenValue s' = _numericTokenValue s /\
  _positions s' = _positions s /\
  _positionsLength s' = _positionsLength s /\
  _recover s' = _recover s /\
  _source s' = _source s /\
  _sourceLength s' = _sourceLength s /\
  _stringDelimiter s' = _stringDelimiter s /\
  _stringValues s' = _stringValues s /\
  _stringValuesLength s' = _stringValuesLength s /\
  _stringValuesStart s' = _stringValuesStart s /\
  _tokens s' = _tokens s /\
  _tokensLength s' = _tokensLength s /\
  _urlWhitespaceCount s' = _urlWhitespaceCount s /\
  replayed s' = replayed s.

(** There is room in the buffers of [s] for one more token and its values,
    and the lengths are array indices. *)
Definition room (s : CSSParser) : Prop :=
  0 <= _tokensLength s /\ _tokensLength s + 4 <= Z.of_nat (List.length (_tokens s)) /\
  0 <= _floatValuesLength s < Z.of_nat (List.length (_floatValues s)) /\
  0 <= _intValuesLength s < Z.of_nat (List.length (_intValues s)) /\
  0 <= _stringValuesStart s <= _stringValuesLength s /\
  _stringValuesLength s + 2 <= Z.of_nat (List.length (_stringValues s)) /\
  _floatValuesLength s < 2 ^ 32 /\ _intValuesLength s < 2 ^ 32 /\
  _stringValuesLength s < 2 ^ 32.

(** The value [v] is held at [index] of the float buffer when [isFloat], and
    otherwise, truncated, at [index] of the integer buffer. *)
Definition number_stored (isFloat : bool) (v : number) (index : Z) (s' : CSSParser) : Prop :=
  if isFloat then ta_get (_floatValues s') index = Some v
  else ta_get (_intValues s') index = Some (StoreInt32 v).

(** The check that the code points after [#] would start an identifier: an
    identifier-start code point; or a backslash that no line feed follows; or
    a hyphen followed by an identifier-start code point, by another hyphen,
    or by a backslash that no line feed follows. *)
Definition valid_escape (cps : list value) : bool :=
  match cps with
  | c1 :: c2 :: _ => (c1 === 0x5C) && negb (c2 === 0x0A)
  | _ => false
  end.

Definition starts_identifier (cps : list value) : bool :=
  match cps with
  | [] => false
  | c1 :: rest =>
      isNameStart c1 || valid_escape cps
      || (c1 === 0x2D) &&
         match rest with
         | [] => false
         | c2 :: _ => isNameStart c2 || (c2 === 0x2D) || valid_escape rest
         end
  end.

(** The code points [consumed] settle the check, whatever follows them. *)
Definition decided (consumed : list value) (b : bool) : Prop :=
  forall more, starts_identifier (consumed ++ more) = b.

(** The states in which a hash is in progress between two calls of [_lex]. *)
Definition in_hash (s : CSSParser) : Prop :=
  _lex s = L_hash \/ _lex s = L_hashEscape \/
  (_lex s = L_escapeHex /\ _lexAfterEscape s = L_hash).

(** Where the tokenizer stands after [#] and the code points [consumed], for
    a token array of length [cap] whose next token goes to index [i]. *)
Inductive hash_phase (cap i : Z) (consumed : list value) (s : CSSParser) : Prop :=
  | ph_start :
      consumed = [] -> _lex s = L_delimOrHash ->
      _hashTokenIsID s = false -> _tokensLength s = i ->
      Z.of_nat (List.length (_tokens s)) = cap ->
      hash_phase cap i consumed s
  | ph_hyphen :
      consumed = [Num 0x2D] -> _lex s = L_hashAfterHyphen ->
      _hashTokenIsID s = false -> _tokensLength s = i ->
      Z.of_nat (List.length (_tokens s)) = cap ->
      hash_phase cap i consumed s
  | ph_backslash :
      consumed = [Num 0x5C] -> _lex s = L_delimOrHashAfterBackslash ->
      _hashTokenIsID s = false -> _tokensLength s = i ->
      Z.of_nat (List.length (_tokens s)) = cap ->
      hash_phase cap i consumed s
  | ph_hyphen_backslash :
      consumed = [Num 0x2D; Num 0x5C] -> _lex s = L_hashAfterHyphenBackslash ->
      _hashTokenIsID s = false -> _tokensLength s = i ->
      Z.of_nat (List.length (_tokens s)) = cap ->
      hash_phase cap i consumed s
  | ph_in_hash :
      in_hash s -> decided consumed (_hashTokenIsID s) -> _tokensLength s = i ->
      Z.of_nat (List.length (_tokens s)) = cap ->
      hash_phase cap i consumed s
  | ph_done :
      i + 4 <= _tokensLength s ->
      (u32_get (_tokens s) i = Num HASH_TOKEN ->
       decided consumed (_getHashTokenIsID i s)) ->
      Z.of_nat (List.length (_tokens s)) = cap ->
      hash_phase cap i consumed s.

(** The outcome of one call of [_lex] while a hash is in progress: the hash
    goes on with the same flag, or its token is recorded with the flag. *)
Definition hash_goes_on (s s' : CSSParser) : Prop :=
  in_hash s' /\ _hashTokenIsID s' = _hashTokenIsID s /\
  _tokensLength s' = _tokensLength s /\
  List.length (_tokens s') = List.length (_tokens s).

Definition hash_recorded (s s' : CSSParser) : Prop :=
  _tokensLength s + 4 <= _tokensLength s' /\
  u32_get (_tokens s') (_tokensLength s) = Num HASH_TOKEN /\
  _getHashTokenIsID (_tokensLength s) s' = _hashTokenIsID s /\
  List.length (_tokens s') = List.length (_tokens s).

(** [s'] keeps what [_write] alone maintains in [s], the source buffer and
    the line and column counters; the token array has grown by whole tokens
    of four slots; errors were added to the list in recover mode only, and
    the terminal error was set in strict mode only, never cleared. *)
Record kept (s s' : CSSParser) : Prop := {
  kept_source : _source s' = _source s;
  kept_line : _line s' = _line s;
  kept_column : _column s' = _column s;
  kept_recover : _recover s' = _recover s;
  kept_tokensLength : exists k, 0 <= k /\ _tokensLength s' = _tokensLength s + 4 * k;
  kept_errors :
    exists new, _errors s' = _errors s ++ new /\ (_recover s = false -> new = []);
  kept_error :
    if _recover s then _error s' = _error s
    else is_Some (_error s) -> is_Some (_error s');
}.

(** A code point as [_write] and the re-feeding hand it to [_lex]: a number
    that is not negative, or [undefined]. *)
Definition not_negative (cp : value) : Prop :=
  match cp with Num n => 0 <= n | Undefined => True end.

(** [s'] has the source buffer of [s], none of whose elements is negative,
    and a source length of at most [d] more. *)
Definition within (d : Z) (s s' : CSSParser) : Prop :=
  Forall (fun cp => 0 <= cp) (_source s) ->
  _source s' = _source s /\ _sourceLength s' <= _sourceLength s + d.

(** [s'] differs from [s] at most in the fields that [_write] and [_finish]
    themselves assign: the source buffer and its length, the position table
    and its length, the line and column counters and the carriage return
    flag. *)
Definition rewritten (s s' : CSSParser) : Prop :=
  exists cr source sourceLength positions positionsLength line column,
    s' = s |> set_lastCPWasCR cr |> set_source source |> set_sourceLength sourceLength
           |> set_positions positions |> set_positionsLength positionsLength
           |> set_line line |> set_column column.

(** The part of [kept] that holds across [_write] too. *)
Record grown (s s' : CSSParser) : Prop := {
  grown_recover : _recover s' = _recover s;
  grown_tokensLength : exists k, 0 <= k /\ _tokensLength s' = _tokensLength s + 4 * k;
  grown_errors :
    exists new, _errors s' = _errors s ++ new /\ (_recover s = false -> new = []);
  grown_error :
    if _recover s then _error s' = _error s
    else is_Some (_error s) -> is_Some (_error s');
}.

(** What was recorded in [s] is still there in [s']: the slots of the token
    array below [_tokensLength], the numeric values below their counts, and
    the string values below the watermark [_stringValuesStart] (when it was
    not above [_stringValuesLength] to begin with). *)
Record persists (s s' : CSSParser) : Prop := {
  per_tokensLength : _tokensLength s <= _tokensLength s';
  per_tokens : forall i v, i < _tokensLength s ->
    u32_get (_tokens s) i = Num v -> u32_get (_tokens s') i = Num v;
  per_floatValuesLength : _floatValuesLength s <= _floatValuesLength s';
  per_floatValues : forall i v, i < _floatValuesLength s ->
    ta_get (_floatValues s) i = Some v -> ta_get (_floatValues s') i = Some v;
  per_intValuesLength : _intValuesLength s <= _intValuesLength s';
  per_intValues : forall i v, i < _intValuesLength s ->
    ta_get (_intValues s) i = Some v -> ta_get (_intValues s') i = Some v;
  per_stringValues :
    _stringValuesStart s <= _stringValuesLength s ->
    _stringValuesStart s <= _stringValuesStart s' /\
    _stringValuesStart s' <= _stringValuesLength s' /\
    forall i v, i < _stringValuesStart s ->
      u32_get (_stringValues s) i = Num v -> u32_get (_stringValues s') i = Num v;
}.

(** The source slices of the tokens recorded in [s], in order. *)
Definition token_sources (s : CSSParser) : list (list Z) :=
  map (fun i => _getSourceOfToken (4 * Z.of_nat i) s)
      (seq 0 (Z.to_nat (_tokensLength s / 4))).

(** The indices [ends] do not go back, starting from [prev]. *)
Fixpoint ascending (prev : Z) (ends : list Z) : Prop :=
  match ends with
  | [] => True
  | e :: ends => prev <= e /\ ascending e ends
  end.

(** The slices of [a] between consecutive indices, starting from [prev]. *)
Fixpoint slices {A} (a : list A) (prev : Z) (ends : list Z) : list (list A) :=
  match ends with
  | [] => []
  | e :: ends => subarray a prev e :: slices a e ends
  end.

(** The code points after which [_write] starts a new line: line feed, the
    form feed and the carriage return it replaces by a line feed, and the
    line and paragraph separators. *)
Definition is_line_break (cp : Z) : bool :=
  (cp =? 0x0A) || (cp =? 0x0C) || (cp =? 0x0D) || (cp =? 0x2028) || (cp =? 0x2029).

(** The line and the column, counted from 0, that follow the code points
    [cps] when they start at [line] and [column]. *)
Fixpoint position_after (line column : Z) (cps : list Z) : Z * Z :=
  match cps with
  | [] => (line, column)
  | cp :: cps =>
      if is_line_break cp then position_after (line + 1) 0 cps
      else position_after line (column + 1) cps
  end.

(** The buffers of [s] have the lengths that the constructor and
    [_expandBuffers] give them for [n] code points. *)
Definition capacity (n : Z) (s : CSSParser) : Prop :=
  Z.of_nat (List.length (_floatValues s)) = n /\
  Z.of_nat (List.length (_intValues s)) = n /\
  Z.of_nat (List.length (_positions s)) = 2 * n /\
  Z.of_nat (List.length (_source s)) = n /\
  Z.of_nat (List.length (_stringValues s)) = n /\
  Z.of_nat (List.length (_tokens s)) = 4 * n.

(** The state after the code points [cps] have been appended to the string
    values one by one. *)
Definition with_string_values (cps : list Z) (s : CSSParser) : CSSParser :=
  fold_left (fun s cp => _stringValue (Num cp) s) cps s.

(** The buffer after [cps] have been stored from index [i] on. *)
Fixpoint stored (cps : list Z) (a : list Z) (i : Z) : list Z :=
  match cps with
  | [] => a
  | cp :: cps => stored cps (u32_set a i (Num cp)) (i + 1)
  end.

(** A stored code point that is neither a form feed nor a carriage
    return. *)
Definition no_FF_CR (cp : Z) : Prop := cp <> 0x0C /\ cp <> 0x0D.

(** The code point that [_write] stores and lexes for [cp]. *)
Definition normalized (cp : Z) : Z :=
  if cp =? 0x00 then 0xFFFD else if (cp =? 0x0C) || (cp =? 0x0D) then 0x0A else cp.

(** The code points that [_write] hands to [_lex] as white space: tab, line
    feed and space, and the form feed and carriage return it replaces by a
    line feed. *)
Definition is_space (cp : Z) : bool := case_of (Num (normalized cp)) [0x09; 0x0A; 0x20].

(** Where the token of index [i] starts: at the end recorded for the token
    before it, as [_commitNumber], [_fail] and [_getSourceOfToken] take
    it. *)
Definition token_start (i : Z) (tokens : list Z) : Z :=
  match (if i =? 0 then Num 0 else u32_get tokens (i - 3)) with
  | Num n => n
  | Undefined => 0
  end.

(** What the host parses from the source of the token of index [i], taken
    up to the source index [k]. *)
Definition parse_upto (k i : Z) (s : CSSParser) : number :=
  ParseFloat (subarray (_source s) (token_start i (_tokens s)) k).

(** The value [v] is where the is-float flag says, and an integer that the
    host parses exactly is read from the integer buffer as the store of an
    [Int32Array] leaves it: wrapped into the 32-bit range, and not cut off
    at its bounds. *)
Definition value_recorded (isFloat : bool) (v : number) (index : Z) (s : CSSParser)
  : Prop :=
  number_stored isFloat v index s /\
  (isFloat = false -> forall z, number_value v = Some z ->
     ta_get (_intValues s) index ≫= int32_value = Some (ToInt32 z)).

(** The token recorded at index [i] of [s], when it is a NUMBER, a
    PERCENTAGE or a DIMENSION token, holds the parse of its own source,
    which runs from the end of the token before it to the end [e] recorded
    for it: of all of it for a NUMBER token, of all but the percent sign for
    a PERCENTAGE token, and for a DIMENSION token of the part, up to some
    index [k] within it, that comes before the unit. The value of a
    PERCENTAGE token is in the float buffer; the value of the other two is
    in the float buffer when the is-float flag recorded with the token is
    set, and in the integer buffer, converted by its store, when it is
    not. *)
Definition numeric_token_sound (i : Z) (s : CSSParser) : Prop :=
  (u32_get (_tokens s) i = Num NUMBER_TOKEN ->
     exists e isFloat index,
       u32_get (_tokens s) (i + 1) = Num e /\
       u32_get (_tokens s) (i + 2) = Num (Z.b2z isFloat) /\
       u32_get (_tokens s) (i + 3) = Num index /\
       value_recorded isFloat (parse_upto e i s) index s) /\
  (u32_get (_tokens s) i = Num PERCENTAGE_TOKEN ->
     exists e index,
       u32_get (_tokens s) (i + 1) = Num e /\
       u32_get (_tokens s) (i + 2) = Num index /\
       ta_get (_floatValues s) index = Some (parse_upto (e - 1) i s)) /\
  (u32_get (_tokens s) i = Num DIMENSION_TOKEN ->
     exists e k isFloat index sv2,
       u32_get (_tokens s) (i + 1) = Num e /\
       0 <= k <= e /\
       u32_get (_tokens s) (i + 3) = Num sv2 /\
       u32_get (_stringValues s) sv2 = Num (Z.b2z isFloat) /\
       u32_get (_stringValues s) (sv2 + 1) = Num index /\
       value_recorded isFloat (parse_upto k i s) index s).

(** The counts of [s] are array indices, and the string value in progress
    starts within the string values. *)
Definition counts_ok (s : CSSParser) : Prop :=
  0 <= _tokensLength s /\ 0 <= _floatValuesLength s /\ 0 <= _intValuesLength s /\
  0 <= _stringValuesStart s <= _stringValuesLength s.

(** What [s] has recorded lies within its buffers, whose lengths are below
    2^32, as is the length of the source. *)
Definition fits (s : CSSParser) : Prop :=
  _tokensLength s <= Z.of_nat (List.length (_tokens s)) /\
  _floatValuesLength s <= Z.of_nat (List.length (_floatValues s)) /\
  _intValuesLength s <= Z.of_nat (List.length (_intValues s)) /\
  _stringValuesLength s <= Z.of_nat (List.length (_stringValues s)) /\
  Z.of_nat (List.length (_floatValues s)) < 2 ^ 32 /\
  Z.of_nat (List.length (_intValues s)) < 2 ^ 32 /\
  Z.of_nat (List.length (_stringValues s)) < 2 ^ 32 /\
  _sourceLength s < 2 ^ 32.

(** The state is one that a call of [_lex] can find: its counts are array
    indices, the token array holds no negative number, and the source holds
    the code point of the call, its last one, at an index below 2^32. *)
Definition call_ok (s : CSSParser) : Prop :=
  counts_ok s /\ Forall (fun n => 0 <= n) (_tokens s) /\ 1 <= _sourceLength s <= 2 ^ 32.

(** The number committed for the token in progress is the parse of the
    source up to [k]. *)
Definition committed_upto (k : Z) (s : CSSParser) : Prop :=
  0 <= k /\ _numericTokenValue s = parse_upto k (_tokensLength s) s.

(** A unit is in progress after a number that was committed: the number
    ends before the code point that [_lex] is called with, the last one of
    the source. *)
Definition unit_committed (s : CSSParser) : Prop :=
  exists k, k <= _sourceLength s - 2 /\ committed_upto k s.

(** What a state owes to the call of [_lex] that finds it, the code point
    of the call being the last one of the source. The states after the
    point or the [e] of a number have that many code points of the number
    behind them. The
    states reached after [_commitNumber] rely on its value: the states for a
    hyphen or a backslash that may begin a unit, where the number ends
    before that code point, and the states of the unit. An escape in
    progress returns to a state of the kind that [_escape] is called with,
    and to the unit only after a committed number. *)
Definition committed (s : CSSParser) : Prop :=
  match _lex s with
  | L_numberPossibleFraction | L_numberPossibleExponentOrUnit => 2 <= _sourceLength s
  | L_numberPossibleExponentSignedOrUnitPlus
  | L_numberPossibleExponentSignedOrUnitHyphen => 3 <= _sourceLength s
  | L_numberPossibleUnitHyphen | L_numberPossibleUnitBackslash =>
      committed_upto (_sourceLength s - 2) s
  | L_numberPossibleUnitHyphenBackslash => committed_upto (_sourceLength s - 3) s
  | L_numberUnit | L_numberUnitEscape => unit_committed s
  | L_escape | L_escapeHex =>
      match _lexAfterEscape s with
      | L_numberUnit => unit_committed s
      | L_atKeyword | L_hash | L_ident | L_input | L_string | L_url => True
      | _ => False
      end
  | _ => True
  end.

(** The call that takes the state after a hyphen in an exponent to the unit
    without [_commitNumber]: the code point is no digit, and a name code
    point or a backslash. *)
Definition slips (s : CSSParser) (cp : value) : bool :=
  match _lex s with
  | L_numberPossibleExponentSignedOrUnitHyphen =>
      negb (case_of cp digits) && (isNameContinue cp || (cp === 0x5C))
  | _ => false
  end.

(** The state in which the loop of [_write], or [_finish], makes its next
    call of [_lex], with the code point [cp]. *)
Definition next_call (cp : value) (s : CSSParser) : CSSParser :=
  s |> set_source (u32_set (_source s) (_sourceLength s) cp)
    |> set_sourceLength (_sourceLength s + 1).

(** The first token recorded after [s] is of kind [K]: the slot of its kind
    holds [K], if it holds anything. *)
Definition first_kind (K : Z) (s s' : CSSParser) : Prop :=
  _tokensLength s < _tokensLength s' /\
  forall k, u32_get (_tokens s') (_tokensLength s) = Num k -> k = K.

(** What one call of [_lex] does about numeric tokens: it records no token
    and leaves the state as the next call needs it, or the first token it
    records is sound. *)
Definition numeric_step (s s' : CSSParser) : Prop :=
  (_tokensLength s' = _tokensLength s /\
   forall cp, call_ok (next_call cp s') /\ committed (next_call cp s')) \/
  (_tokensLength s < _tokensLength s' /\ numeric_token_sound (_tokensLength s) s').

(** * Properties *)

(** Simplification leaves the typed arrays, the 32-bit conversions and the
    arithmetic of indices folded. *)
#[local] Arguments ta_get : simpl never.
#[local] Arguments ta_set : simpl never.
#[local] Arguments u32_get : simpl never.
#[local] Arguments u32_set : simpl never.
#[local] Arguments u32 : simpl never.
#[local] Arguments ToUint32 : simpl never.
#[local] Arguments ToInt32 : simpl never.
#[local] Arguments subarray : simpl never.
#[local] Arguments Z.shiftl : simpl never.
#[local] Arguments Z.add : simpl never.
#[local] Arguments Z.sub : simpl never.
#[local] Arguments Z.mul : simpl never.
#[local] Arguments Z.of_nat : simpl never.

(** ** What a call of [_lex] leaves in place *)

Lemma eqv_true v n : (v === n) = true -> v = Num n.
Proof. destruct v as [m |]; [| done]. simpl. by intros ->%Z.eqb_eq. Qed.

Lemma ta_get_set_ne {A} (a : list A) (i j : Z) (x : A) :
  i <> j -> ta_get (ta_set a j x) i = ta_get a i.
Proof.
  intros Hne. unfold ta_get, ta_set.
  destruct (Z.ltb_spec i 0), (Z.ltb_spec j 0); try done.
  apply list_lookup_insert_ne. lia.
Qed.

Lemma ta_get_set_eq {A} (a : list A) (i : Z) (x : A) :
  0 <= i < Z.of_nat (List.length a) -> ta_get (ta_set a i x) i = Some x.
Proof.
  intros Hi. unfold ta_get, ta_set.
  destruct (Z.ltb_spec i 0); [lia |].
  apply list_lookup_insert_eq. lia.
Qed.

Lemma ta_set_length {A} (a : list A) (i : Z) (x : A) :
  List.length (ta_set a i x) = List.length a.
Proof. unfold ta_set. destruct (i <? 0); [done | apply length_insert]. Qed.

Lemma u32_get_set_ne (a : list Z) (i j : Z) (v : value) :
  i <> j -> u32_get (u32_set a j v) i = u32_get a i.
Proof. intros Hne. unfold u32_get, u32_set. by rewrite ta_get_set_ne. Qed.

Lemma u32_get_set_eq (a : list Z) (i : Z) (v : value) :
  0 <= i < Z.of_nat (List.length a) -> u32_get (u32_set a i v) i = Num (u32 v).
Proof. intros Hi. unfold u32_get, u32_set. by rewrite ta_get_set_eq. Qed.

Lemma u32_set_length (a : list Z) (i : Z) (v : value) :
  List.length (u32_set a i v) = List.length a.
Proof. apply ta_set_length. Qed.

Lemma extends_refl s : extends s s.
Proof. split; try done; try lia. by exists []. Qed.

Lemma extends_trans s1 s2 s3 : extends s1 s2 -> extends s2 s3 -> extends s1 s3.
Proof.
  intros [] []. split; try lia; try congruence.
  - intros i Hi. rewrite ext_tokens1, ext_tokens0; [done | lia ..].
  - intros i Hi. rewrite ext_floatValues1, ext_floatValues0; [done | lia ..].
  - intros i Hi. rewrite ext_intValues1, ext_intValues0; [done | lia ..].
  - intros Hwm. destruct (ext_stringValues0 Hwm) as (? & Hwm' & Hsv).
    destruct (ext_stringValues1 Hwm') as (? & ? & Hsv').
    split; [lia |]. split; [lia |].
    intros i Hi. rewrite Hsv', Hsv; [done | lia ..].
  - destruct ext_replayed0 as (new1 & Hnew1 & ?), ext_replayed1 as (new2 & Hnew2 & ?).
    exists (new2 ++ new1). split; [| by apply Forall_app].
    by rewrite Hnew2, Hnew1, app_assoc.
Qed.

Lemma fallthrough3_le offset : Z.of_nat (fallthrough3 offset) <= 3.
Proof. unfold fallthrough3. repeat case_match; lia. Qed.

Lemma replay_ok_fallthrough3 tokenType offset :
  replay_ok (tokenType, Z.of_nat (fallthrough3 offset)).
Proof. left. apply fallthrough3_le. Qed.

Lemma trace_one (e : Z * Z) (old : list (Z * Z)) :
  replay_ok e -> exists new, e :: old = new ++ old /\ Forall replay_ok new.
Proof. intros He. exists [e]. split; [done | by constructor]. Qed.

Lemma trace_none (old : list (Z * Z)) :
  exists new, old = new ++ old /\ Forall replay_ok new.
Proof. by exists []. Qed.

(** [extends x (g x)] for a [g] made of field assignments, pushes and
    notes: field by field. *)
Ltac ext_fields :=
  split; cbn;
  [ lia
  | intros; rewrite ?u32_get_set_ne by lia; reflexivity
  | rewrite ?u32_set_length; reflexivity
  | lia
  | intros; rewrite ?ta_get_set_ne by lia; reflexivity
  | rewrite ?ta_set_length; reflexivity
  | lia
  | intros; rewrite ?ta_get_set_ne by lia; reflexivity
  | rewrite ?ta_set_length; reflexivity
  | intros; split; [lia | split; [lia |]];
    intros; rewrite ?u32_get_set_ne by lia; reflexivity
  | rewrite ?u32_set_length; reflexivity
  | first [ apply trace_none
          | apply trace_one; first [ apply replay_ok_fallthrough3 | left; cbn; lia
                                   | right; reflexivity | solve [auto] ] ]
  | reflexivity
  | reflexivity
  | reflexivity
  | reflexivity ].

Ltac ext_pure :=
  match goal with
  | |- extends ?x _ =>
      is_var x; destruct x; cbn;
      repeat match goal with
             | |- context [if ?c then _ else _] => destruct c eqn:?
             end;
      ext_fields
  end.

(** Symbolic execution of a method body [H : body = Some s']: case splits on
    the tests, and a fresh state for each call that returns. *)
Ltac run_body H :=
  first
    [ discriminate H
    | lazymatch type of H with
      | Some _ = Some _ => injection H as H; subst
      | (if ?c then _ else _) = Some _ => destruct c eqn:?; run_body H
      | (match ?x with _ => _ end) = Some _ => destruct x eqn:?; run_body H
      | mbind _ ?m = Some _ =>
          destruct m eqn:?; cbn [mbind option_bind] in H; run_body H
      end
    | idtac ].

(** [extends a b] along the calls made in between: each state variable [v]
    comes with the fact [extends c v] of the call that returned it. *)
Ltac ext_chain :=
  lazymatch goal with
  | |- extends ?a ?a => apply extends_refl
  | |- extends ?a ?b =>
      first
        [ match goal with
          | H : extends ?c ?v |- _ =>
              is_var v;
              lazymatch a with v => fail | _ => idtac end;
              lazymatch b with context [v] => idtac end;
              apply (extends_trans a v b);
              [ apply (extends_trans a c v); [ext_chain | exact H] | clear H; ext_chain ]
          end
        | ext_pure ]
  end.

Section Extends.

Variable lex : CSSParser -> value -> option CSSParser.
Hypothesis lex_ext : forall s cp s', lex s cp = Some s' -> extends s s'.

Lemma fail_ext module hash s terminal s' :
  _fail module hash s = Some (terminal, s') -> extends s s'.
Proof.
  unfold _fail. intros H.
  destruct (previousTokenEnd s); run_body H; ext_chain.
Qed.

Lemma fail_then_ext module hash s s' : fail_then module hash s = Some s' -> extends s s'.
Proof.
  unfold fail_then. intros H.
  destruct (_fail module hash s) as [[terminal s1] |] eqn:H1; [| done].
  injection H as <-. by eapply fail_ext.
Qed.

Lemma commitNumber_ext offset s s' : _commitNumber offset s = Some s' -> extends s s'.
Proof. unfold _commitNumber. intros H. run_body H. ext_chain. Qed.

Lemma refeed_ext s s' : refeed lex s = Some s' -> extends s s'.
Proof. unfold refeed. intros H%lex_ext. ext_chain. Qed.

Lemma refeeds_ext n s s' : refeeds lex n s = Some s' -> extends s s'.
Proof.
  revert s. induction n as [| n IH]; intros s H; cbn in H.
  - injection H as ->. apply extends_refl.
  - destruct (refeed lex s) as [s1 |] eqn:H1; [| done]. cbn in H.
    apply refeed_ext in H1. apply IH in H. by eapply extends_trans.
Qed.

Lemma refeed_1_or_2_ext offset s s' : refeed_1_or_2 lex offset s = Some s' -> extends s s'.
Proof.
  unfold refeed_1_or_2. intros H. run_body H;
    repeat match goal with H : lex _ _ = Some _ |- _ => apply lex_ext in H end; ext_chain.
Qed.

Lemma refeed_while_ext offset s n s' :
  refeed_while lex offset s = Some (n, s') -> extends s s'.
Proof.
  revert s n. induction offset as [| offset IH]; intros s n H; cbn in H.
  - injection H as _ ->. apply extends_refl.
  - destruct (_error s); [injection H as _ ->; apply extends_refl |].
    destruct (refeed lex s) as [s1 |] eqn:H1; [| done]. cbn in H.
    destruct (refeed_while lex offset s1) as [[n1 s2] |] eqn:H2; [| done]. cbn in H.
    injection H as _ ->. apply refeed_ext in H1. apply IH in H2. by eapply extends_trans.
Qed.

(** The facts of the calls found among the hypotheses. *)
Ltac ext_calls :=
  repeat match goal with
         | H : lex _ _ = Some _ |- _ => apply lex_ext in H
         | H : _fail _ _ _ = Some _ |- _ => apply fail_ext in H
         | H : fail_then _ _ _ = Some _ |- _ => apply fail_then_ext in H
         | H : _commitNumber _ _ = Some _ |- _ => apply commitNumber_ext in H
         | H : refeeds lex _ _ = Some _ |- _ => apply refeeds_ext in H
         | H : refeed_1_or_2 lex _ _ = Some _ |- _ => apply refeed_1_or_2_ext in H
         | H : refeed_while lex _ _ = Some _ |- _ => apply refeed_while_ext in H
         end.

Ltac ext_method H := run_body H; ext_calls; ext_chain.

Lemma addDelimTokenWithOffset_ext cp offset s s' :
  _addDelimTokenWithOffset lex cp offset s = Some s' -> extends s s'.
Proof. unfold _addDelimTokenWithOffset. intros H. ext_method H. Qed.

Lemma addDimensionToken_ext offset s s' :
  _addDimensionToken lex offset s = Some s' -> extends s s'.
Proof. unfold _addDimensionToken. intros H. ext_method H. Qed.

Lemma addHashToken_ext offset s s' :
  _addHashToken lex offset s = Some s' -> extends s s'.
Proof. unfold _addHashToken. intros H. ext_method H. Qed.

Lemma addNumberToken_ext offset s s' :
  _addNumberToken lex offset s = Some s' -> extends s s'.
Proof. unfold _addNumberToken. intros H. ext_method H. Qed.

Lemma addStringValueTokenWithOffset_ext tokenType offset s s' :
  offset = 1 \/ offset = 2 \/ tokenType = FUNCTION_TOKEN ->
  _addStringValueTokenWithOffset lex tokenType offset s = Some s' -> extends s s'.
Proof.
  unfold _addStringValueTokenWithOffset. intros Hk H.
  assert (forall n : Z, offset <> 2 -> offset <> 1 -> replay_ok (tokenType, n))
    by (intros; right; cbn; lia).
  run_body H; ext_calls; repeat match goal with H : (_ =? _) = false |- _ =>
    apply Z.eqb_neq in H end.
  all: ext_chain.
Qed.

Lemma addWhitespaceToken_ext cp s s' :
  _addWhitespaceToken lex cp s = Some s' -> extends s s'.
Proof. unfold _addWhitespaceToken. intros H. ext_method H. Qed.

Ltac ext_emitters :=
  repeat match goal with
         | H : _addDelimTokenWithOffset lex _ _ _ = Some _ |- _ =>
             apply addDelimTokenWithOffset_ext in H
         | H : _addDimensionToken lex _ _ = Some _ |- _ => apply addDimensionToken_ext in H
         | H : _addHashToken lex _ _ = Some _ |- _ => apply addHashToken_ext in H
         | H : _addNumberToken lex _ _ = Some _ |- _ => apply addNumberToken_ext in H
         | H : _addStringValueTokenWithOffset lex _ _ _ = Some _ |- _ =>
             apply addStringValueTokenWithOffset_ext in H; [| by auto]
         | H : _addWhitespaceToken lex _ _ = Some _ |- _ => apply addWhitespaceToken_ext in H
         end.

Lemma method_ext l cp s s' : method lex l cp s = Some s' -> extends s s'.
Proof.
  intros H.
  destruct l; cbn [method] in H;
    unfold S_atKeyword, S_atKeywordEscape, S_badURL, S_badURLEscape, S_cdcOrIdent,
      S_comment, S_commentAfterAsterisk, S_delimOrAtKeyword,
      S_delimOrAtKeywordAfterBackslash, S_delimOrAtKeywordAfterHyphen,
      S_delimOrAtKeywordAfterHyphenBackslash, S_delimOrCDO,
      S_delimOrCDOAfterExclamationPoint, S_delimOrCDOAfterExclamationPointHyphen,
      S_delimOrComment, S_delimOrFractionalNumber, S_delimOrHash,
      S_delimOrHashAfterBackslash, S_delimOrIdentAfterHyphenBackslash,
      S_delimOrIdentInitialEscape, S_delimOrNegativeSignedNumberOrCDCOrIdent,
      S_delimOrNegativeSignedNumberFractional, S_delimOrPositiveSignedNumber,
      S_delimOrPositiveSignedNumberFractional, S_escape, S_escapeHex, S_functionOrURL,
      S_hash, S_hashAfterHyphen, S_hashAfterHyphenBackslash, S_hashEscape, S_ident,
      S_identEscape, S_input, S_number, S_numberExponent, S_numberInDecimal,
      S_numberPossibleExponentOrUnit, S_numberPossibleExponentSignedOrUnitPlus,
      S_numberPossibleExponentSignedOrUnitHyphen, S_numberPossibleFraction,
      S_numberPossibleUnitBackslash, S_numberPossibleUnitHyphen,
      S_numberPossibleUnitHyphenBackslash, S_numberUnit, S_numberUnitEscape, S_string,
      S_stringEscape, S_url, S_urlAfterWhitespace, S_urlEscape, S_whitespace,
      fail_or, url_eof, number_default, _escape, _reconsumeCurrentCP in H;
    run_body H; ext_calls; ext_emitters; ext_chain.
Qed.

End Extends.

(** Whatever a call of [_lex] does, it extends the state it was given. *)
Lemma lex_extends fuel s cp s' : lex fuel s cp = Some s' -> extends s s'.
Proof.
  revert s cp s'. induction fuel as [| fuel IH]; intros s cp s' H; [done |].
  by apply (method_ext (lex fuel) IH (_lex s) cp).
Qed.

(** ** Fuel *)

(** A result does not depend on the fuel that was enough to reach it: the
    methods only pass on what [_lex] returns. *)
Section Fuel.

Variables lexA lexB : CSSParser -> value -> option CSSParser.
Hypothesis lexA_lexB : forall s cp s', lexA s cp = Some s' -> lexB s cp = Some s'.

Lemma refeed_fuel s s' : refeed lexA s = Some s' -> refeed lexB s = Some s'.
Proof. apply lexA_lexB. Qed.

Lemma refeeds_fuel n s s' : refeeds lexA n s = Some s' -> refeeds lexB n s = Some s'.
Proof.
  revert s. induction n as [| n IH]; intros s H; [done |]. cbn [refeeds] in *.
  destruct (refeed lexA s) as [s1 |] eqn:H1; [| done].
  rewrite (refeed_fuel _ _ H1). by apply IH.
Qed.

Lemma refeed_while_fuel n s r :
  refeed_while lexA n s = Some r -> refeed_while lexB n s = Some r.
Proof.
  revert s r. induction n as [| n IH]; intros s r H; [done |]. cbn [refeed_while] in *.
  destruct (_error s); [done |].
  destruct (refeed lexA s) as [s1 |] eqn:H1; [| done].
  rewrite (refeed_fuel _ _ H1). cbn [mbind option_bind] in *.
  destruct (refeed_while lexA n s1) as [r1 |] eqn:H2; [| done].
  by rewrite (IH _ _ H2).
Qed.

(** One body run on both sides: the same tests, and for each call of the
    left side the same result on the right. *)
Ltac same_call E :=
  first
    [ apply lexA_lexB in E; rewrite E
    | apply refeeds_fuel in E; rewrite E
    | apply refeed_while_fuel in E; rewrite E
    | idtac ].

Ltac run_both H call tail :=
  lazymatch type of H with
  | (if ?c then _ else _) = Some _ => destruct c eqn:?; run_both H call tail
  | (match ?x with _ => _ end) = Some _ => destruct x eqn:?; run_both H call tail
  | mbind _ ?m = Some _ =>
      let E := fresh "E" in
      destruct m eqn:E; [| discriminate H];
      call E; cbn [mbind option_bind] in H |- *; run_both H call tail
  | None = Some _ => discriminate H
  | Some _ = Some _ => exact H
  | _ => tail H
  end.

Ltac tail_lex H := apply lexA_lexB; exact H.

Lemma refeed_1_or_2_fuel offset s s' :
  refeed_1_or_2 lexA offset s = Some s' -> refeed_1_or_2 lexB offset s = Some s'.
Proof. unfold refeed_1_or_2. intros H. run_both H same_call tail_lex. Qed.

Lemma addDelimTokenWithOffset_fuel cp offset s s' :
  _addDelimTokenWithOffset lexA cp offset s = Some s' ->
  _addDelimTokenWithOffset lexB cp offset s = Some s'.
Proof. unfold _addDelimTokenWithOffset. intros H. run_both H same_call tail_lex. Qed.

Lemma addDimensionToken_fuel offset s s' :
  _addDimensionToken lexA offset s = Some s' -> _addDimensionToken lexB offset s = Some s'.
Proof.
  unfold _addDimensionToken. intros H.
  match type of H with mbind _ ?m = _ => destruct m eqn:E; [| done] end.
  by rewrite (refeed_1_or_2_fuel _ _ _ E).
Qed.

Lemma addHashToken_fuel offset s s' :
  _addHashToken lexA offset s = Some s' -> _addHashToken lexB offset s = Some s'.
Proof.
  unfold _addHashToken. intros H.
  match type of H with mbind _ ?m = _ => destruct m eqn:E; [| done] end.
  by rewrite (refeed_1_or_2_fuel _ _ _ E).
Qed.

Lemma addNumberToken_fuel offset s s' :
  _addNumberToken lexA offset s = Some s' -> _addNumberToken lexB offset s = Some s'.
Proof. unfold _addNumberToken. intros H. run_both H same_call tail_lex. Qed.

Lemma addStringValueTokenWithOffset_fuel tokenType offset s s' :
  _addStringValueTokenWithOffset lexA tokenType offset s = Some s' ->
  _addStringValueTokenWithOffset lexB tokenType offset s = Some s'.
Proof. unfold _addStringValueTokenWithOffset. intros H. run_both H same_call tail_lex. Qed.

Lemma addWhitespaceToken_fuel cp s s' :
  _addWhitespaceToken lexA cp s = Some s' -> _addWhitespaceToken lexB cp s = Some s'.
Proof. unfold _addWhitespaceToken. intros H. run_both H same_call tail_lex. Qed.

Ltac same_method_call E :=
  first
    [ apply lexA_lexB in E; rewrite E
    | apply addStringValueTokenWithOffset_fuel in E; rewrite E
    | idtac ].

Ltac tail_method H :=
  first
    [ apply lexA_lexB; exact H
    | apply addDelimTokenWithOffset_fuel; exact H
    | apply addDimensionToken_fuel; exact H
    | apply addHashToken_fuel; exact H
    | apply addNumberToken_fuel; exact H
    | apply addStringValueTokenWithOffset_fuel; exact H
    | apply addWhitespaceToken_fuel; exact H ].

Lemma method_fuel l cp s s' : method lexA l cp s = Some s' -> method lexB l cp s = Some s'.
Proof.
  intros H.
  destruct l; cbn [method] in *;
    unfold S_atKeyword, S_atKeywordEscape, S_badURL, S_badURLEscape, S_cdcOrIdent,
      S_comment, S_commentAfterAsterisk, S_delimOrAtKeyword,
      S_delimOrAtKeywordAfterBackslash, S_delimOrAtKeywordAfterHyphen,
      S_delimOrAtKeywordAfterHyphenBackslash, S_delimOrCDO,
      S_delimOrCDOAfterExclamationPoint, S_delimOrCDOAfterExclamationPointHyphen,
      S_delimOrComment, S_delimOrFractionalNumber, S_delimOrHash,
      S_delimOrHashAfterBackslash, S_delimOrIdentAfterHyphenBackslash,
      S_delimOrIdentInitialEscape, S_delimOrNegativeSignedNumberOrCDCOrIdent,
      S_delimOrNegativeSignedNumberFractional, S_delimOrPositiveSignedNumber,
      S_delimOrPositiveSignedNumberFractional, S_escape, S_escapeHex, S_functionOrURL,
      S_hash, S_hashAfterHyphen, S_hashAfterHyphenBackslash, S_hashEscape, S_ident,
      S_identEscape, S_input, S_number, S_numberExponent, S_numberInDecimal,
      S_numberPossibleExponentOrUnit, S_numberPossibleExponentSignedOrUnitPlus,
      S_numberPossibleExponentSignedOrUnitHyphen, S_numberPossibleFraction,
      S_numberPossibleUnitBackslash, S_numberPossibleUnitHyphen,
      S_numberPossibleUnitHyphenBackslash, S_numberUnit, S_numberUnitEscape, S_string,
      S_stringEscape, S_url, S_urlAfterWhitespace, S_urlEscape, S_whitespace,
      fail_or, url_eof, number_default, _escape, _reconsumeCurrentCP in *;
    run_both H same_method_call tail_method.
Qed.

End Fuel.

Lemma lex_fuel_S fuel s cp s' : lex fuel s cp = Some s' -> lex (S fuel) s cp = Some s'.
Proof.
  revert s cp s'. induction fuel as [| fuel IH]; intros s cp s' H; [done |].
  cbn [lex] in *. by apply (method_fuel (lex fuel) (lex (S fuel)) IH).
Qed.

Lemma lex_fuel_le fuel fuel' s cp s' :
  (fuel <= fuel')%nat -> lex fuel s cp = Some s' -> lex fuel' s cp = Some s'.
Proof. induction 1 as [| fuel' _ IH]; [done |]. intros Hlex. by apply lex_fuel_S, IH. Qed.

Lemma write_loop_fuel_le fuel fuel' cps s s' :
  (fuel <= fuel')%nat ->
  write_loop fuel cps s = Some s' -> write_loop fuel' cps s = Some s'.
Proof.
  intros Hle. revert s. induction cps as [| cp cps IH]; intros s H; [done |].
  cbn [write_loop] in *. destruct (_lastCPWasCR s && (cp =? 10)); [by apply IH |].
  set (cp' := if cp =? 0 then _ else _) in *.
  match type of H with mbind _ ?m = _ => destruct m as [s1 |] eqn:H1; [| done] end.
  rewrite (lex_fuel_le _ _ _ _ _ Hle H1). cbn [mbind option_bind] in *.
  destruct (_error s1); [done |]. destruct ((cp' =? 10) || _ || _); by apply IH.
Qed.

Lemma write_chunks_fuel_le fuel fuel' chunks s s' :
  (fuel <= fuel')%nat ->
  write_chunks fuel chunks s = Some s' -> write_chunks fuel' chunks s = Some s'.
Proof.
  intros Hle. revert s. induction chunks as [| cps chunks IH]; intros s H; [done |].
  cbn [write_chunks] in *. unfold _write in *.
  destruct (if _ <? _ then _ else _) as [s0 |]; [| done]. cbn [mbind option_bind] in *.
  destruct (write_loop fuel cps s0) as [s1 |] eqn:H1; [| done].
  rewrite (write_loop_fuel_le _ _ _ _ _ Hle H1). cbn [mbind option_bind] in *.
  destruct (_error s1); [done | by apply IH].
Qed.

(** A tokenization that returns with some fuel returns the same with more. *)
Lemma tokenize_fuel_le fuel fuel' recover size chunks s :
  (fuel <= fuel')%nat ->
  tokenize fuel recover size chunks = Some s ->
  tokenize fuel' recover size chunks = Some s.
Proof.
  intros Hle. unfold tokenize. destruct (constructor recover size) as [s0 |]; [| done].
  cbn [mbind option_bind]. intros H.
  destruct (write_chunks fuel chunks s0) as [s1 |] eqn:H1; [| done].
  rewrite (write_chunks_fuel_le _ _ _ _ _ Hle H1). cbn [mbind option_bind] in *.
  unfold _finish in *. destruct (_error s1); [done |].
  match type of H with mbind _ ?m = _ => destruct m as [s2 |] eqn:H2; [| done] end.
  by rewrite (lex_fuel_le _ _ _ _ _ Hle H2).
Qed.

(** ** Hex escapes *)

Lemma isHex_cases d :
  isHex (Num d) = true ->
  d ∈ [0x30; 0x31; 0x32; 0x33; 0x34; 0x35; 0x36; 0x37; 0x38; 0x39; 0x41; 0x42;
       0x43; 0x44; 0x45; 0x46; 0x61; 0x62; 0x63; 0x64; 0x65; 0x66].
Proof.
  unfold isHex, case_of. rewrite existsb_exists.
  intros (x & Hx & Heq). simpl in Heq. apply Z.eqb_eq in Heq. subst x.
  by apply list_elem_of_In.
Qed.

Lemma toHexValue_digit d : isHex (Num d) = true -> toHexValue (Num d) = hexDigitValue d.
Proof.
  intros H%isHex_cases.
  repeat (apply elem_of_cons in H as [-> | H]; [reflexivity |]).
  by apply elem_of_nil in H.
Qed.

Lemma hexDigitValue_range d : isHex (Num d) = true -> 0 <= hexDigitValue d < 16.
Proof.
  intros H%isHex_cases.
  repeat (apply elem_of_cons in H as [-> | H]; [by vm_compute |]).
  by apply elem_of_nil in H.
Qed.

Lemma normalizeEscapeCP_decoded n : normalizeEscapeCP n = decoded n.
Proof.
  unfold normalizeEscapeCP, decoded.
  repeat match goal with
         | |- context [?a =? ?b] => destruct (Z.eqb_spec a b)
         | |- context [?a <? ?b] => destruct (Z.ltb_spec a b)
         | |- context [?a <=? ?b] => destruct (Z.leb_spec a b)
         end; simpl; lia.
Qed.

Lemma hexNumber_snoc ds d : hexNumber (ds ++ [d]) = 16 * hexNumber ds + hexDigitValue d.
Proof. unfold hexNumber. by rewrite fold_left_app. Qed.

Lemma hexNumber_range ds :
  Forall (fun d => isHex (Num d) = true) ds ->
  0 <= hexNumber ds < 16 ^ Z.of_nat (List.length ds).
Proof.
  induction ds as [| d ds IH] using rev_ind; [by vm_compute |].
  intros [Hds Hd%Forall_inv%hexDigitValue_range]%Forall_app.
  rewrite hexNumber_snoc, length_app, Nat2Z.inj_add, Z.pow_add_r by lia.
  specialize (IH Hds). change (16 ^ Z.of_nat (List.length [d])) with 16. nia.
Qed.

Lemma shift_escapeCP v : 0 <= v < 16 ^ 5 -> ToInt32 (Z.shiftl v 4) = 16 * v.
Proof.
  intros Hv. rewrite Z.shiftl_mul_pow2 by lia. unfold ToInt32.
  rewrite Z.mod_small; lia.
Qed.

Lemma escape_first_digit fuel s d :
  _lex s = L_escape -> isHex (Num d) = true ->
  lex (S fuel) s (Num d) = Some (in_hex_escape 1 (hexDigitValue d) s).
Proof.
  intros Hlex Hd. simpl. rewrite Hlex. simpl. unfold S_escape. rewrite Hd.
  by rewrite toHexValue_digit.
Qed.

Lemma escapeHex_next_digit fuel s k v d :
  isHex (Num d) = true -> 0 <= v < 16 ^ 5 ->
  lex (S fuel) (in_hex_escape k v s) (Num d) =
    Some (if k + 1 =? 6 then after_hex_escape (k + 1) (16 * v + hexDigitValue d) s
          else in_hex_escape (k + 1) (16 * v + hexDigitValue d) s).
Proof.
  intros Hd Hv. destruct s. cbn -[Z.shiftl ToInt32 Z.add]. unfold S_escapeHex. rewrite Hd.
  cbn -[Z.shiftl ToInt32 Z.add Z.mul]. rewrite shift_escapeCP, toHexValue_digit by done.
  unfold _finishHexEscape, after_hex_escape, in_hex_escape.
  rewrite normalizeEscapeCP_decoded.
  by destruct (k + 1 =? 6).
Qed.

Lemma escapeHex_terminator fuel s k v t :
  isHex t = false ->
  lex (S fuel) (in_hex_escape k v s) t =
    if case_of t [0x09; 0x0A; 0x20] then Some (after_hex_escape k v s)
    else lex fuel (after_hex_escape k v s) t.
Proof.
  intros Ht. destruct s. cbn -[case_of]. unfold S_escapeHex. rewrite Ht.
  unfold _finishHexEscape. cbn -[case_of]. by rewrite normalizeEscapeCP_decoded.
Qed.

(** After a first digit, the digits [ds] of an escape that stays below six
    digits are accumulated. *)
Lemma escapeHex_digits fuel s ds k v :
  Forall (fun d => isHex (Num d) = true) ds ->
  1 <= k -> k + Z.of_nat (List.length ds) < 6 -> 0 <= v < 16 ^ k ->
  feed (S fuel) (in_hex_escape k v s) (map Num ds) =
    Some (in_hex_escape (k + Z.of_nat (List.length ds))
            (fold_left (fun acc d => 16 * acc + hexDigitValue d) ds v) s).
Proof.
  revert k v. induction ds as [| d ds IH]; intros k v Hds Hk Hlen Hv.
  - simpl. by rewrite Z.add_0_r.
  - apply Forall_cons in Hds as [Hd Hds].
    cbn [map feed List.length] in *.
    assert (16 ^ k <= 16 ^ 4) by (apply Z.pow_le_mono_r; lia).
    rewrite escapeHex_next_digit by (done || lia).
    destruct (Z.eqb_spec (k + 1) 6) as [? | _]; [lia |].
    cbn [mbind option_bind].
    pose proof (hexDigitValue_range d Hd).
    rewrite IH; [| done | lia | lia |].
    + do 2 f_equal; lia.
    + rewrite Z.pow_add_r by lia. change (16 ^ 1) with 16. lia.
Qed.

Lemma feed_app fuel s cps1 cps2 :
  feed fuel s (cps1 ++ cps2) = s' ← feed fuel s cps1; feed fuel s' cps2.
Proof.
  revert s. induction cps1 as [| cp cps1 IH]; intros s; [done |].
  simpl. destruct (lex fuel s cp); [apply IH | done].
Qed.

(** X23. A hex escape of one to six hex digits appends to the string value
    the code point whose number the digits spell in hexadecimal, or U+FFFD
    when that number is 0, above 0x10FFFF or a surrogate. After the sixth
    digit the escape is over and the state that began it is current again.
    With fewer digits it ends at the first code point that is no hex digit:
    a tab, line feed or space is consumed as the terminator, any other code
    point is handed to the state that began the escape. *)
Theorem hex_escape_decoded fuel s ds :
  _lex s = L_escape ->
  Forall (fun d => isHex (Num d) = true) ds ->
  (1 <= List.length ds <= 6)%nat ->
  let n := hexNumber ds in
  let done := after_hex_escape (Z.of_nat (List.length ds)) n s in
  _stringValues done = u32_set (_stringValues s) (_stringValuesLength s) (Num (decoded n)) /\
  _stringValuesLength done = _stringValuesLength s + 1 /\
  _lex done = _lexAfterEscape s /\
  (List.length ds = 6%nat -> feed (S fuel) s (map Num ds) = Some done) /\
  (forall t, (List.length ds < 6)%nat -> isHex t = false ->
     feed (S fuel) s (map Num ds ++ [t]) =
       if case_of t [0x09; 0x0A; 0x20] then Some done else lex fuel done t).
Proof.
  intros Hlex Hds Hlen n done.
  split; [by destruct s |]. split; [by destruct s |]. split; [by destruct s |].
  destruct ds as [| d ds]; [simpl in Hlen; lia |].
  apply Forall_cons in Hds as [Hd Hds].
  pose proof (hexDigitValue_range d Hd) as Hd'.
  assert (Hn : n = fold_left (fun acc d => 16 * acc + hexDigitValue d) ds (hexDigitValue d))
    by done.
  split.
  - (* six digits: the last one ends the escape *)
    intros Hsix.
    destruct ds as [| d6 ds _] using rev_ind; [done |].
    rewrite length_cons, length_app in Hsix. simpl in Hsix.
    apply Forall_app in Hds as [Hds Hd6%Forall_inv].
    cbn [map feed]. rewrite escape_first_digit by done. cbn [mbind option_bind].
    rewrite map_app, feed_app, escapeHex_digits; [| done | lia | lia | change (16 ^ 1) with 16; lia].
    cbn [mbind option_bind map feed].
    pose proof (hexNumber_range (d :: ds) (Forall_cons_2 _ _ _ Hd Hds)) as Hr.
    unfold hexNumber in Hr. cbn [fold_left] in Hr.
    change (16 * 0 + hexDigitValue d) with (hexDigitValue d) in Hr.
    replace (List.length (d :: ds)) with 5%nat in Hr by (simpl; lia).
    rewrite escapeHex_next_digit by (done || lia).
    replace (1 + Z.of_nat (List.length ds) + 1) with 6 by lia. simpl (6 =? 6).
    cbn [mbind option_bind]. f_equal. unfold done.
    rewrite length_cons, length_app. simpl (List.length [d6]).
    replace (Z.of_nat (S (List.length ds + 1))) with 6 by lia.
    rewrite Hn, fold_left_app. done.
  - (* fewer digits: the first code point that is no hex digit ends it *)
    intros t Hfew Ht. simpl in Hfew.
    cbn [map app feed]. rewrite escape_first_digit by done. cbn [mbind option_bind].
    rewrite feed_app, escapeHex_digits; [| done | lia | lia | change (16 ^ 1) with 16; lia].
    cbn [mbind option_bind feed]. rewrite escapeHex_terminator by done.
    unfold done. rewrite <- Hn.
    replace (Z.of_nat (List.length (d :: ds))) with (1 + Z.of_nat (List.length ds))
      by (simpl; lia).
    match goal with |- ?x ≫= _ = _ => by destruct x end.
Qed.

(** C4, at the input where the code departs from it. A white space after
    the digits of a hex escape belongs to the escape, and after one to five
    digits [$escapeHex] consumes it: [\41 B] is the identifier [AB]. The
    sixth digit ends the escape on the spot, without a look at what follows:
    after [\000041] the space is not consumed, it ends the identifier [A]
    and makes a WHITESPACE token of its own. *)
Lemma space_after_six_digits_is_no_terminator :
  (fun s => (token_kinds s, _getStringValueOfNonHashToken 0 s)) <$>
    tokenize 4 true DEFAULT_SIZE [0x5C :: codepoints "000041 B;"] =
  Some ([Num IDENT_TOKEN; Num WHITESPACE_TOKEN; Num IDENT_TOKEN; Num SEMICOLON_TOKEN],
        codepoints "A") /\
  (fun s => (token_kinds s, _getStringValueOfNonHashToken 0 s)) <$>
    tokenize 4 true DEFAULT_SIZE [0x5C :: codepoints "41 B;"] =
  Some ([Num IDENT_TOKEN; Num SEMICOLON_TOKEN], codepoints "AB").
Proof. split; vm_compute; reflexivity. Qed.

(** ** Recording a parse error *)

Lemma subarray_within {A} (P : A -> Prop) (a : list A) (b e n : Z) :
  0 <= b -> 0 <= e <= n ->
  Forall P (take (Z.to_nat n) a) -> Forall P (subarray a b e).
Proof.
  intros Hb He Hall. unfold subarray, rel_index.
  destruct (Z.ltb_spec b 0) as [? | _]; [lia |].
  set (len := Z.of_nat (List.length a)).
  set (e' := if e <? 0 then Z.max (len + e) 0 else Z.min e len).
  assert (He' : e' <= n) by (unfold e'; destruct (Z.ltb_spec e 0); lia).
  rewrite Forall_forall in Hall. apply Forall_forall. intros x Hx.
  apply list_elem_of_lookup in Hx as [i Hi].
  apply lookup_take_Some in Hi as [Hi Hlt].
  rewrite lookup_drop in Hi.
  apply Hall, list_elem_of_lookup. exists (Z.to_nat (Z.min b len) + i)%nat.
  apply lookup_take_Some. split; [done | lia].
Qed.

(** C10. In recover mode [_fail] returns false and appends one [Error] to
    the error list; no other field of the parser changes (buffers, lengths,
    tokens, lexical state, line and column are as before the call). The call
    returns whenever its message can be built: the code points written so
    far are code points, and the token in progress starts within the
    source. *)
Theorem fail_recover_frame module hash s :
  _recover s = true ->
  (0 <= _positionsLength s ->
   Forall (fun cp => cp <= 0x10FFFF) (take (Z.to_nat (_positionsLength s / 2)) (_source s)) ->
   (forall b, previousTokenEnd s = Num b -> 0 <= b <= _sourceLength s) ->
   is_Some (_fail module hash s)) /\
  (forall terminal s', _fail module hash s = Some (terminal, s') ->
     terminal = false /\
     (exists err, _errors s' = _errors s ++ [err]) /\
     unchanged_but_errors s s').
Proof.
  intros Hrec. split.
  - intros Hpos Hsrc Hstart. unfold _fail. rewrite Hrec.
    destruct (previousTokenEnd s) as [b |] eqn:Hb; [| cbn; by eexists].
    destruct (Hstart b eq_refl) as [Hb0 Hbs].
    match goal with
    | |- context [existsb ?f ?l] => assert (Hex : existsb f l = false)
    end.
    { apply not_true_is_false. rewrite existsb_exists. intros (cp & Hin & Hcp).
      assert (Hok : Forall (fun cp => cp <= 0x10FFFF)
                (subarray (_source s) (Z.max (b - 15) 0)
                   (Z.min (Z.max (b - 15) 0 + 45) (_positionsLength s / 2)))).
      { assert (0 <= _positionsLength s / 2) by (apply Z.div_pos; lia).
        apply (subarray_within _ _ _ _ (_positionsLength s / 2)); [lia | lia | done]. }
      rewrite Forall_forall in Hok. apply list_elem_of_In, Hok in Hin. lia. }
    rewrite Hex. destruct (Z.ltb_spec (_sourceLength s - b) 0); [lia |]. cbn [orb]. by eexists.
  - intros terminal s'. unfold _fail. rewrite Hrec.
    destruct (previousTokenEnd s) as [b |];
      match goal with |- context [if ?c then None else _] => destruct c end;
      try discriminate; intros [= <- <-]; destruct s;
      (split; [done |]); (split; [by eexists |]); by repeat split.
Qed.

(** ** The url( disambiguation *)

(** [_isStringValueURL] compares [r], not [l], with a small L in its last
    clause: the pending string value passes for [url] only when its third
    code point is a capital L. *)
Lemma isStringValueURL_true s :
  _isStringValueURL s = true <->
  _stringValuesLength s - _stringValuesStart s = 3 /\
  (exists u, u32_get (_stringValues s) (_stringValuesStart s) = Num u /\ (u = 0x75 \/ u = 0x55)) /\
  (exists r, u32_get (_stringValues s) (_stringValuesStart s + 1) = Num r /\ (r = 0x72 \/ r = 0x52)) /\
  u32_get (_stringValues s) (_stringValuesStart s + 2) = Num 0x4C.
Proof.
  unfold _isStringValueURL.
  destruct (Z.eqb_spec (_stringValuesLength s - _stringValuesStart s) 3) as [Hlen | Hlen];
    cbn [negb]; [| split; [done | tauto]].
  destruct (u32_get _ (_stringValuesStart s)) as [u |],
           (u32_get _ (_stringValuesStart s + 1)) as [r |],
           (u32_get _ (_stringValuesStart s + 2)) as [l |]; cbn [eqv orb andb];
    rewrite ?andb_false_r; cbn [orb andb];
    try (split; [done | by intros (_ & (? & ? & ?) & (? & ? & ?) & ?)]).
  all: rewrite ?orb_false_r, !andb_true_iff, !orb_true_iff, !Z.eqb_eq; split.
  all: try (intros [[[-> | ->] [-> | ->]] [[=] | ->]]; eauto 10).
  all: try (intros [[[-> | ->] [-> | ->]] [=]]).
  all: try (intros (_ & (? & [= <-] & ?) & (? & [= <-] & ?) & [= ->]); tauto).
  all: by intros (_ & _ & _ & ?).
Qed.

(** C1. The input [url( foo )], tokenized with the default options, gives a
    FUNCTION token of string value [url], a WHITESPACE token, an IDENT token
    of string value [foo], a WHITESPACE token and a RIGHT_PARENTHESIS token;
    there is no URL token. *)
Theorem url_foo_gives_no_url_token :
  (fun s => (token_kinds s,
             _getStringValueOfNonHashToken 0 s,
             _getStringValueOfNonHashToken 8 s)) <$>
    tokenize 4 true DEFAULT_SIZE [codepoints "url( foo )"] =
  Some ([Num FUNCTION_TOKEN; Num WHITESPACE_TOKEN; Num IDENT_TOKEN;
         Num WHITESPACE_TOKEN; Num RIGHT_PARENTHESIS_TOKEN],
        codepoints "url", codepoints "foo").
Proof. vm_compute. reflexivity. Qed.

(** With a capital L the same input does give the URL token. *)
Lemma urL_foo_gives_url_token :
  (fun s => (token_kinds s, _getStringValueOfNonHashToken 0 s)) <$>
    tokenize 4 true DEFAULT_SIZE [codepoints "urL( foo )"] =
  Some ([Num URL_TOKEN], codepoints "foo").
Proof. vm_compute. reflexivity. Qed.

(** ** Stream preprocessing *)

(** C2. A carriage return followed by a line feed puts two U+000A into the
    normalized source, in one chunk and in two: [_lastCPWasCR] is computed
    from the code point after its replacement by U+000A, so it is never
    set and the line feed is never dropped. *)
Theorem cr_lf_gives_two_line_feeds :
  (fun s => (take 2 (_source s), _sourceLength s, _lastCPWasCR s)) <$>
    (constructor true DEFAULT_SIZE ≫= write_chunks 4 [[0x0D; 0x0A]]) =
  Some ([0x0A; 0x0A], 2, false) /\
  (fun s => (take 2 (_source s), _sourceLength s, _lastCPWasCR s)) <$>
    (constructor true DEFAULT_SIZE ≫= write_chunks 4 [[0x0D]; [0x0A]]) =
  Some ([0x0A; 0x0A], 2, false).
Proof. split; vm_compute; reflexivity. Qed.

(** No code point of a chunk is dropped: [_lastCPWasCR] stays unset, and as
    long as no error stops the chunk each code point gets its position. *)
Lemma write_loop_drops_nothing fuel cps s s' :
  write_loop fuel cps s = Some s' ->
  _lastCPWasCR s = false ->
  _lastCPWasCR s' = false /\
  (_error s' = None ->
   _positionsLength s' = _positionsLength s + 2 * Z.of_nat (List.length cps)).
Proof.
  revert s. induction cps as [| cp cps IH]; intros s H Hcr; cbn [write_loop] in H.
  - injection H as <-. split; [done | simpl; lia].
  - rewrite Hcr in H. cbn [andb] in H.
    set (cp' := if cp =? 0 then _ else _) in *.
    assert (Hcp' : (cp' =? 13) = false).
    { unfold cp'. destruct (Z.eqb_spec cp 0); [done |].
      destruct ((cp =? 12) || (cp =? 13)) eqn:E; [done |].
      apply orb_false_elim in E as [_ E]. exact E. }
    rewrite Hcp' in H.
    match type of H with mbind _ ?m = _ => destruct m as [s1 |] eqn:H1; [| done] end.
    cbn [mbind option_bind] in H. apply lex_extends in H1 as [].
    assert (Hcr1 : _lastCPWasCR s1 = false) by (rewrite ext_lastCPWasCR0; by destruct s).
    assert (Hpos1 : _positionsLength s1 = _positionsLength s + 2)
      by (rewrite ext_positionsLength0; destruct s; cbn; lia).
    destruct (_error s1) eqn:Herr.
    + injection H as <-. split; [done |]. by rewrite Herr.
    + assert (Hnext : forall s2, _lastCPWasCR s2 = false ->
                _positionsLength s2 = _positionsLength s + 2 ->
                write_loop fuel cps s2 = Some s' ->
                _lastCPWasCR s' = false /\
                (_error s' = None ->
                 _positionsLength s' =
                   _positionsLength s + 2 * Z.of_nat (List.length (cp :: cps)))).
      { intros s2 Hcr2 Hpos2 H2. destruct (IH _ H2 Hcr2) as [? Hlen].
        split; [done |]. intros Hok. rewrite (Hlen Hok), Hpos2. simpl List.length. lia. }
      destruct ((cp' =? 10) || _ || _); (apply Hnext in H; [done | by destruct s1 ..]).
Qed.

(** ** Strict mode *)

(** C3. In strict mode, the input [urL(] followed by U+0001: before U+0001
    there is neither an error nor a token; the call of [$url] for U+0001
    sets the error and then appends a URL token. *)
Theorem strict_url_error_still_emits :
  (fun s => (err_hash <$> _error s, token_kinds s)) <$>
    (constructor false DEFAULT_SIZE ≫= write_chunks 4 [codepoints "urL("]) =
  Some (None, []) /\
  (fun s => (err_hash <$> _error s, token_kinds s)) <$>
    (constructor false DEFAULT_SIZE ≫= write_chunks 4 [codepoints "urL(" ++ [0x01]]) =
  Some (Some "consume-url-token"%string, [Num URL_TOKEN]).
Proof. split; vm_compute; reflexivity. Qed.

(** A code point matched by one of the labels of [Hcp] is matched by none
    of the labels of the goal. *)
Ltac other_label Hcp :=
  unfold case_of in *;
  let n := fresh "n" in
  let Hn := fresh "Hn" in
  apply existsb_exists in Hcp as (n & Hn & ->%eqv_true);
  cbn in Hn; repeat (destruct Hn as [<- | Hn]; [reflexivity |]); destruct Hn.

(** The same in general: in strict mode, whenever [$url] returns from a
    non-printable code point, the error is set and a token has been
    appended, the state being [$input] again. *)
Lemma url_nonprintable_appends_token cp s s' :
  case_of cp
    [0x00; 0x01; 0x02; 0x03; 0x04; 0x05; 0x06; 0x07; 0x08; 0x0B; 0x0E; 0x0F; 0x10;
     0x11; 0x12; 0x13; 0x14; 0x15; 0x16; 0x17; 0x18; 0x19; 0x1A; 0x1B; 0x1C; 0x1D;
     0x1E; 0x1F; 0x7F] = true ->
  _recover s = false ->
  S_url cp s = Some s' ->
  is_Some (_error s') /\ _tokensLength s' = _tokensLength s + 4 /\ _lex s' = L_input.
Proof.
  intros Hcp Hrec H.
  assert (Hfail : forall s1 s2, _recover s1 = false ->
            fail_then "css-syntax-3" "consume-url-token" s1 = Some s2 ->
            exists err, s2 = s1 |> set_error (Some err)).
  { intros s1 s2 Hrec1. unfold fail_then. intros H1.
    destruct (_fail _ _ s1) as [[terminal s3] |] eqn:H3; [| done].
    injection H1 as <-. unfold _fail in H3. rewrite Hrec1 in H3.
    destruct (previousTokenEnd s1); run_body H3; by eexists. }
  unfold S_url in H. rewrite Hcp in H.
  replace (case_of cp [0x09; 0x0A; 0x20]) with false in H by other_label Hcp.
  replace (case_of cp [0x22; 0x27; 0x28]) with false in H by other_label Hcp.
  replace (cp === 0x29) with false in H by other_label Hcp.
  replace (cp === 0x5C) with false in H by other_label Hcp.
  unfold url_eof in H.
  destruct (fail_then _ _ s) as [s1 |] eqn:H1; [| done]. cbn [mbind option_bind] in H.
  apply Hfail in H1 as [err1 ->]; [| done].
  match type of H with mbind _ ?m = _ => destruct m as [s2 |] eqn:H2; [| done] end.
  cbn [mbind option_bind] in H. injection H as <-.
  apply Hfail in H2 as [err2 ->]; [| by destruct s].
  destruct s; cbn. split; [by eexists | split; [lia | done]].
Qed.

(** ** Token ends *)

(** C6. For the input [a{b:c;}-] followed by a tab, the tokens end at 1, 2,
    3, 4, 5, 6, 7 and then 0: the state after [-] passes the code point (9
    for the tab) where the number of code points to give back is expected. *)
Theorem delim_hyphen_end_goes_back :
  (fun s => (token_kinds s, token_ends s)) <$>
    tokenize 4 true DEFAULT_SIZE [codepoints "a{b:c;}-" ++ [0x09]] =
  Some ([Num IDENT_TOKEN; Num LEFT_BRACE_TOKEN; Num IDENT_TOKEN; Num COLON_TOKEN;
         Num IDENT_TOKEN; Num SEMICOLON_TOKEN; Num RIGHT_BRACE_TOKEN; Num DELIM_TOKEN],
        [Num 1; Num 2; Num 3; Num 4; Num 5; Num 6; Num 7; Num 0]).
Proof. vm_compute. reflexivity. Qed.

(** ** Chunks *)

(** C9. A parser of size 2 fed [abc<] as one chunk records an IDENT and a
    DELIM token; fed [ab] and then [c<] it records a second DELIM token
    after them. When two chunks fill the grown source buffer to the last
    element, [_finish] stores the end-of-input sentinel outside the buffer,
    and what is re-fed from there is [undefined]. *)
Theorem chunks_change_the_tokens :
  (fun s => (token_kinds s, token_ends s)) <$> tokenize 4 true 2 [codepoints "abc<"] =
  Some ([Num IDENT_TOKEN; Num DELIM_TOKEN], [Num 3; Num 4]) /\
  (fun s => (token_kinds s, token_ends s)) <$>
    tokenize 4 true 2 [codepoints "ab"; codepoints "c<"] =
  Some ([Num IDENT_TOKEN; Num DELIM_TOKEN; Num DELIM_TOKEN], [Num 3; Num 4; Num 5]).
Proof. split; vm_compute; reflexivity. Qed.

(** The loop over the code points does not depend on where a chunk ends;
    what does is the growth of the buffers at the start of each [_write]. *)
Lemma write_loop_app fuel cps1 cps2 s :
  _error s = None ->
  write_loop fuel (cps1 ++ cps2) s =
    s' ← write_loop fuel cps1 s;
    match _error s' with
    | Some _ => Some s'
    | None => write_loop fuel cps2 s'
    end.
Proof.
  revert s. induction cps1 as [| cp cps1 IH]; intros s Herr.
  - cbn [app write_loop mbind option_bind]. by rewrite Herr.
  - cbn [app write_loop]. destruct (_lastCPWasCR s && (cp =? 10)).
    + apply IH. by destruct s.
    + set (cp' := if cp =? 0 then _ else _).
      match goal with |- mbind _ ?m = _ => destruct m as [s1 |]; [| done] end.
      cbn [mbind option_bind]. destruct (_error s1) eqn:Herr1.
      * cbn [mbind option_bind]. by rewrite Herr1.
      * destruct ((cp' =? 10) || _ || _); apply IH; by destruct s1.
Qed.

(** The entry point [fromCPs] sizes the buffers by the input, so that the
    sentinel never fits: for the input [<] two tokens are counted, the DELIM
    and the one made from the [undefined] that is read back. *)
Lemma fromCPs_counts_a_token_for_undefined :
  (fun s => (_tokensLength s, List.length (_source s), token_kinds s)) <$>
    fromCPs 4 true (codepoints "<") =
  Some (8, 1%nat, [Num DELIM_TOKEN; Undefined]).
Proof. vm_compute. reflexivity. Qed.

(** ** Re-fed code points *)

Lemma lex_replayed fuel s cp s' :
  lex fuel s cp = Some s' -> Forall replay_ok (replayed s) -> Forall replay_ok (replayed s').
Proof.
  intros [new [-> Hnew]]%lex_extends%ext_replayed Hold. by apply Forall_app.
Qed.

Lemma write_loop_replayed fuel cps s s' :
  write_loop fuel cps s = Some s' ->
  Forall replay_ok (replayed s) -> Forall replay_ok (replayed s').
Proof.
  revert s. induction cps as [| cp cps IH]; intros s H Hs; cbn [write_loop] in H.
  - by injection H as <-.
  - destruct (_lastCPWasCR s && (cp =? 10)).
    + apply IH in H; [done |]. by destruct s.
    + match type of H with mbind _ ?m = _ => destruct m as [s1 |] eqn:H1; [| done] end.
      cbn [mbind option_bind] in H.
      apply lex_replayed in H1; [| by destruct s].
      destruct (_error s1); [by injection H as <- |].
      destruct (_ || _); (apply IH in H; [done |]); by destruct s1.
Qed.

Lemma expandBuffers_replayed min s s' : _expandBuffers min s = Some s' -> replayed s' = replayed s.
Proof.
  unfold _expandBuffers. intros H.
  repeat match type of H with
         | mbind _ ?m = _ => destruct m; [cbn [mbind option_bind] in H | done]
         end.
  injection H as <-. by destruct s.
Qed.

Lemma write_replayed fuel cps s s' :
  _write fuel cps s = Some s' ->
  Forall replay_ok (replayed s) -> Forall replay_ok (replayed s').
Proof.
  unfold _write. intros H Hs.
  match type of H with mbind _ ?m = _ => destruct m as [s1 |] eqn:H1; [| done] end.
  cbn [mbind option_bind] in H. apply (write_loop_replayed _ _ _ _ H).
  destruct (_ <? _); [| by injection H1 as <-].
  by rewrite (expandBuffers_replayed _ _ _ H1).
Qed.

Lemma write_chunks_replayed fuel chunks s s' :
  write_chunks fuel chunks s = Some s' ->
  Forall replay_ok (replayed s) -> Forall replay_ok (replayed s').
Proof.
  revert s. induction chunks as [| cps chunks IH]; intros s H Hs; cbn [write_chunks] in H.
  - by injection H as <-.
  - destruct (_write fuel cps s) as [s1 |] eqn:H1; [| done]. cbn [mbind option_bind] in H.
    apply write_replayed in H1; [| done].
    destruct (_error s1); [by injection H as <- | by apply IH in H].
Qed.

Lemma finish_replayed fuel s s' :
  _finish fuel s = Some s' ->
  Forall replay_ok (replayed s) -> Forall replay_ok (replayed s').
Proof.
  unfold _finish. intros H Hs. destruct (_error s); [by injection H as <- |].
  match type of H with mbind _ ?m = _ => destruct m as [s1 |] eqn:H1; [| done] end.
  cbn [mbind option_bind] in H. injection H as <-.
  apply lex_replayed in H1; [| by destruct s]. by destruct s1.
Qed.

(** C8, as the code has it. In every tokenization, a token emission re-feeds
    at most 3 stored code points, except the emission of a FUNCTION token:
    the state after [url(] that meets a quote emits it and re-feeds all the
    whitespace it had skipped and the quote, however many code points that
    makes. *)
Theorem replays_at_most_three_but_function fuel recover size chunks s :
  tokenize fuel recover size chunks = Some s ->
  Forall (fun e => e.2 <= 3 \/ e.1 = FUNCTION_TOKEN) (replayed s).
Proof.
  unfold tokenize, constructor. intros H.
  destruct (_ || _); [done |]. cbn [mbind option_bind] in H.
  match type of H with mbind _ ?m = _ => destruct m as [s1 |] eqn:H1; [| done] end.
  cbn [mbind option_bind] in H.
  apply finish_replayed in H; [done |].
  apply write_chunks_replayed in H1; [done |]. constructor.
Qed.

(** C8, as the specification words it, fails: for [urL(   'x')] the FUNCTION token is
    emitted at the quote and four code points are re-fed, the three spaces
    and the quote; not every emission re-feeds at most 3. *)
Lemma function_token_replays_four :
  (fun s => (token_kinds s, replayed s, forallb (fun e => e.2 <=? 3) (replayed s))) <$>
    tokenize 6 true DEFAULT_SIZE [codepoints "urL(   'x')"] =
  Some ([Num FUNCTION_TOKEN; Num WHITESPACE_TOKEN; Num BAD_URL_TOKEN],
        [(FUNCTION_TOKEN, 4); (WHITESPACE_TOKEN, 1)], false).
Proof. vm_compute. reflexivity. Qed.

(** ** Numeric values *)

Lemma ToUint32_small n : 0 <= n < 2 ^ 32 -> ToUint32 n = n.
Proof. apply Z.mod_small. Qed.

Lemma u32_get_set_at (a : list Z) (i j : Z) (v : value) :
  i = j -> 0 <= j < Z.of_nat (List.length a) -> u32_get (u32_set a j v) i = Num (u32 v).
Proof. intros -> ?. by apply u32_get_set_eq. Qed.

Lemma ta_get_set_at {A} (a : list A) (i j : Z) (x : A) :
  i = j -> 0 <= j < Z.of_nat (List.length a) -> ta_get (ta_set a j x) i = Some x.
Proof. intros -> ?. by apply ta_get_set_eq. Qed.

(** Reading back what a sequence of stores left at an index. *)
Ltac read_back :=
  repeat first
    [ rewrite u32_get_set_ne by lia
    | rewrite u32_get_set_at by (rewrite ?u32_set_length; lia)
    | rewrite ta_get_set_ne by lia
    | rewrite ta_get_set_at by (rewrite ?ta_set_length; lia) ];
  unfold u32;
  rewrite ?ToUint32_small by
    (unfold NUMBER_TOKEN, PERCENTAGE_TOKEN, DIMENSION_TOKEN, HASH_TOKEN, DELIM_TOKEN; lia).

(** ** The type of a HASH token *)

Lemma hash_bit (start : Z) (b : bool) :
  (Z.land (ToUint32 (ToInt32 (Z.shiftl start 1) + Z.b2z b)) 1 =? 1) = b.
Proof.
  assert (Hland : forall x, Z.land x 1 = x mod 2)
    by (intros x; change 1 with (Z.ones 1); by rewrite Z.land_ones).
  rewrite Hland. unfold ToUint32, ToInt32. rewrite Z.shiftl_mul_pow2 by lia.
  rewrite Z.mod_mod_divide by (by exists (2 ^ 31)).
  pose proof (Z.div_mod (start * 2 ^ 1 + 2 ^ 31) (2 ^ 32) ltac:(done)) as Hq.
  set (q := (start * 2 ^ 1 + 2 ^ 31) / 2 ^ 32) in *.
  set (r := (start * 2 ^ 1 + 2 ^ 31) mod 2 ^ 32) in *.
  replace (r - 2 ^ 31 + Z.b2z b) with (Z.b2z b + (start - 2 ^ 31 * q) * 2) by lia.
  rewrite Z_mod_plus_full. by destruct b.
Qed.

Lemma decided_more consumed b cp : decided consumed b -> decided (consumed ++ [cp]) b.
Proof. intros H more. by rewrite <- app_assoc. Qed.

(** What [_addHashToken] leaves at the index of its token. *)
Lemma addHashToken_recorded fuel offset s s' :
  _addHashToken (lex fuel) offset s = Some s' ->
  0 <= _tokensLength s -> _tokensLength s + 4 <= Z.of_nat (List.length (_tokens s)) ->
  _tokensLength s + 4 <= _tokensLength s' /\
  u32_get (_tokens s') (_tokensLength s) = Num HASH_TOKEN /\
  _getHashTokenIsID (_tokensLength s) s' = _hashTokenIsID s /\
  List.length (_tokens s') = List.length (_tokens s).
Proof.
  intros H Ht0 Ht. unfold _addHashToken in H.
  match type of H with mbind _ ?m = _ => destruct m as [s2 |] eqn:H2; [| done] end.
  cbn [mbind option_bind] in H. injection H as <-.
  apply (refeed_1_or_2_ext _ (lex_extends fuel)) in H2. destruct H2 as [].
  unfold _getHashTokenIsID. destruct s, s2. cbn in *.
  rewrite !ext_tokens0 by lia. rewrite ext_tokens_size0, !u32_set_length.
  split; [lia |]. split; [by read_back |]. split; [| done].
  rewrite u32_get_set_ne, u32_get_set_at by (rewrite ?u32_set_length; lia).
  unfold u32. apply hash_bit.
Qed.

(** What [_addDelimTokenWithOffset] leaves at the index of its token. *)
Lemma addDelimTokenWithOffset_recorded fuel cp offset s s' :
  _addDelimTokenWithOffset (lex fuel) cp offset s = Some s' ->
  0 <= _tokensLength s -> _tokensLength s + 4 <= Z.of_nat (List.length (_tokens s)) ->
  _tokensLength s + 4 <= _tokensLength s' /\
  u32_get (_tokens s') (_tokensLength s) = Num DELIM_TOKEN /\
  List.length (_tokens s') = List.length (_tokens s).
Proof.
  intros H Ht0 Ht. unfold _addDelimTokenWithOffset in H.
  destruct offset as [offset |]; [| done].
  match type of H with mbind _ ?m = _ => destruct m as [s2 |] eqn:H2; [| done] end.
  cbn [mbind option_bind] in H. injection H as <-.
  apply (refeeds_ext _ (lex_extends fuel)) in H2. destruct H2 as [].
  destruct s, s2. cbn in *.
  rewrite !ext_tokens0 by lia. rewrite ext_tokens_size0, !u32_set_length.
  split; [lia |]. split; [by read_back | done].
Qed.

Lemma fail_result module hash s terminal s' :
  _fail module hash s = Some (terminal, s') ->
  exists errors error, s' = s |> set_errors errors |> set_error error.
Proof.
  unfold _fail. intros H.
  destruct (previousTokenEnd s); destruct s; cbn in *; run_body H;
    eexists _, _; cbn; reflexivity.
Qed.

Lemma fail_then_result module hash s s' :
  fail_then module hash s = Some s' ->
  exists errors error, s' = s |> set_errors errors |> set_error error.
Proof.
  unfold fail_then. intros H.
  destruct (_fail module hash s) as [[terminal s1] |] eqn:H1; [| done].
  injection H as <-. by eapply fail_result.
Qed.

Lemma escape_into_hash fuel s cp s' :
  lex fuel s cp = Some s' -> _lex s = L_escape -> _lexAfterEscape s = L_hash ->
  hash_goes_on s s'.
Proof.
  destruct fuel as [| fuel]; [done |]. cbn [lex]. intros H Hlex Hafter.
  rewrite Hlex in H. cbn [method] in H. unfold S_escape in H.
  unfold hash_goes_on, in_hash. run_body H.
  - destruct s; cbn in *; auto.
  - match goal with H : fail_then _ _ _ = _ |- _ =>
      apply fail_then_result in H as (? & ? & ->) end.
    destruct s; cbn in *; auto.
  - destruct s; cbn in *; auto.
Qed.

Lemma hash_step fuel s cp s' :
  lex (S fuel) s cp = Some s' -> _lex s = L_hash ->
  0 <= _tokensLength s -> _tokensLength s + 4 <= Z.of_nat (List.length (_tokens s)) ->
  hash_goes_on s s' \/ hash_recorded s s'.
Proof.
  cbn [lex]. intros H Hlex Ht0 Ht. rewrite Hlex in H. cbn [method] in H.
  unfold S_hash in H. run_body H.
  - left. unfold hash_goes_on, in_hash. destruct s; cbn in *; auto.
  - left. unfold hash_goes_on, in_hash. destruct s; cbn in *; auto.
  - right. by apply (addHashToken_recorded fuel 1).
Qed.

Lemma hashEscape_step fuel s cp s' :
  lex (S fuel) s cp = Some s' -> _lex s = L_hashEscape ->
  0 <= _tokensLength s -> _tokensLength s + 4 <= Z.of_nat (List.length (_tokens s)) ->
  hash_goes_on s s' \/ hash_recorded s s'.
Proof.
  cbn [lex]. intros H Hlex Ht0 Ht. rewrite Hlex in H. cbn [method] in H.
  unfold S_hashEscape, _escape in H. run_body H.
  - right. by apply (addHashToken_recorded fuel 2).
  - left. apply escape_into_hash in H; [| by destruct s ..].
    unfold hash_goes_on in *. by destruct s.
Qed.

Lemma escapeHex_step fuel s cp s' :
  lex (S fuel) s cp = Some s' -> _lex s = L_escapeHex -> _lexAfterEscape s = L_hash ->
  0 <= _tokensLength s -> _tokensLength s + 4 <= Z.of_nat (List.length (_tokens s)) ->
  hash_goes_on s s' \/ hash_recorded s s'.
Proof.
  cbn [lex]. intros H Hlex Hafter Ht0 Ht. rewrite Hlex in H. cbn [method] in H.
  unfold S_escapeHex, _finishHexEscape in H. run_body H.
  - left. unfold hash_goes_on, in_hash. destruct s; cbn in *; auto.
  - left. unfold hash_goes_on, in_hash. destruct s; cbn in *; auto.
  - left. unfold hash_goes_on, in_hash. destruct s; cbn in *; auto.
  - destruct fuel as [| fuel]; [done |].
    apply hash_step in H; [| by destruct s; cbn in *; rewrite ?u32_set_length ..].
    unfold hash_goes_on, hash_recorded in *. by destruct s.
Qed.

Lemma in_hash_step fuel s cp s' :
  lex fuel s cp = Some s' -> in_hash s ->
  0 <= _tokensLength s -> _tokensLength s + 4 <= Z.of_nat (List.length (_tokens s)) ->
  hash_goes_on s s' \/ hash_recorded s s'.
Proof.
  destruct fuel as [| fuel]; [done |].
  intros H [Hlex | [Hlex | [Hlex Hafter]]] Ht0 Ht;
    eauto using hash_step, hashEscape_step, escapeHex_step.
Qed.

Lemma hash_phase_step cap i fuel consumed s cp s' :
  0 <= i -> i + 4 <= cap ->
  hash_phase cap i consumed s -> lex fuel s cp = Some s' ->
  hash_phase cap i (consumed ++ [cp]) s'.
Proof.
  intros Hi Hcap Hphase H.
  destruct Hphase as [-> Hlex Hflag Htl Hlen | -> Hlex Hflag Htl Hlen
                     | -> Hlex Hflag Htl Hlen | -> Hlex Hflag Htl Hlen
                     | Hin Hdec Htl Hlen | Htl Hdec Hlen].
  - (* after # *)
    destruct fuel as [| fuel]; [done |]. cbn [lex] in H. rewrite Hlex in H.
    cbn [method] in H. unfold S_delimOrHash in H. run_body H.
    + apply ph_in_hash; [left | | ..]; try by destruct s.
      intros more. replace (_hashTokenIsID _) with true by (by destruct s).
      cbn [app starts_identifier]. by rewrite Heqb.
    + apply eqv_true in Heqb0 as ->. apply ph_hyphen; by destruct s.
    + apply eqv_true in Heqb1 as ->. apply ph_backslash; by destruct s.
    + apply ph_in_hash; [left | | ..]; try by destruct s.
      intros more. replace (_hashTokenIsID _) with false by (by destruct s).
      cbn [app starts_identifier valid_escape]. rewrite Heqb, Heqb0, Heqb1.
      by destruct more.
    + apply addDelimTokenWithOffset_recorded in H as (? & Hkind & Hlen'); [| lia ..].
      apply ph_done; [lia | | lia]. rewrite <- Htl, Hkind. discriminate.
  - (* after #- *)
    destruct fuel as [| fuel]; [done |]. cbn [lex] in H. rewrite Hlex in H.
    cbn [method] in H. unfold S_hashAfterHyphen in H. run_body H.
    + apply ph_in_hash; [left | | ..]; try by destruct s.
      intros more. replace (_hashTokenIsID _) with true by (by destruct s).
      cbn [app starts_identifier valid_escape]. rewrite Heqb.
      by rewrite orb_true_r.
    + apply eqv_true in Heqb0 as ->. apply ph_hyphen_backslash; by destruct s.
    + apply ph_in_hash; [left | | ..]; try by destruct s.
      intros more. replace (_hashTokenIsID _) with false by (by destruct s).
      cbn [app starts_identifier valid_escape]. rewrite Heqb, Heqb0.
      by destruct more.
    + apply addHashToken_recorded in H as (? & Hkind & Hbit & Hlen'); [| lia ..].
      apply ph_done; [lia | | lia]. intros _. rewrite <- Htl, Hbit, Hflag.
      intros more. cbn [app starts_identifier valid_escape]. rewrite Heqb, Heqb0.
      by destruct more.
  - (* after #\ *)
    destruct fuel as [| fuel]; [done |]. cbn [lex] in H. rewrite Hlex in H.
    cbn [method] in H. unfold S_delimOrHashAfterBackslash, _escape in H. run_body H.
    + apply addDelimTokenWithOffset_recorded in H as (? & Hkind & Hlen'); [| lia ..].
      apply ph_done; [lia | | lia]. rewrite <- Htl, Hkind. discriminate.
    + apply escape_into_hash in H as (Hin & Hflag' & Htl' & Hlen'); [| by destruct s ..].
      apply ph_in_hash; [done | | by destruct s; cbn in *; lia ..].
      intros more. rewrite Hflag'. replace (_hashTokenIsID _) with true by (by destruct s).
      cbn [app starts_identifier valid_escape]. by rewrite Heqb.
  - (* after #-\ *)
    destruct fuel as [| fuel]; [done |]. cbn [lex] in H. rewrite Hlex in H.
    cbn [method] in H. unfold S_hashAfterHyphenBackslash, _escape in H. run_body H.
    + apply addHashToken_recorded in H as (? & Hkind & Hbit & Hlen'); [| lia ..].
      apply ph_done; [lia | | lia]. intros _. rewrite <- Htl, Hbit, Hflag.
      intros more. cbn [app starts_identifier valid_escape]. by rewrite Heqb.
    + apply escape_into_hash in H as (Hin & Hflag' & Htl' & Hlen'); [| by destruct s ..].
      apply ph_in_hash; [done | | by destruct s; cbn in *; lia ..].
      intros more. rewrite Hflag'. replace (_hashTokenIsID _) with true by (by destruct s).
      cbn [app starts_identifier valid_escape]. by rewrite Heqb.
  - (* hash in progress *)
    apply in_hash_step in H as [(Hin' & Hflag' & Htl' & Hlen') | (? & Hkind & Hbit & Hlen')];
      [| | done | lia ..].
    + apply ph_in_hash; [done | | lia ..]. rewrite Hflag'. by apply decided_more.
    + apply ph_done; [lia | | lia]. intros _. rewrite <- Htl, Hbit. by apply decided_more.
  - (* token recorded *)
    apply lex_extends in H as [].
    apply ph_done; [lia | | lia]. unfold _getHashTokenIsID.
    rewrite !ext_tokens0 by lia. intros Hkind. by apply decided_more, Hdec.
Qed.

Lemma hash_phase_feed cap i fuel cps consumed s s' :
  0 <= i -> i + 4 <= cap ->
  hash_phase cap i consumed s -> feed fuel s cps = Some s' ->
  hash_phase cap i (consumed ++ cps) s'.
Proof.
  intros Hi Hcap. revert consumed s.
  induction cps as [| cp cps IH]; intros consumed s Hphase H; cbn [feed] in H.
  - injection H as <-. by rewrite app_nil_r.
  - destruct (lex fuel s cp) as [s1 |] eqn:H1; [| done]. cbn [mbind option_bind] in H.
    replace (consumed ++ cp :: cps) with ((consumed ++ [cp]) ++ cps)
      by (by rewrite <- app_assoc).
    eapply IH; [| done]. by eapply hash_phase_step.
Qed.

(** C7, as the code has it. When the state after [#] is fed the code points
    [cps] and the first token recorded from there is a HASH token, its is-id
    flag is set exactly when [cps] would start an identifier: they begin
    with an identifier-start code point, with a backslash that no line feed
    follows, or with a hyphen followed by an identifier-start code point,
    another hyphen, or a backslash that no line feed follows. *)
Theorem hash_is_id_when_identifier_starts fuel s cps s' :
  _lex s = L_delimOrHash ->
  _hashTokenIsID s = false ->
  0 <= _tokensLength s ->
  _tokensLength s + 4 <= Z.of_nat (List.length (_tokens s)) ->
  feed fuel s cps = Some s' ->
  _tokensLength s < _tokensLength s' ->
  u32_get (_tokens s') (_tokensLength s) = Num HASH_TOKEN ->
  _getHashTokenIsID (_tokensLength s) s' = starts_identifier cps.
Proof.
  intros Hlex Hflag Ht0 Ht Hfeed Hlt Hkind.
  assert (Hphase : hash_phase (Z.of_nat (List.length (_tokens s))) (_tokensLength s) [] s)
    by (by apply ph_start).
  eapply hash_phase_feed in Hphase; [| done ..]. cbn [app] in Hphase.
  destruct Hphase as [| | | | | _ Hdec _]; try lia.
  specialize (Hdec Hkind []). by rewrite app_nil_r in Hdec.
Qed.

(** C7, as the specification words it, fails: [#--;] gives a HASH token of string value
    [--] whose is-id flag is set, though the value begins with a hyphen,
    which is no identifier-start code point, and the hyphen is followed by
    a hyphen, which is none either. *)
Lemma hash_of_two_hyphens_is_id :
  (fun s => (token_kinds s, _getHashTokenIsID 0 s, _getStringValueOfHashToken 0 s)) <$>
    tokenize 4 true DEFAULT_SIZE [codepoints "#--;"] =
  Some ([Num HASH_TOKEN; Num SEMICOLON_TOKEN], true, codepoints "--") /\
  isNameStart (Num 0x2D) = false.
Proof. split; vm_compute; reflexivity. Qed.

(** ** Instances *)

Lemma hex_escape_decoded_witness :
  let s := new_fields true 8 |> set_lexAfterEscape L_ident |> set_lex L_escape in
  _lex s = L_escape /\
  Forall (fun d => isHex (Num d) = true) [0x34; 0x31] /\
  feed 2 s [Num 0x34; Num 0x31; Num 0x20] = Some (after_hex_escape 2 0x41 s).
Proof.
  intros s.
  assert (Hds : Forall (fun d => isHex (Num d) = true) [0x34; 0x31])
    by (repeat constructor).
  split; [reflexivity |]. split; [exact Hds |].
  destruct (hex_escape_decoded 1 s [0x34; 0x31] eq_refl Hds) as (_ & _ & _ & _ & H);
    [simpl; lia |].
  exact (H (Num 0x20) ltac:(simpl; lia) eq_refl).
Defined.

Lemma fail_recover_frame_witness :
  let s := new_fields true 4 in
  _recover s = true /\
  is_Some (_fail "css-syntax-3" "consume-token" s) /\
  (forall terminal s', _fail "css-syntax-3" "consume-token" s = Some (terminal, s') ->
     terminal = false /\
     (exists err, _errors s' = _errors s ++ [err]) /\
     unchanged_but_errors s s').
Proof.
  intros s. split; [reflexivity |].
  destruct (fail_recover_frame "css-syntax-3" "consume-token" s eq_refl) as [H1 H2].
  split; [| exact H2].
  apply H1.
  - simpl. lia.
  - constructor.
  - intros b [= <-]. simpl. lia.
Defined.

Lemma replays_at_most_three_but_function_witness :
  exists s,
    tokenize 4 true 8 [codepoints "a b"] = Some s /\
    Forall (fun e => e.2 <= 3 \/ e.1 = FUNCTION_TOKEN) (replayed s).
Proof.
  eexists. split; [vm_compute; reflexivity |].
  apply (replays_at_most_three_but_function 4 true 8 [codepoints "a b"]).
  vm_compute. reflexivity.
Defined.

Lemma hash_is_id_when_identifier_starts_witness :
  let s := new_fields true 8 |> set_lex L_delimOrHash in
  exists s',
    feed 3 s [Num 0x2D; Num 0x2D; Num 0x3B] = Some s' /\
    _getHashTokenIsID 0 s' = true.
Proof.
  intros s. eexists. split; [vm_compute; reflexivity |].
  apply (hash_is_id_when_identifier_starts 3 s [Num 0x2D; Num 0x2D; Num 0x3B]).
  - reflexivity.
  - reflexivity.
  - simpl. lia.
  - simpl. lia.
  - vm_compute. reflexivity.
  - simpl. lia.
  - vm_compute. reflexivity.
Defined.

(** ** What a call of [_lex] never touches *)

Lemma kept_refl s : kept s s.
Proof.
  split; try done.
  - exists 0. lia.
  - exists []. by rewrite app_nil_r.
  - by destruct (_recover s).
Qed.

Lemma kept_trans s1 s2 s3 : kept s1 s2 -> kept s2 s3 -> kept s1 s3.
Proof.
  intros [Hs1 Hl1 Hc1 Hr1 (k1 & ? & Ht1) (new1 & He1 & Hn1) Herr1]
         [Hs2 Hl2 Hc2 Hr2 (k2 & ? & Ht2) (new2 & He2 & Hn2) Herr2].
  split; try congruence.
  - exists (k1 + k2). lia.
  - exists (new1 ++ new2). split; [by rewrite He2, He1, app_assoc |].
    intros Hr. rewrite Hn1, Hn2 by congruence. done.
  - rewrite Hr1 in Herr2. destruct (_recover s1); [congruence | auto].
Qed.

(** [kept x (g x)] for a [g] made of field assignments and pushes: field by
    field. *)
Ltac kept_fields :=
  split; cbn;
  [ reflexivity | reflexivity | reflexivity | reflexivity
  | first [ exists 0; lia | exists 1; lia ]
  | first [ exists []; split; [by rewrite app_nil_r | done]
          | eexists [_]; split; [reflexivity | intros; congruence] ]
  | repeat case_match; first [ reflexivity | congruence | by eexists ] ].

Ltac kept_pure :=
  match goal with
  | |- kept ?x _ =>
      is_var x; destruct x; cbn in *;
      repeat match goal with
             | |- context [if ?c then _ else _] => destruct c eqn:?
             end;
      kept_fields
  end.

Ltac kept_chain :=
  lazymatch goal with
  | |- kept ?a ?a => apply kept_refl
  | |- kept ?a ?b =>
      first
        [ match goal with
          | H : kept ?c ?v |- _ =>
              is_var v;
              lazymatch a with v => fail | _ => idtac end;
              lazymatch b with context [v] => idtac end;
              apply (kept_trans a v b);
              [ apply (kept_trans a c v); [kept_chain | exact H] | clear H; kept_chain ]
          end
        | kept_pure ]
  end.

Section Kept.

Variable lex : CSSParser -> value -> option CSSParser.
Hypothesis lex_kept : forall s cp s', lex s cp = Some s' -> kept s s'.

Lemma fail_kept module hash s terminal s' :
  _fail module hash s = Some (terminal, s') -> kept s s'.
Proof.
  unfold _fail. intros H.
  destruct (previousTokenEnd s); run_body H; kept_chain.
Qed.

Lemma fail_then_kept module hash s s' : fail_then module hash s = Some s' -> kept s s'.
Proof.
  unfold fail_then. intros H.
  destruct (_fail module hash s) as [[terminal s1] |] eqn:H1; [| done].
  injection H as <-. by eapply fail_kept.
Qed.

Lemma commitNumber_kept offset s s' : _commitNumber offset s = Some s' -> kept s s'.
Proof. unfold _commitNumber. intros H. run_body H. kept_chain. Qed.

Lemma refeed_kept s s' : refeed lex s = Some s' -> kept s s'.
Proof. unfold refeed. intros H%lex_kept. kept_chain. Qed.

Lemma refeeds_kept n s s' : refeeds lex n s = Some s' -> kept s s'.
Proof.
  revert s. induction n as [| n IH]; intros s H; cbn in H.
  - injection H as ->. apply kept_refl.
  - destruct (refeed lex s) as [s1 |] eqn:H1; [| done]. cbn in H.
    apply refeed_kept in H1. apply IH in H. by eapply kept_trans.
Qed.

Lemma refeed_1_or_2_kept offset s s' : refeed_1_or_2 lex offset s = Some s' -> kept s s'.
Proof.
  unfold refeed_1_or_2. intros H. run_body H;
    repeat match goal with H : lex _ _ = Some _ |- _ => apply lex_kept in H end; kept_chain.
Qed.

Lemma refeed_while_kept offset s n s' :
  refeed_while lex offset s = Some (n, s') -> kept s s'.
Proof.
  revert s n. induction offset as [| offset IH]; intros s n H; cbn in H.
  - injection H as _ ->. apply kept_refl.
  - destruct (_error s); [injection H as _ ->; apply kept_refl |].
    destruct (refeed lex s) as [s1 |] eqn:H1; [| done]. cbn in H.
    destruct (refeed_while lex offset s1) as [[n1 s2] |] eqn:H2; [| done]. cbn in H.
    injection H as _ ->. apply refeed_kept in H1. apply IH in H2. by eapply kept_trans.
Qed.

Ltac kept_calls :=
  repeat match goal with
         | H : lex _ _ = Some _ |- _ => apply lex_kept in H
         | H : _fail _ _ _ = Some _ |- _ => apply fail_kept in H
         | H : fail_then _ _ _ = Some _ |- _ => apply fail_then_kept in H
         | H : _commitNumber _ _ = Some _ |- _ => apply commitNumber_kept in H
         | H : refeeds lex _ _ = Some _ |- _ => apply refeeds_kept in H
         | H : refeed_1_or_2 lex _ _ = Some _ |- _ => apply refeed_1_or_2_kept in H
         | H : refeed_while lex _ _ = Some _ |- _ => apply refeed_while_kept in H
         end.

Ltac kept_method H := run_body H; kept_calls; kept_chain.

Lemma addDelimTokenWithOffset_kept cp offset s s' :
  _addDelimTokenWithOffset lex cp offset s = Some s' -> kept s s'.
Proof. unfold _addDelimTokenWithOffset. intros H. kept_method H. Qed.

Lemma addDimensionToken_kept offset s s' :
  _addDimensionToken lex offset s = Some s' -> kept s s'.
Proof. unfold _addDimensionToken. intros H. kept_method H. Qed.

Lemma addHashToken_kept offset s s' :
  _addHashToken lex offset s = Some s' -> kept s s'.
Proof. unfold _addHashToken. intros H. kept_method H. Qed.

Lemma addNumberToken_kept offset s s' :
  _addNumberToken lex offset s = Some s' -> kept s s'.
Proof. unfold _addNumberToken. intros H. kept_method H. Qed.

Lemma addStringValueTokenWithOffset_kept tokenType offset s s' :
  _addStringValueTokenWithOffset lex tokenType offset s = Some s' -> kept s s'.
Proof. unfold _addStringValueTokenWithOffset. intros H. kept_method H. Qed.

Lemma addWhitespaceToken_kept cp s s' :
  _addWhitespaceToken lex cp s = Some s' -> kept s s'.
Proof. unfold _addWhitespaceToken. intros H. kept_method H. Qed.

Ltac kept_emitters :=
  repeat match goal with
         | H : _addDelimTokenWithOffset lex _ _ _ = Some _ |- _ =>
             apply addDelimTokenWithOffset_kept in H
         | H : _addDimensionToken lex _ _ = Some _ |- _ => apply addDimensionToken_kept in H
         | H : _addHashToken lex _ _ = Some _ |- _ => apply addHashToken_kept in H
         | H : _addNumberToken lex _ _ = Some _ |- _ => apply addNumberToken_kept in H
         | H : _addStringValueTokenWithOffset lex _ _ _ = Some _ |- _ =>
             apply addStringValueTokenWithOffset_kept in H
         | H : _addWhitespaceToken lex _ _ = Some _ |- _ => apply addWhitespaceToken_kept in H
         end.

Lemma method_kept l cp s s' : method lex l cp s = Some s' -> kept s s'.
Proof.
  intros H.
  destruct l; cbn [method] in H;
    unfold S_atKeyword, S_atKeywordEscape, S_badURL, S_badURLEscape, S_cdcOrIdent,
      S_comment, S_commentAfterAsterisk, S_delimOrAtKeyword,
      S_delimOrAtKeywordAfterBackslash, S_delimOrAtKeywordAfterHyphen,
      S_delimOrAtKeywordAfterHyphenBackslash, S_delimOrCDO,
      S_delimOrCDOAfterExclamationPoint, S_delimOrCDOAfterExclamationPointHyphen,
      S_delimOrComment, S_delimOrFractionalNumber, S_delimOrHash,
      S_delimOrHashAfterBackslash, S_delimOrIdentAfterHyphenBackslash,
      S_delimOrIdentInitialEscape, S_delimOrNegativeSignedNumberOrCDCOrIdent,
      S_delimOrNegativeSignedNumberFractional, S_delimOrPositiveSignedNumber,
      S_delimOrPositiveSignedNumberFractional, S_escape, S_escapeHex, S_functionOrURL,
      S_hash, S_hashAfterHyphen, S_hashAfterHyphenBackslash, S_hashEscape, S_ident,
      S_identEscape, S_input, S_number, S_numberExponent, S_numberInDecimal,
      S_numberPossibleExponentOrUnit, S_numberPossibleExponentSignedOrUnitPlus,
      S_numberPossibleExponentSignedOrUnitHyphen, S_numberPossibleFraction,
      S_numberPossibleUnitBackslash, S_numberPossibleUnitHyphen,
      S_numberPossibleUnitHyphenBackslash, S_numberUnit, S_numberUnitEscape, S_string,
      S_stringEscape, S_url, S_urlAfterWhitespace, S_urlEscape, S_whitespace,
      fail_or, url_eof, number_default, _escape, _reconsumeCurrentCP in H;
    run_body H; kept_calls; kept_emitters; kept_chain.
Qed.

End Kept.

Lemma lex_kept fuel s cp s' : lex fuel s cp = Some s' -> kept s s'.
Proof.
  revert s cp s'. induction fuel as [| fuel IH]; intros s cp s' H; [done |].
  by apply (method_kept (lex fuel) IH (_lex s) cp).
Qed.

(** ** The source length does not grow under [_lex] *)

Lemma not_negative_get (a : list Z) (i : Z) :
  Forall (fun cp => 0 <= cp) a -> not_negative (u32_get a i).
Proof.
  intros Ha. unfold u32_get, ta_get.
  destruct (i <? 0); [done |].
  destruct (a !! Z.to_nat i) as [n |] eqn:Hn; [| done].
  by apply (Forall_lookup_1 _ _ _ _ Ha Hn).
Qed.

Lemma fallthrough3_offset offset : 0 <= offset -> Z.of_nat (fallthrough3 offset) <= offset.
Proof.
  intros Ho. unfold fallthrough3.
  repeat match goal with
         | |- context [?a =? ?b] => destruct (Z.eqb_spec a b)
         end; lia.
Qed.

(** The state variables opened into their fields, the facts of the calls
    read on them, and linear arithmetic. *)
Ltac open_states :=
  repeat match goal with x : CSSParser |- _ => destruct x end;
  unfold within; cbn in *;
  repeat match goal with
         | |- context [if ?c then _ else _] => destruct c eqn:?; cbn in *
         | H : context [if ?c then _ else _] |- _ => destruct c eqn:?; cbn in *
         end.

Ltac use_facts :=
  repeat match goal with
         | F : not_negative ?c -> _ |- _ =>
             let Hc := fresh in
             assert (Hc : not_negative c)
               by first [ assumption | exact I | cbn; lia | by apply not_negative_get ];
             specialize (F Hc); clear Hc
         | F : 0 <= ?n -> _ |- _ =>
             let Hn := fresh in
             assert (Hn : 0 <= n) by lia; specialize (F Hn); clear Hn
         | F : True -> _ |- _ => specialize (F I)
         | F : within _ _ _ |- _ => unfold within in F; cbn in F
         | F : Forall _ ?a -> _ |- _ =>
             let Ha := fresh in
             assert (Ha : Forall (fun cp => 0 <= cp) a) by assumption;
             specialize (F Ha); clear Ha; destruct F as [? ?]; subst
         end.

Ltac within_goal :=
  open_states; intros ?; use_facts;
  (split; [first [reflexivity | congruence] | cbn in *; lia]).

Section Within.

Variable lex : CSSParser -> value -> option CSSParser.
Hypothesis lex_within :
  forall s cp s', lex s cp = Some s' -> not_negative cp -> within 0 s s'.

Lemma fail_within module hash s terminal s' :
  _fail module hash s = Some (terminal, s') -> within 0 s s'.
Proof.
  intros (errors & error & ->)%fail_result. within_goal.
Qed.

Lemma fail_then_within module hash s s' : fail_then module hash s = Some s' -> within 0 s s'.
Proof.
  intros (errors & error & ->)%fail_then_result. within_goal.
Qed.

Lemma commitNumber_within offset s s' : _commitNumber offset s = Some s' -> within 0 s s'.
Proof. unfold _commitNumber. intros H. run_body H. within_goal. Qed.

Ltac within_lex :=
  repeat match goal with
         | H : lex ?s ?cp = Some ?s' |- _ =>
             let F := fresh "F" in pose proof (lex_within s cp s' H) as F; clear H
         end.

Lemma refeed_within s s' : refeed lex s = Some s' -> within 1 s s'.
Proof. unfold refeed. intros H. within_lex. within_goal. Qed.

Lemma refeeds_within n s s' : refeeds lex n s = Some s' -> within (Z.of_nat n) s s'.
Proof.
  revert s. induction n as [| n IH]; intros s H; cbn in H.
  - injection H as ->. within_goal.
  - destruct (refeed lex s) as [s1 |] eqn:H1; [| done]. cbn in H.
    apply refeed_within in H1. apply IH in H. within_goal.
Qed.

Lemma refeed_1_or_2_within offset s s' :
  refeed_1_or_2 lex offset s = Some s' -> within 0 s s'.
Proof.
  unfold refeed_1_or_2. intros H. run_body H; within_lex; within_goal.
Qed.

Lemma refeed_while_within offset s n s' :
  refeed_while lex offset s = Some (n, s') -> within (Z.of_nat offset) s s'.
Proof.
  revert s n. induction offset as [| offset IH]; intros s n H; cbn in H.
  - injection H as _ ->. within_goal.
  - destruct (_error s); [injection H as _ ->; within_goal |].
    destruct (refeed lex s) as [s1 |] eqn:H1; [| done]. cbn in H.
    destruct (refeed_while lex offset s1) as [[n1 s2] |] eqn:H2; [| done]. cbn in H.
    injection H as _ ->. apply refeed_within in H1. apply IH in H2. within_goal.
Qed.

Ltac within_calls :=
  within_lex;
  repeat match goal with
         | H : _fail _ _ _ = Some _ |- _ => apply fail_within in H
         | H : fail_then _ _ _ = Some _ |- _ => apply fail_then_within in H
         | H : _commitNumber _ _ = Some _ |- _ => apply commitNumber_within in H
         | H : refeeds lex _ _ = Some _ |- _ => apply refeeds_within in H
         | H : refeed_1_or_2 lex _ _ = Some _ |- _ => apply refeed_1_or_2_within in H
         | H : refeed_while lex _ _ = Some _ |- _ => apply refeed_while_within in H
         end.

Ltac within_method H := run_body H; within_calls; within_goal.

Lemma addDelimTokenWithOffset_within cp offset s s' :
  _addDelimTokenWithOffset lex cp offset s = Some s' -> not_negative offset -> within 0 s s'.
Proof.
  unfold _addDelimTokenWithOffset. intros H Ho. run_body H. within_calls.
  pose proof (fallthrough3_offset _ Ho). within_goal.
Qed.

Lemma addDimensionToken_within offset s s' :
  _addDimensionToken lex offset s = Some s' -> within 0 s s'.
Proof. unfold _addDimensionToken. intros H. within_method H. Qed.

Lemma addHashToken_within offset s s' :
  _addHashToken lex offset s = Some s' -> within 0 s s'.
Proof. unfold _addHashToken. intros H. within_method H. Qed.

Lemma addNumberToken_within offset s s' :
  _addNumberToken lex offset s = Some s' -> 0 <= offset -> within 0 s s'.
Proof.
  unfold _addNumberToken. intros H Ho. run_body H; within_calls;
    pose proof (fallthrough3_offset _ Ho); within_goal.
Qed.

Lemma addStringValueTokenWithOffset_within tokenType offset s s' :
  _addStringValueTokenWithOffset lex tokenType offset s = Some s' -> within 0 s s'.
Proof.
  unfold _addStringValueTokenWithOffset. intros H. run_body H; within_calls;
    repeat match goal with
           | H : (_ <? _) = false |- _ => apply Z.ltb_ge in H
           | H : (_ =? _) = true |- _ => apply Z.eqb_eq in H
           end;
    within_goal.
Qed.

Lemma addWhitespaceToken_within cp s s' :
  _addWhitespaceToken lex cp s = Some s' -> not_negative cp -> within 0 s s'.
Proof. unfold _addWhitespaceToken. intros H Hcp. within_method H. Qed.

Ltac within_emitters :=
  repeat match goal with
         | H : _addDelimTokenWithOffset lex ?cp ?o ?s = Some ?s' |- _ =>
             let F := fresh "F" in
             pose proof (addDelimTokenWithOffset_within cp o s s' H) as F; clear H
         | H : _addDimensionToken lex _ _ = Some _ |- _ =>
             apply addDimensionToken_within in H
         | H : _addHashToken lex _ _ = Some _ |- _ => apply addHashToken_within in H
         | H : _addNumberToken lex _ _ = Some _ |- _ =>
             apply addNumberToken_within in H; [| lia]
         | H : _addStringValueTokenWithOffset lex _ _ _ = Some _ |- _ =>
             apply addStringValueTokenWithOffset_within in H
         | H : _addWhitespaceToken lex ?cp ?s = Some ?s' |- _ =>
             let F := fresh "F" in
             pose proof (addWhitespaceToken_within cp s s' H) as F; clear H
         end.

Lemma method_within l cp s s' :
  method lex l cp s = Some s' -> not_negative cp -> within 0 s s'.
Proof.
  intros H Hcp.
  destruct l; cbn [method] in H;
    unfold S_atKeyword, S_atKeywordEscape, S_badURL, S_badURLEscape, S_cdcOrIdent,
      S_comment, S_commentAfterAsterisk, S_delimOrAtKeyword,
      S_delimOrAtKeywordAfterBackslash, S_delimOrAtKeywordAfterHyphen,
      S_delimOrAtKeywordAfterHyphenBackslash, S_delimOrCDO,
      S_delimOrCDOAfterExclamationPoint, S_delimOrCDOAfterExclamationPointHyphen,
      S_delimOrComment, S_delimOrFractionalNumber, S_delimOrHash,
      S_delimOrHashAfterBackslash, S_delimOrIdentAfterHyphenBackslash,
      S_delimOrIdentInitialEscape, S_delimOrNegativeSignedNumberOrCDCOrIdent,
      S_delimOrNegativeSignedNumberFractional, S_delimOrPositiveSignedNumber,
      S_delimOrPositiveSignedNumberFractional, S_escape, S_escapeHex, S_functionOrURL,
      S_hash, S_hashAfterHyphen, S_hashAfterHyphenBackslash, S_hashEscape, S_ident,
      S_identEscape, S_input, S_number, S_numberExponent, S_numberInDecimal,
      S_numberPossibleExponentOrUnit, S_numberPossibleExponentSignedOrUnitPlus,
      S_numberPossibleExponentSignedOrUnitHyphen, S_numberPossibleFraction,
      S_numberPossibleUnitBackslash, S_numberPossibleUnitHyphen,
      S_numberPossibleUnitHyphenBackslash, S_numberUnit, S_numberUnitEscape, S_string,
      S_stringEscape, S_url, S_urlAfterWhitespace, S_urlEscape, S_whitespace,
      fail_or, url_eof, number_default, _escape, _reconsumeCurrentCP in H;
    run_body H; within_calls; within_emitters; within_goal.
Qed.

End Within.

(** Whatever a call of [_lex] does for a code point that is not negative, it
    leaves the source buffer alone and the source length no greater. *)
Lemma lex_within fuel s cp s' :
  lex fuel s cp = Some s' -> not_negative cp -> within 0 s s'.
Proof.
  revert s cp s'. induction fuel as [| fuel IH]; intros s cp s' H; [done |].
  by apply (method_within (lex fuel) IH (_lex s) cp).
Qed.

(** ** From [_lex] to the stream entry points *)

Lemma grown_refl s : grown s s.
Proof.
  split; try done.
  - exists 0. lia.
  - exists []. by rewrite app_nil_r.
  - by destruct (_recover s).
Qed.

Lemma grown_trans s1 s2 s3 : grown s1 s2 -> grown s2 s3 -> grown s1 s3.
Proof.
  intros [Hr1 (k1 & ? & Ht1) (new1 & He1 & Hn1) Herr1]
         [Hr2 (k2 & ? & Ht2) (new2 & He2 & Hn2) Herr2].
  split; try congruence.
  - exists (k1 + k2). lia.
  - exists (new1 ++ new2). split; [by rewrite He2, He1, app_assoc |].
    intros Hr. rewrite Hn1, Hn2 by congruence. done.
  - rewrite Hr1 in Herr2. destruct (_recover s1); [congruence | auto].
Qed.

Lemma kept_grown s s' : kept s s' -> grown s s'.
Proof. intros []. by split. Qed.

Lemma rewritten_grown s s' : rewritten s s' -> grown s s'.
Proof.
  intros (? & ? & ? & ? & ? & ? & ? & ->). destruct s. split; cbn.
  - done.
  - exists 0. lia.
  - exists []. by rewrite app_nil_r.
  - by case_match.
Qed.

Lemma persists_refl s : persists s s.
Proof. split; first [lia | by auto]. Qed.

Lemma persists_trans s1 s2 s3 : persists s1 s2 -> persists s2 s3 -> persists s1 s3.
Proof.
  intros [] []. split; try lia.
  - intros i v Hi Hv. apply per_tokens1; [lia |]. by apply per_tokens0.
  - intros i v Hi Hv. apply per_floatValues1; [lia |]. by apply per_floatValues0.
  - intros i v Hi Hv. apply per_intValues1; [lia |]. by apply per_intValues0.
  - intros Hwm. destruct (per_stringValues0 Hwm) as (? & Hwm' & Hsv).
    destruct (per_stringValues1 Hwm') as (? & ? & Hsv').
    split; [lia |]. split; [lia |].
    intros i v Hi Hv. apply Hsv'; [lia |]. by apply Hsv.
Qed.

Lemma extends_persists s s' : extends s s' -> persists s s'.
Proof.
  intros [Htl Htok _ Hfl Hfloat _ Hil Hint _ Hstr _ _ _ _ _ _]. split; try done.
  - intros i v Hi. by rewrite Htok.
  - intros i v Hi. by rewrite Hfloat.
  - intros i v Hi. by rewrite Hint.
  - intros Hwm. destruct (Hstr Hwm) as (? & ? & Hsv).
    split; [done |]. split; [done |]. intros i v Hi. by rewrite Hsv.
Qed.

Lemma rewritten_persists s s' : rewritten s s' -> persists s s'.
Proof.
  intros (? & ? & ? & ? & ? & ? & ? & ->). destruct s. split; cbn; first [lia | by auto].
Qed.

Ltac rewritten_step :=
  match goal with
  | |- rewritten ?s _ => destruct s; unfold rewritten; cbn; do 7 eexists; reflexivity
  end.

(** A relation that holds along the calls of [_lex] and does not depend on
    the fields [_write] assigns holds along the loop of [_write], and along
    [_finish]; if it holds for [_expandBuffers], along [_write] too. *)
Section Across.

Variable R : CSSParser -> CSSParser -> Prop.
Hypothesis R_refl : forall s, R s s.
Hypothesis R_trans : forall s1 s2 s3, R s1 s2 -> R s2 s3 -> R s1 s3.
Hypothesis R_lex : forall fuel s cp s', lex fuel s cp = Some s' -> R s s'.
Hypothesis R_rewritten : forall s s', rewritten s s' -> R s s'.

Lemma write_loop_across fuel cps s s' : write_loop fuel cps s = Some s' -> R s s'.
Proof.
  revert s. induction cps as [| cp cps IH]; intros s H; cbn [write_loop] in H.
  { injection H as ->. apply R_refl. }
  destruct (_lastCPWasCR s && (cp =? 10)).
  { apply IH in H. eapply R_trans; [| exact H]. apply R_rewritten. rewritten_step. }
  match type of H with mbind _ (lex _ ?s1 _) = _ => assert (R s s1) as Hs1
    by (apply R_rewritten; rewritten_step) end.
  match type of H with mbind _ ?m = _ => destruct m as [s2 |] eqn:Hlex; [| done] end.
  apply R_lex in Hlex. cbn [mbind option_bind] in H.
  assert (R s s2) as Hs2 by (by eapply R_trans).
  destruct (_error s2); [by injection H as <- |].
  match type of H with (if ?c then _ else _) = _ => destruct c end;
    apply IH in H; (eapply R_trans; [exact Hs2 |]);
    (eapply R_trans; [| exact H]); apply R_rewritten; rewritten_step.
Qed.

Lemma finish_across fuel s s' : _finish fuel s = Some s' -> R s s'.
Proof.
  unfold _finish. intros H. destruct (_error s); [injection H as <-; apply R_refl |].
  match type of H with mbind _ (lex _ ?s1 _) = _ => assert (R s s1) as Hs1
    by (apply R_rewritten; rewritten_step) end.
  match type of H with mbind _ ?m = _ => destruct m as [s2 |] eqn:Hlex; [| done] end.
  apply R_lex in Hlex. injection H as <-.
  eapply R_trans; [exact Hs1 |]. eapply R_trans; [exact Hlex |].
  apply R_rewritten. rewritten_step.
Qed.

Hypothesis R_expandBuffers : forall min s s', _expandBuffers min s = Some s' -> R s s'.

Lemma write_across fuel cps s s' : _write fuel cps s = Some s' -> R s s'.
Proof.
  unfold _write. intros H.
  match type of H with mbind _ ?m = _ => destruct m as [s1 |] eqn:H1; [| done] end.
  cbn [mbind option_bind] in H. apply write_loop_across in H.
  eapply R_trans; [| exact H].
  destruct (_ <? _); [by eapply R_expandBuffers | injection H1 as <-; apply R_refl].
Qed.

Lemma write_chunks_across fuel chunks s s' : write_chunks fuel chunks s = Some s' -> R s s'.
Proof.
  revert s. induction chunks as [| cps chunks IH]; intros s H; cbn [write_chunks] in H.
  { injection H as ->. apply R_refl. }
  destruct (_write fuel cps s) as [s1 |] eqn:H1; [| done]. cbn [mbind option_bind] in H.
  apply write_across in H1. destruct (_error s1); [by injection H as <- |].
  apply IH in H. by eapply R_trans.
Qed.

Lemma tokenize_across fuel recover size chunks s :
  tokenize fuel recover size chunks = Some s ->
  exists s0, constructor recover size = Some s0 /\ R s0 s.
Proof.
  unfold tokenize. intros H.
  destruct (constructor recover size) as [s0 |]; [| done]. cbn [mbind option_bind] in H.
  destruct (write_chunks fuel chunks s0) as [s1 |] eqn:H1; [| done].
  cbn [mbind option_bind] in H.
  apply write_chunks_across in H1. apply finish_across in H.
  exists s0. split; [done |]. by eapply R_trans.
Qed.

End Across.

Lemma grow_length {A} (zero : A) (length : Z) (old new : list A) :
  grow zero length old = Some new ->
  Z.of_nat (List.length new) = length /\ Z.of_nat (List.length old) <= length.
Proof.
  unfold grow. intros H.
  destruct (Z.ltb_spec length 0), (Z.ltb_spec length (Z.of_nat (List.length old)));
    try done.
  injection H as <-. rewrite length_app, length_replicate. lia.
Qed.

Lemma grow_get {A} (zero : A) (length : Z) (old new : list A) (i : Z) (v : A) :
  grow zero length old = Some new -> ta_get old i = Some v -> ta_get new i = Some v.
Proof.
  unfold grow, ta_get. intros H Hv. destruct (_ || _); [done |]. injection H as <-.
  destruct (i <? 0); [done |]. by apply lookup_app_l_Some.
Qed.

Lemma grow_u32_get (length : Z) (old new : list Z) (i v : Z) :
  grow 0 length old = Some new -> u32_get old i = Num v -> u32_get new i = Num v.
Proof.
  unfold u32_get. intros H Hv. destruct (ta_get old i) as [n |] eqn:Hn; [| done].
  by rewrite (grow_get _ _ _ _ _ _ H Hn).
Qed.

Lemma expandBuffers_grown min s s' : _expandBuffers min s = Some s' -> grown s s'.
Proof.
  unfold _expandBuffers. intros H. run_body H. destruct s. split; cbn.
  - done.
  - exists 0. lia.
  - exists []. by rewrite app_nil_r.
  - by case_match.
Qed.

Lemma expandBuffers_persists min s s' : _expandBuffers min s = Some s' -> persists s s'.
Proof.
  unfold _expandBuffers. intros H. run_body H. destruct s. cbn in *.
  split; cbn; try lia; eauto using grow_get, grow_u32_get.
  intros ?. split; [lia |]. split; [lia |]. eauto using grow_u32_get.
Qed.

(** ** Errors, whole tokens and the input read *)

Lemma write_loop_grown fuel cps s s' : write_loop fuel cps s = Some s' -> grown s s'.
Proof.
  apply write_loop_across;
    eauto using grown_refl, grown_trans, rewritten_grown, kept_grown, lex_kept.
Qed.

Lemma write_grown fuel cps s s' : _write fuel cps s = Some s' -> grown s s'.
Proof.
  apply write_across;
    eauto using grown_refl, grown_trans, rewritten_grown, kept_grown, lex_kept,
      expandBuffers_grown.
Qed.

Lemma finish_grown fuel s s' : _finish fuel s = Some s' -> grown s s'.
Proof.
  apply finish_across;
    eauto using grown_refl, grown_trans, rewritten_grown, kept_grown, lex_kept.
Qed.

Lemma tokenize_grown fuel recover size chunks s :
  tokenize fuel recover size chunks = Some s ->
  exists s0, constructor recover size = Some s0 /\ grown s0 s.
Proof.
  apply tokenize_across;
    eauto using grown_refl, grown_trans, rewritten_grown, kept_grown, lex_kept,
      expandBuffers_grown.
Qed.

Lemma constructor_fields recover size s0 :
  constructor recover size = Some s0 -> s0 = new_fields recover size.
Proof. unfold constructor. by case_match; [| intros [= <-]]. Qed.

(** X1. In recover mode the terminal error is never set, and in strict mode
    no error is ever collected in the list: whatever the input, a parser
    ends with [_error] undefined or with [_errors] empty, according to its
    [recover] option. *)
Theorem errors_go_where_recover_says fuel recover size chunks s :
  tokenize fuel recover size chunks = Some s ->
  if recover then _error s = None else _errors s = [].
Proof.
  intros (s0 & ->%constructor_fields & [Hr _ (new & He & Hn) Herr])%tokenize_grown.
  cbn in *. destruct recover; [done |]. by rewrite He, Hn.
Qed.

(** X2. The token array only ever grows by whole tokens: [_write] and
    [_finish] leave [_tokensLength] greater by a multiple of 4, whatever the
    state, the chunk and the errors met. *)
Theorem tokens_come_in_fours fuel s s' :
  (exists cps, _write fuel cps s = Some s') \/ _finish fuel s = Some s' ->
  exists k, 0 <= k /\ _tokensLength s' = _tokensLength s + 4 * k.
Proof.
  intros [[cps H%write_grown] | H%finish_grown]; apply H.
Qed.

Lemma expandBuffers_result min s s' :
  _expandBuffers min s = Some s' ->
  exists floatValues intValues positions source stringValues tokens,
    s' = s |> set_floatValues floatValues |> set_intValues intValues
           |> set_positions positions |> set_source source
           |> set_stringValues stringValues |> set_tokens tokens.
Proof. unfold _expandBuffers. intros H. run_body H. by do 6 eexists. Qed.

Lemma finish_positionsLength fuel s s' :
  _finish fuel s = Some s' -> _positionsLength s' = _positionsLength s.
Proof.
  unfold _finish. intros H. destruct (_error s); [by injection H as <- |].
  match type of H with mbind _ ?m = _ => destruct m as [s2 |] eqn:Hlex; [| done] end.
  apply lex_extends in Hlex as []. injection H as <-.
  destruct s, s2. cbn in *. done.
Qed.

Lemma write_fields fuel cps s s' :
  _write fuel cps s = Some s' -> _lastCPWasCR s = false ->
  _lastCPWasCR s' = false /\
  (_error s' = None ->
   _positionsLength s' = _positionsLength s + 2 * Z.of_nat (List.length cps)).
Proof.
  unfold _write. intros H Hcr.
  match type of H with mbind _ ?m = _ => destruct m as [s0 |] eqn:Hs0; [| done] end.
  cbn [mbind option_bind] in H.
  assert (_lastCPWasCR s0 = false /\ _positionsLength s0 = _positionsLength s) as [Hcr0 <-].
  { destruct (_ <? _); [| by injection Hs0 as <-].
    apply expandBuffers_result in Hs0 as (? & ? & ? & ? & ? & ? & ->). by destruct s. }
  by apply write_loop_drops_nothing in H.
Qed.

Lemma write_chunks_reads_all fuel chunks s s' :
  write_chunks fuel chunks s = Some s' ->
  _recover s = true -> _error s = None -> _lastCPWasCR s = false ->
  _error s' = None /\ _lastCPWasCR s' = false /\
  _positionsLength s' = _positionsLength s + 2 * Z.of_nat (List.length (concat chunks)).
Proof.
  revert s. induction chunks as [| cps chunks IH]; intros s H Hr He Hcr;
    cbn [write_chunks] in H.
  { injection H as <-. cbn. split; [done |]. split; [done | lia]. }
  destruct (_write fuel cps s) as [s1 |] eqn:H1; [| done]. cbn [mbind option_bind] in H.
  pose proof (write_grown _ _ _ _ H1) as [Hr1 _ _ He1]. rewrite Hr, He in He1.
  apply write_fields in H1 as [Hcr1 Hp1]; [| done]. specialize (Hp1 He1).
  rewrite He1 in H. apply IH in H as (He' & Hcr' & Hp); [| congruence | done ..].
  split; [done |]. split; [done |]. rewrite Hp, Hp1. cbn [concat]. rewrite length_app. lia.
Qed.

(** X3. In recover mode no input is left unread: when a parser made with
    [recover] set has been written chunks and told the end of input, the
    position table holds a line and a column for every code point of every
    chunk. *)
Theorem recover_mode_reads_every_code_point fuel size chunks s :
  tokenize fuel true size chunks = Some s ->
  _positionsLength s = 2 * Z.of_nat (List.length (concat chunks)).
Proof.
  unfold tokenize. intros H.
  destruct (constructor true size) as [s0 |] eqn:Hs0; [| done].
  apply constructor_fields in Hs0 as ->. cbn [mbind option_bind] in H.
  destruct (write_chunks fuel chunks _) as [s1 |] eqn:H1; [| done].
  cbn [mbind option_bind] in H.
  apply write_chunks_reads_all in H1 as (_ & _ & Hp); [| done ..].
  apply finish_positionsLength in H. rewrite H, Hp. cbn. lia.
Qed.

(** ** Chunks *)

Lemma u32_nonneg (v : value) : 0 <= u32 v.
Proof. destruct v; [apply Z.mod_pos_bound | ]; done. Qed.

Lemma u32_set_nonneg (a : list Z) (i : Z) (v : value) :
  Forall (fun cp => 0 <= cp) a -> Forall (fun cp => 0 <= cp) (u32_set a i v).
Proof.
  intros Ha. unfold u32_set, ta_set. destruct (i <? 0); [done |].
  apply Forall_insert; [done | apply u32_nonneg].
Qed.

(** The loop of [_write] stores into the source buffer it was given, and
    leaves the source length greater by at most the number of code points
    written. *)
Lemma write_loop_within fuel cps s s' :
  write_loop fuel cps s = Some s' ->
  Forall (fun cp => 0 <= cp) cps ->
  Forall (fun cp => 0 <= cp) (_source s) ->
  Forall (fun cp => 0 <= cp) (_source s') /\
  List.length (_source s') = List.length (_source s) /\
  _sourceLength s' <= _sourceLength s + Z.of_nat (List.length cps).
Proof.
  revert s. induction cps as [| cp cps IH]; intros s H Hcps Hsrc; cbn [write_loop] in H.
  { injection H as ->. cbn. split; [done |]. split; [done | lia]. }
  apply Forall_cons in Hcps as [Hcp Hcps].
  destruct (_lastCPWasCR s && (cp =? 10)).
  { apply IH in H as (? & ? & ?); [| done | by destruct s].
    destruct s; cbn in *. split; [done |]. split; [done | lia]. }
  set (cp' := if cp =? 0 then _ else _) in H.
  assert (0 <= cp') as Hcp' by (subst cp'; repeat case_match; lia).
  clearbody cp'.
  match type of H with mbind _ ?m = _ => destruct m as [s2 |] eqn:Hlex; [| done] end.
  cbn [mbind option_bind] in H.
  apply lex_within in Hlex; [| done].
  destruct Hlex as [Hsrc2 Hsl2].
  { destruct s; cbn. by apply u32_set_nonneg. }
  assert (Forall (fun cp => 0 <= cp) (_source s2) /\
          List.length (_source s2) = List.length (_source s) /\
          _sourceLength s2 <= _sourceLength s + 1) as (Hok2 & Hlen2 & Hle2).
  { rewrite Hsrc2. destruct s; cbn in *.
    split; [by apply u32_set_nonneg |]. split; [apply u32_set_length | lia]. }
  destruct (_error s2).
  { injection H as <-. split; [done |]. split; [done |]. cbn [List.length]. lia. }
  match type of H with (if ?c then _ else _) = _ => destruct c end;
    (apply IH in H as (? & Hlen & ?); [| done | by destruct s2]);
    (split; [done |]); (split; [by destruct s2; cbn in *; rewrite Hlen |]);
    destruct s2; cbn in *; lia.
Qed.

(** With room in the source buffer for all the code points, writing chunks
    one after the other is the loop of [_write] run over them all. *)
Lemma write_chunks_concat fuel chunks s :
  _error s = None ->
  Forall (fun cp => 0 <= cp) (_source s) ->
  Forall (Forall (fun cp => 0 <= cp)) chunks ->
  _sourceLength s + Z.of_nat (List.length (concat chunks))
    <= Z.of_nat (List.length (_source s)) ->
  write_chunks fuel chunks s = write_loop fuel (concat chunks) s.
Proof.
  revert s. induction chunks as [| cps chunks IH]; intros s He Hsrc Hchunks Hroom; [done |].
  apply Forall_cons in Hchunks as [Hcps Hchunks].
  cbn [write_chunks concat] in *. rewrite length_app in Hroom.
  rewrite write_loop_app by done. unfold _write.
  destruct (Z.ltb_spec (Z.of_nat (List.length (_source s)) - _sourceLength s)
              (Z.of_nat (List.length cps))); [lia |].
  cbn [mbind option_bind].
  destruct (write_loop fuel cps s) as [s1 |] eqn:H1; [| done]. cbn [mbind option_bind].
  destruct (_error s1) eqn:He1; [done |].
  apply write_loop_within in H1 as (? & Hlen & ?); [| done ..].
  apply IH; [done ..|]. rewrite Hlen. lia.
Qed.

(** X4. When the [size] option is at least the number of code points of the
    whole input, the way the input is cut into chunks does not matter: the
    parser ends in the same state as when it is written the input as one
    chunk (and fails to return in the same cases). *)
Theorem chunks_do_not_matter_with_room fuel recover size chunks :
  Forall (Forall (fun cp => 0 <= cp)) chunks ->
  Z.of_nat (List.length (concat chunks)) <= size ->
  tokenize fuel recover size chunks = tokenize fuel recover size [concat chunks].
Proof.
  intros Hchunks Hsize. unfold tokenize, constructor.
  destruct (_ || _); [reflexivity |]. cbn [mbind option_bind].
  assert (forall chunks', concat chunks' = concat chunks ->
            Forall (Forall (fun cp => 0 <= cp)) chunks' ->
            write_chunks fuel chunks' (new_fields recover size) =
              write_loop fuel (concat chunks) (new_fields recover size)) as Hsame.
  { intros chunks' Heq Hchunks'. rewrite <- Heq.
    apply write_chunks_concat; [done | | done |].
    - cbn. by apply Forall_replicate.
    - cbn. rewrite length_replicate, Heq. lia. }
  rewrite (Hsame chunks), (Hsame [concat chunks]); try done.
  - cbn. by rewrite app_nil_r.
  - constructor; [| done]. by apply Forall_concat.
Qed.

(** ** What is recorded stays recorded *)

Lemma write_persists fuel cps s s' : _write fuel cps s = Some s' -> persists s s'.
Proof.
  apply write_across;
    eauto using persists_refl, persists_trans, rewritten_persists, extends_persists,
      lex_extends, expandBuffers_persists.
Qed.

Lemma finish_persists fuel s s' : _finish fuel s = Some s' -> persists s s'.
Proof.
  apply finish_across;
    eauto using persists_refl, persists_trans, rewritten_persists, extends_persists,
      lex_extends.
Qed.

(** X5. Tokens are never revised: every slot of the token array below
    [_tokensLength], every numeric value below the value counts and every
    string value below [_stringValuesStart] that [_write] or [_finish] finds
    recorded is still there, at the same index, when it returns, buffers
    grown or not. The counts themselves do not go down. *)
Theorem recorded_tokens_persist fuel s s' :
  (exists cps, _write fuel cps s = Some s') \/ _finish fuel s = Some s' ->
  persists s s'.
Proof.
  intros [[cps H] | H]; [by eapply write_persists | by eapply finish_persists].
Qed.

(** ** Token introspection *)

Lemma subarray_slice {A} (a : list A) (b e : Z) :
  0 <= b <= e -> e <= Z.of_nat (List.length a) ->
  subarray a b e = take (Z.to_nat (e - b)) (drop (Z.to_nat b) a).
Proof.
  intros Hb He. unfold subarray, rel_index.
  destruct (Z.ltb_spec b 0), (Z.ltb_spec e 0); try lia.
  by rewrite !Z.min_l by lia.
Qed.

Lemma u32_get_lookup (a : list Z) (i : Z) :
  0 <= i -> u32_get a i = match a !! Z.to_nat i with Some n => Num n | None => Undefined end.
Proof. intros Hi. unfold u32_get, ta_get. by destruct (Z.ltb_spec i 0); [lia |]. Qed.

Lemma same_value_true v w : same_value v w = true <-> v = w.
Proof.
  destruct v as [n |], w as [m |]; cbn; try done.
  rewrite Z.eqb_eq. split; [by intros -> | by intros [= ->]].
Qed.

Lemma test_from_slices n i j buf s :
  0 <= i -> 0 <= j ->
  (Z.to_nat i + n <= List.length (_stringValues s))%nat ->
  (Z.to_nat j + n <= List.length buf)%nat ->
  test_from n i j buf s = true <->
  take n (drop (Z.to_nat i) (_stringValues s)) = take n (drop (Z.to_nat j) buf).
Proof.
  revert i j. induction n as [| n IH]; intros i j Hi Hj Hsv Hbuf; cbn [test_from].
  { by rewrite !take_0. }
  rewrite !u32_get_lookup by done.
  destruct (lookup_lt_is_Some_2 (_stringValues s) (Z.to_nat i)) as [x Hx]; [lia |].
  destruct (lookup_lt_is_Some_2 buf (Z.to_nat j)) as [y Hy]; [lia |].
  rewrite Hx, Hy.
  rewrite (drop_S _ _ _ Hx), (drop_S _ _ _ Hy). cbn [take same_value].
  replace (S (Z.to_nat i)) with (Z.to_nat (i + 1)) by lia.
  replace (S (Z.to_nat j)) with (Z.to_nat (j + 1)) by lia.
  destruct (Z.eqb_spec x y) as [-> | Hne].
  - rewrite IH by lia. split; [by intros -> | by intros [= ->]].
  - split; [done | by intros [= ?]].
Qed.

Lemma test_from_beyond n i j buf s :
  0 <= i -> 0 <= j ->
  (0 < n)%nat ->
  (List.length (_stringValues s) < Z.to_nat i + n)%nat ->
  (Z.to_nat j + n <= List.length buf)%nat ->
  test_from n i j buf s = false.
Proof.
  revert i j. induction n as [| n IH]; intros i j Hi Hj Hn Hsv Hbuf; cbn [test_from]; [lia |].
  rewrite !u32_get_lookup by done.
  destruct (lookup_lt_is_Some_2 buf (Z.to_nat j)) as [y ->]; [lia |].
  destruct (_stringValues s !! Z.to_nat i) as [x |] eqn:Hx; [| done].
  apply lookup_lt_Some in Hx. cbn [same_value].
  destruct (x =? y); [| done]. apply IH; lia.
Qed.

Lemma subarray_length {A} (a : list A) (b e : Z) :
  0 <= b -> Z.of_nat (List.length (subarray a b e)) <= Z.max 0 (Z.of_nat (List.length a) - b).
Proof.
  intros Hb. unfold subarray, rel_index.
  destruct (Z.ltb_spec b 0); [lia |].
  rewrite length_take, length_drop. lia.
Qed.

(** X6. [_testSimpleStringValue(index, buf)] is true exactly when [buf]
    has as many code points as lie between the two special values of the
    token, and equals that slice of the string values; a slice that runs
    past the end of the buffer equals no [buf]. *)
Theorem testSimpleStringValue_compares_the_slice index buf s start end_ :
  u32_get (_tokens s) (index + 2) = Num start ->
  u32_get (_tokens s) (index + 3) = Num end_ ->
  0 <= start ->
  _testSimpleStringValue index buf s = true <->
  end_ - start = Z.of_nat (List.length buf) /\ subarray (_stringValues s) start end_ = buf.
Proof.
  intros Hstart Hend H0. unfold _testSimpleStringValue. rewrite Hstart, Hend.
  destruct (Z.eqb_spec (end_ - start) (Z.of_nat (List.length buf))) as [Hlen | Hlen];
    cbn [negb]; [| by split; [| intros []]].
  destruct (Z.le_gt_cases end_ (Z.of_nat (List.length (_stringValues s)))) as [Hin | Hout].
  - rewrite test_from_slices, subarray_slice by lia.
    change (Z.to_nat 0) with 0%nat. rewrite drop_0, (take_ge buf) by lia. tauto.
  - destruct buf as [| cp buf].
    + cbn [List.length] in Hlen. replace (end_ - start) with 0 by lia.
      split; [intros _; split; [done |] | done].
      unfold subarray, rel_index. destruct (Z.ltb_spec start 0), (Z.ltb_spec end_ 0); try lia.
      by replace (end_ `min` _ - start `min` _) with 0 by lia.
    + cbn [List.length] in Hlen. rewrite test_from_beyond by (cbn [List.length]; lia).
      split; [done |]. intros [_ Heq].
      pose proof (subarray_length (_stringValues s) start end_ H0) as Hsub.
      rewrite Heq in Hsub. cbn [List.length] in Hsub. lia.
Qed.

(** ** The sources of the tokens *)

Lemma ascending_last prev ends : ascending prev ends -> prev <= default prev (last ends).
Proof.
  revert prev. induction ends as [| e ends IH]; intros prev; cbn; [lia |].
  intros [? Hasc]. specialize (IH _ Hasc). rewrite last_cons.
  destruct (last ends); cbn in *; lia.
Qed.

Lemma slices_concat {A} (a : list A) (prev : Z) (ends : list Z) :
  0 <= prev -> ascending prev ends ->
  default prev (last ends) <= Z.of_nat (List.length a) ->
  concat (slices a prev ends) =
    take (Z.to_nat (default prev (last ends) - prev)) (drop (Z.to_nat prev) a).
Proof.
  revert prev. induction ends as [| e ends IH]; intros prev Hprev Hasc Hlast.
  { cbn. by rewrite Z.sub_diag. }
  destruct Hasc as [He Hasc]. cbn [slices concat].
  pose proof (ascending_last _ _ Hasc) as Hle.
  assert (default prev (last (e :: ends)) = default e (last ends)) as Heq
    by (rewrite last_cons; by destruct (last ends)).
  rewrite Heq in *. rewrite IH by first [done | lia]. rewrite subarray_slice by lia.
  rewrite <- (take_drop (Z.to_nat (e - prev)) (drop (Z.to_nat prev) a)) at 2.
  rewrite take_app_ge by (rewrite length_take, length_drop; lia).
  rewrite length_take, length_drop, drop_drop. do 3 f_equal; lia.
Qed.

Lemma token_ends_slot s ends k e :
  token_ends s = map Num ends -> ends !! k = Some e ->
  u32_get (_tokens s) (4 * Z.of_nat k + 1) = Num e.
Proof.
  unfold token_ends. intros Hends Hk.
  assert (map Num ends !! k = Some (Num e)) as Hk'.
  { change (map Num ends) with (Num <$> ends). by rewrite list_lookup_fmap, Hk. }
  rewrite <- Hends in Hk'.
  change (map ?f ?l) with (f <$> l) in Hk'. rewrite list_lookup_fmap in Hk'.
  destruct (seq 0 _ !! k) as [k' |] eqn:Hseq; [| done].
  apply lookup_seq in Hseq as [-> _]. by injection Hk'.
Qed.

Lemma token_sources_slices s ends :
  token_ends s = map Num ends -> token_sources s = slices (_source s) 0 ends.
Proof.
  intros Hends. unfold token_sources.
  assert (Z.to_nat (_tokensLength s / 4) = List.length ends) as ->.
  { apply (f_equal List.length) in Hends. unfold token_ends in Hends.
    by rewrite !length_map, length_seq in Hends. }
  assert (forall m rest prev,
            drop m ends = rest ->
            (if m is O then prev = 0
             else u32_get (_tokens s) (4 * Z.of_nat m - 3) = Num prev) ->
            map (fun i => _getSourceOfToken (4 * Z.of_nat i) s) (seq m (List.length rest)) =
              slices (_source s) prev rest) as Hgen.
  { intros m rest. revert m. induction rest as [| e rest IH]; intros m prev Hdrop Hprev; [done |].
    assert (ends !! m = Some e) as Hm.
    { rewrite <- (Nat.add_0_r m), <- lookup_drop, Hdrop. done. }
    pose proof (token_ends_slot _ _ _ _ Hends Hm) as Hslot.
    cbn [List.length seq map slices]. f_equal.
    - unfold _getSourceOfToken, subarray_v. rewrite Hslot.
      destruct m as [| m]; [by rewrite Hprev |].
      destruct (Z.eqb_spec (4 * Z.of_nat (S m)) 0); [lia |]. by rewrite Hprev.
    - apply IH.
      + apply (f_equal (drop 1)) in Hdrop. rewrite drop_drop in Hdrop.
        cbn [drop] in Hdrop. rewrite drop_0 in Hdrop. rewrite <- Hdrop. f_equal. lia.
      + replace (4 * Z.of_nat (S m) - 3) with (4 * Z.of_nat m + 1) by lia. done. }
  by apply (Hgen 0%nat).
Qed.

(** X7. When the ends recorded for the tokens do not go back and lie
    within the source buffer, the slices that [_getSourceOfToken] returns
    for the tokens, put one after the other, are the source up to the end of
    the last token: no code point is missing between two tokens, none is
    there twice. *)
Theorem token_sources_tile_the_source s ends :
  token_ends s = map Num ends ->
  ascending 0 ends ->
  default 0 (last ends) <= Z.of_nat (List.length (_source s)) ->
  concat (token_sources s) = take (Z.to_nat (default 0 (last ends))) (_source s).
Proof.
  intros Hends Hasc Hlast.
  rewrite (token_sources_slices _ _ Hends), slices_concat by done.
  by rewrite Z.sub_0_r, drop_0.
Qed.

(** ** The getters of numeric values *)

(** X8. The getters of numeric values read back what the emitters
    stored. For a NUMBER or a DIMENSION token just emitted,
    [_getNumberTokenIsFloat] or [_getDimensionTokenIsFloat] returns the
    is-float flag the emitter found, and the getter of the numeric value
    returns the value of [_numericTokenValue]: from the float buffer when
    the flag was set, and otherwise from the integer buffer, as the
    [Int32Array] has converted it; when the value is the integer [z], what
    is read back is [ToInt32 z], which is [z] wrapped modulo 2^32. For a
    PERCENTAGE token the value comes from the float buffer in either case.
    This holds when the emitter returns, after the code points it
    re-feeds. *)
Theorem numeric_getters_read_back fuel s :
  room s ->
  let i := _tokensLength s in
  let v := _numericTokenValue s in
  let isFloat := _numericTokenIsFloat s in
  let value := if isFloat then OfFloat v else OfInt (StoreInt32 v) in
  (forall offset s', _addNumberToken (lex fuel) offset s = Some s' ->
     _getNumberTokenIsFloat i s' = isFloat /\
     _getNumericValueOfNumberToken i s' = value /\
     (isFloat = false -> forall z, number_value v = Some z ->
        integer_read (_getNumericValueOfNumberToken i s') = Some (ToInt32 z))) /\
  (forall offset s', _addDimensionToken (lex fuel) offset s = Some s' ->
     _getDimensionTokenIsFloat i s' = isFloat /\
     _getNumericValueOfDimensionToken i s' = value /\
     (isFloat = false -> forall z, number_value v = Some z ->
        integer_read (_getNumericValueOfDimensionToken i s') = Some (ToInt32 z))) /\
  _getNumericValueOfPercentageToken i (_addPercentageToken s) = OfFloat v.
Proof.
  intros (Ht0 & Ht & Hf & Hi & Hsv & Hsvl & Hf32 & Hi32 & Hsv32) i v isFloat value.
  assert (Hread : forall x, x = value -> isFloat = false ->
            forall z, number_value v = Some z -> integer_read x = Some (ToInt32 z)).
  { intros x -> Hflag z Hz. subst value. rewrite Hflag. cbn. by rewrite Hz. }
  split; [| split].
  - intros offset s' H.
    enough (_getNumberTokenIsFloat i s' = isFloat /\
            _getNumericValueOfNumberToken i s' = value) as [? ?] by auto.
    unfold _addNumberToken in H.
    match type of H with mbind _ ?m = _ => destruct m as [s2 |] eqn:H2; [| done] end.
    cbn [mbind option_bind] in H. injection H as <-.
    apply (refeeds_ext _ (lex_extends fuel)) in H2. destruct H2 as [Htl Htok _ _ Hfl _ _ Hin].
    unfold _getNumericValueOfNumberToken, _getNumberTokenIsFloat, float_at, int_at, ta_get_v.
    clear Hread. subst i v isFloat value. destruct (_numericTokenIsFloat s) eqn:Hflag.
    all: destruct s; cbn in *; subst; cbn in *.
    all: destruct s2; cbn in *; rewrite ?Htok by lia.
    all: read_back; cbn [eqv]; rewrite ?Z.eqb_refl; cbn [Z.eqb].
    all: rewrite ?Hfl by lia; rewrite ?Hin by lia; read_back; split; reflexivity.
  - intros offset s' H.
    enough (_getDimensionTokenIsFloat i s' = isFloat /\
            _getNumericValueOfDimensionToken i s' = value) as [? ?] by auto.
    unfold _addDimensionToken in H.
    match type of H with mbind _ ?m = _ => destruct m as [s2 |] eqn:H2; [| done] end.
    cbn [mbind option_bind] in H. injection H as <-.
    apply (refeed_1_or_2_ext _ (lex_extends fuel)) in H2.
    destruct H2 as [Htl Htok _ _ Hfl _ _ Hin _ Hstr].
    unfold _getNumericValueOfDimensionToken, _getDimensionTokenIsFloat, float_at, int_at,
      ta_get_v, u32_get_v.
    clear Hread. subst i v isFloat value. destruct (_numericTokenIsFloat s) eqn:Hflag.
    all: destruct s; cbn in *; subst; cbn in *.
    all: destruct Hstr as (_ & _ & Hsvs); [lia |].
    all: destruct s2; cbn in *; rewrite ?Htok by lia.
    all: read_back; rewrite ?Hsvs by lia; read_back; cbn [eqv]; cbn [Z.eqb].
    all: rewrite ?Hfl by lia; rewrite ?Hin by lia; read_back; split; reflexivity.
  - unfold _getNumericValueOfPercentageToken, float_at, ta_get_v.
    subst i v. destruct s. cbn in *. read_back. read_back. done.
Qed.

(** ** Lines and columns *)

(** One round of the loop of [_write] that ends without a terminal error. *)
Lemma write_loop_round fuel cp cps s s' :
  write_loop fuel (cp :: cps) s = Some s' ->
  _lastCPWasCR s = false -> _error s' = None ->
  exists s2,
    write_loop fuel cps s2 = Some s' /\
    _lastCPWasCR s2 = false /\
    _positions s2 =
      u32_set (u32_set (_positions s) (_positionsLength s) (Num (_line s)))
        (_positionsLength s + 1) (Num (_column s)) /\
    _positionsLength s2 = _positionsLength s + 2 /\
    (_line s2, _column s2) = position_after (_line s) (_column s) [cp].
Proof.
  intros H Hcr Herr. cbn [write_loop] in H. rewrite Hcr in H. cbn [andb] in H.
  set (cp' := if cp =? 0 then _ else _) in H.
  assert ((cp' =? 13) = false) as Hcp'
    by (subst cp'; repeat case_match; lia).
  assert ((cp' =? 10) || (cp' =? 8232) || (cp' =? 8233) = is_line_break cp) as Hbreak
    by (subst cp'; unfold is_line_break; repeat case_match; lia).
  rewrite Hcp' in H. clearbody cp'.
  match type of H with mbind _ ?m = _ => destruct m as [s2 |] eqn:Hlex; [| done] end.
  cbn [mbind option_bind] in H.
  pose proof (lex_kept _ _ _ _ Hlex) as [_ Hline Hcol _ _ _ _].
  pose proof (lex_extends _ _ _ _ Hlex) as [].
  destruct (_error s2) eqn:Herr2; [injection H as <-; congruence |].
  rewrite Hbreak in H. cbn [position_after].
  destruct (is_line_break cp); (eexists; split; [exact H |]);
    destruct s, s2; cbn in *; subst; (repeat split; try done; lia).
Qed.

Lemma write_loop_positions fuel cps s s' :
  write_loop fuel cps s = Some s' ->
  _lastCPWasCR s = false -> _error s' = None ->
  0 <= _positionsLength s ->
  _positionsLength s + 2 * Z.of_nat (List.length cps)
    <= Z.of_nat (List.length (_positions s)) ->
  (_line s', _column s') = position_after (_line s) (_column s) cps /\
  List.length (_positions s') = List.length (_positions s) /\
  (forall i, i < _positionsLength s ->
     u32_get (_positions s') i = u32_get (_positions s) i) /\
  forall k, (k < List.length cps)%nat ->
    u32_get (_positions s') (_positionsLength s + 2 * Z.of_nat k) =
      Num (ToUint32 (position_after (_line s) (_column s) (take k cps)).1) /\
    u32_get (_positions s') (_positionsLength s + 2 * Z.of_nat k + 1) =
      Num (ToUint32 (position_after (_line s) (_column s) (take k cps)).2).
Proof.
  revert s. induction cps as [| cp cps IH]; intros s H Hcr Herr Hpl Hroom.
  { injection H as ->. cbn. repeat split; try done; cbn in *; lia. }
  apply write_loop_round in H as (s2 & H & Hcr2 & Hpos2 & Hpl2 & Hlc2); [| done ..].
  cbn [List.length] in Hroom.
  apply IH in H as (Hlc & Hlen & Hframe & Hreads);
    [| done | done | lia | rewrite Hpos2, !u32_set_length; lia].
  rewrite Hpos2, !u32_set_length in Hlen. rewrite Hpl2 in Hframe, Hreads.
  assert (forall line column rest,
            position_after line column (cp :: rest) =
              position_after (position_after line column [cp]).1
                (position_after line column [cp]).2 rest) as Hcons
    by (intros; cbn; by case_match).
  split; [by rewrite Hcons, <- Hlc2 |]. split; [done |].
  split; [intros i Hi; rewrite Hframe, Hpos2 by lia; by rewrite !u32_get_set_ne by lia |].
  intros [| k] Hk.
  - cbn [take position_after fst snd]. rewrite Z.mul_0_r, Z.add_0_r.
    rewrite !Hframe, Hpos2 by lia.
    rewrite u32_get_set_ne, !u32_get_set_at by (rewrite ?u32_set_length; lia). done.
  - cbn [List.length] in Hk. specialize (Hreads k ltac:(lia)).
    cbn [take]. rewrite Hcons, <- Hlc2. cbn [fst snd].
    replace (_positionsLength s + 2 * Z.of_nat (S k))
      with (_positionsLength s + 2 + 2 * Z.of_nat k) by lia. done.
Qed.

Lemma write_loop_positions_size fuel cps s s' :
  write_loop fuel cps s = Some s' ->
  List.length (_positions s') = List.length (_positions s).
Proof.
  revert s. induction cps as [| cp cps IH]; intros s H; cbn [write_loop] in H.
  { by injection H as ->. }
  destruct (_lastCPWasCR s && (cp =? 10)); [apply IH in H; by destruct s |].
  match type of H with mbind _ ?m = _ => destruct m as [s2 |] eqn:Hlex; [| done] end.
  cbn [mbind option_bind] in H.
  apply lex_extends in Hlex as [_ _ _ _ _ _ _ _ _ _ _ _ _ _ Hpos _].
  assert (List.length (_positions s2) = List.length (_positions s)) as Hs2
    by (destruct s; cbn in *; by rewrite Hpos, !u32_set_length).
  destruct (_error s2); [by injection H as <- |].
  match type of H with (if ?c then _ else _) = _ => destruct c end;
    apply IH in H; destruct s2; cbn in *; congruence.
Qed.

(** X9. [_write] keeps the line and the column, counted from 0,
    as a function of the code points alone: a line ends after a line feed,
    a form feed, a carriage return, U+2028 or U+2029. When it returns
    without a terminal error, the counters have moved past the whole chunk
    and the position table holds, for every code point of the chunk, the
    line and the column at which it stands. *)
Theorem write_records_line_and_column fuel cps s s' :
  _write fuel cps s = Some s' ->
  _lastCPWasCR s = false -> _error s' = None ->
  0 <= _positionsLength s ->
  _positionsLength s + 2 * Z.of_nat (List.length cps)
    <= Z.of_nat (List.length (_positions s')) ->
  (_line s', _column s') = position_after (_line s) (_column s) cps /\
  forall k, (k < List.length cps)%nat ->
    u32_get (_positions s') (_positionsLength s + 2 * Z.of_nat k) =
      Num (ToUint32 (position_after (_line s) (_column s) (take k cps)).1) /\
    u32_get (_positions s') (_positionsLength s + 2 * Z.of_nat k + 1) =
      Num (ToUint32 (position_after (_line s) (_column s) (take k cps)).2).
Proof.
  unfold _write. intros H Hcr Herr Hpl Hroom.
  match type of H with mbind _ ?m = _ => destruct m as [s0 |] eqn:Hs0; [| done] end.
  cbn [mbind option_bind] in H.
  assert (_lastCPWasCR s0 = false /\ _positionsLength s0 = _positionsLength s /\
          _line s0 = _line s /\ _column s0 = _column s) as (Hcr0 & Hpl0 & Hline0 & Hcol0).
  { destruct (_ <? _); [| by injection Hs0 as <-].
    apply expandBuffers_result in Hs0 as (? & ? & ? & ? & ? & ? & ->). by destruct s. }
  pose proof (write_loop_positions_size _ _ _ _ H) as Hsize.
  apply write_loop_positions in H as (Hlc & _ & _ & Hreads);
    [| done | done | lia | rewrite <- Hsize; lia].
  rewrite Hpl0, Hline0, Hcol0 in *. done.
Qed.

Lemma imul_small (a b : Z) : - 2 ^ 31 <= a * b < 2 ^ 31 -> imul a b = a * b.
Proof. intros H. unfold imul, ToInt32. rewrite Z.mod_small; lia. Qed.

Lemma position_after_bounds line column cps :
  0 <= line -> 0 <= column ->
  line <= (position_after line column cps).1 <= line + Z.of_nat (List.length cps) /\
  0 <= (position_after line column cps).2 <= column + Z.of_nat (List.length cps).
Proof.
  revert line column. induction cps as [| cp cps IH]; intros line column Hl Hc;
    cbn [position_after List.length fst snd]; [lia |].
  destruct (is_line_break cp).
  - specialize (IH (line + 1) 0). lia.
  - specialize (IH line (column + 1)). lia.
Qed.

Lemma finish_positions fuel s s' : _finish fuel s = Some s' -> _positions s' = _positions s.
Proof.
  unfold _finish. intros H. destruct (_error s); [by injection H as <- |].
  match type of H with mbind _ ?m = _ => destruct m as [s2 |] eqn:Hlex; [| done] end.
  apply lex_extends in Hlex as []. injection H as <-.
  destruct s, s2. cbn in *. done.
Qed.

Lemma subarray_pair (a : list Z) (i x y : Z) :
  0 <= i -> u32_get a i = Num x -> u32_get a (i + 1) = Num y ->
  subarray a i (i + 2) = [x; y].
Proof.
  intros Hi Hx Hy. rewrite u32_get_lookup in Hx, Hy by lia.
  destruct (a !! Z.to_nat i) as [x' |] eqn:Hx'; [| done]. injection Hx as ->.
  destruct (a !! Z.to_nat (i + 1)) as [y' |] eqn:Hy'; [| done]. injection Hy as ->.
  pose proof (lookup_lt_Some _ _ _ Hy') as Hlen.
  rewrite subarray_slice by lia.
  replace (Z.to_nat (i + 2 - i)) with 2%nat by lia.
  rewrite (drop_S _ _ _ Hx'). cbn [take]. f_equal.
  replace (Z.to_nat (i + 1)) with (S (Z.to_nat i)) in Hy' by lia.
  by rewrite (drop_S _ _ _ Hy').
Qed.

(** X10. After [fromCPs] has fed a parser the code points [cps]
    without a terminal error, [_getPositionOfToken] returns for a token the
    line and the column, both counted from 0, of the code point of [cps] at
    the index where the token before it ends (the first code point, for the
    token of index 0). *)
Theorem getPositionOfToken_after_fromCPs fuel recover cps s index k :
  fromCPs fuel recover cps = Some s ->
  _error s = None ->
  Z.of_nat (List.length cps) < 2 ^ 29 ->
  (k < List.length cps)%nat ->
  (if index =? 0 then k = 0%nat
   else u32_get (_tokens s) (index - 3) = Num (Z.of_nat k)) ->
  _getPositionOfToken index s =
    [(position_after 0 0 (take k cps)).1; (position_after 0 0 (take k cps)).2].
Proof.
  unfold fromCPs, tokenize, constructor. intros H Herr Hsmall Hk Hstart.
  rewrite !imul_small in H by lia.
  destruct (Z.ltb_spec (Z.of_nat (List.length cps)) 0) as [? | _]; [lia |].
  destruct (Z.ltb_spec (Z.of_nat (List.length cps) * 2) 0) as [? | _]; [lia |].
  destruct (Z.ltb_spec (Z.of_nat (List.length cps) * 4) 0) as [? | _]; [lia |].
  cbn [orb] in H.
  cbn [mbind option_bind write_chunks] in H.
  destruct (_write fuel cps _) as [s1 |] eqn:H1; [| done]. cbn [mbind option_bind] in H.
  assert (_finish fuel s1 = Some s) as Hfinish by (by destruct (_error s1)).
  assert (_error s1 = None) as Herr1.
  { destruct (_error s1) eqn:He; [| done]. unfold _finish in Hfinish. rewrite He in Hfinish.
    injection Hfinish as <-. congruence. }
  clear H. apply finish_positions in Hfinish.
  unfold _write in H1. cbn in H1. rewrite length_replicate in H1.
  destruct (Z.ltb_spec (Z.of_nat (Z.to_nat (Z.of_nat (List.length cps))) - 0)
              (Z.of_nat (List.length cps))); [lia |].
  cbn [mbind option_bind] in H1.
  apply write_loop_positions in H1 as (_ & _ & _ & Hreads);
    [| done | done | cbn; lia | cbn; rewrite length_replicate, imul_small; lia].
  specialize (Hreads k Hk) as [Hline Hcolumn]. cbn in Hline, Hcolumn.
  pose proof (position_after_bounds 0 0 (take k cps) ltac:(lia) ltac:(lia)) as [Hl Hc].
  rewrite length_take in Hl, Hc.
  rewrite ToUint32_small in Hline, Hcolumn by lia.
  unfold _getPositionOfToken. rewrite Hfinish.
  assert ((if index =? 0 then 0
           else imul (match u32_get (_tokens s) (index - 3) with
                      | Num n => n
                      | Undefined => 0
                      end) 2) = 2 * Z.of_nat k) as ->.
  { destruct (index =? 0); [lia |]. rewrite Hstart, imul_small; lia. }
  rewrite Z.add_0_l in Hline, Hcolumn. by apply subarray_pair; [lia | |].
Qed.

(** ** The safety valve *)

Lemma grow_pads {A} (zero : A) (length : Z) (old : list A) :
  Z.of_nat (List.length old) <= length ->
  grow zero length old =
    Some (old ++ replicate (Z.to_nat (length - Z.of_nat (List.length old))) zero).
Proof.
  intros Hlen. unfold grow.
  destruct (Z.ltb_spec length 0), (Z.ltb_spec length (Z.of_nat (List.length old)));
    try lia.
  cbn [orb]. do 3 f_equal. lia.
Qed.

(** X11. Called as [_write] calls it, when the source buffer has no
    room for [min] more code points, [_expandBuffers] throws nothing and
    loses nothing: every buffer is the old one followed by zeros, up to
    twice the greater of [_sourceLength] and [min] code points, which leaves
    room for [min] more; no other field changes. *)
Theorem expandBuffers_makes_room min s n :
  capacity n s ->
  n - _sourceLength s < min ->
  Z.max (_sourceLength s) min < 2 ^ 28 ->
  let n' := 2 * Z.max (_sourceLength s) min in
  let pad := fun k => Z.to_nat (k * (n' - n)) in
  n < n' /\ min <= n' - _sourceLength s /\
  _expandBuffers min s =
    Some (s |> set_floatValues (_floatValues s ++ replicate (pad 1) Zero)
            |> set_intValues (_intValues s ++ replicate (pad 1) (StoreInt32 Zero))
            |> set_positions (_positions s ++ replicate (pad 2) 0)
            |> set_source (_source s ++ replicate (pad 1) 0)
            |> set_stringValues (_stringValues s ++ replicate (pad 1) 0)
            |> set_tokens (_tokens s ++ replicate (pad 4) 0)).
Proof.
  intros (Hf & Hi & Hp & Hsrc & Hsv & Ht) Htest Hsmall n' pad.
  assert (0 <= n) by lia.
  split; [lia |]. split; [lia |].
  unfold _expandBuffers. cbv zeta.
  rewrite (imul_small (Z.max _ _) 2) by lia.
  replace (Z.max (_sourceLength s) min * 2) with n' by lia.
  rewrite (imul_small n' 2), (imul_small n' 4) by lia.
  rewrite !grow_pads by lia. cbn [mbind option_bind].
  rewrite Hf, Hi, Hp, Hsrc, Hsv, Ht. subst pad. cbn beta.
  repeat (f_equal; try lia).
Qed.

(** ** A call that does not return *)

(** X12. When a hyphen-minus is followed by U+0002, the call of [_lex]
    for U+0002 does not return: the state after the hyphen takes the code
    point for the number of code points to give back, gives back two, the
    hyphen and U+0002 itself, and meets them again in the state it started
    from, at whatever depth of nested calls. *)
Theorem hyphen_before_U0002_never_returns fuel s :
  _lex s = L_delimOrNegativeSignedNumberOrCDCOrIdent ->
  u32_get (_source s) (_sourceLength s - 2) = Num 0x2D ->
  u32_get (_source s) (_sourceLength s - 1) = Num 0x02 ->
  lex fuel s (Num 0x02) = None.
Proof.
  revert s. induction fuel as [| fuel IH]; intros s Hlex Hhyphen Htwo; [done |].
  cbn [lex]. rewrite Hlex. cbn [method].
  unfold S_delimOrNegativeSignedNumberOrCDCOrIdent, _addDelimTokenWithOffset.
  cbn [eqv case_of existsb digits isNameStart gev Z.eqb Z.leb Z.compare orb
       Pos.eqb Pos.compare Pos.compare_cont fallthrough3 refeeds].
  set (s1 := _addDelimTokenWithoutOffset _ _). unfold refeed.
  assert (u32_get (_source s1) (_sourceLength s1) = Num 0x2D) as ->
    by (subst s1; destruct s; cbn in *; done).
  destruct fuel as [| fuel]; [done |].
  set (s2 := set_sourceLength (_sourceLength s1 + 1) s1).
  assert (lex (S fuel) s2 (Num 0x2D) =
            Some (s2 |> set_lex L_delimOrNegativeSignedNumberOrCDCOrIdent)) as ->
    by (subst s1 s2; by destruct s).
  cbn [mbind option_bind].
  set (s3 := s2 |> set_lex L_delimOrNegativeSignedNumberOrCDCOrIdent).
  assert (u32_get (_source s3) (_sourceLength s3) = Num 0x02) as ->.
  { subst s1 s2 s3. destruct s. cbn in *. rewrite <- Htwo. f_equal. lia. }
  rewrite IH; [done | subst s1 s2 s3; by destruct s | |].
  all: subst s1 s2 s3; destruct s; cbn in *.
  - rewrite <- Hhyphen. f_equal. lia.
  - rewrite <- Htwo. f_equal. lia.
Qed.

(** ** String tokens *)

Lemma stored_splice cps a i :
  0 <= i -> i + Z.of_nat (List.length cps) <= Z.of_nat (List.length a) ->
  stored cps a i =
    take (Z.to_nat i) a ++ map ToUint32 cps ++ drop (Z.to_nat i + List.length cps) a.
Proof.
  revert a i. induction cps as [| cp cps IH]; intros a i H0 Hroom;
    cbn [stored List.length map] in *.
  { cbn [app]. by rewrite Nat.add_0_r, take_drop. }
  rewrite IH by (rewrite ?u32_set_length; lia).
  unfold u32_set, ta_set, u32. destruct (Z.ltb_spec i 0); [lia |].
  replace (Z.to_nat (i + 1)) with (S (Z.to_nat i)) by lia.
  rewrite (take_S_r _ _ (ToUint32 cp)) by (apply list_lookup_insert_eq; lia).
  rewrite take_insert_ge by lia. rewrite drop_insert_lt by lia.
  rewrite <- app_assoc. cbn [app]. do 4 f_equal. lia.
Qed.

Lemma with_string_values_fields cps s :
  with_string_values cps s =
    s |> set_stringValues (stored cps (_stringValues s) (_stringValuesLength s))
      |> set_stringValuesLength (_stringValuesLength s + Z.of_nat (List.length cps)).
Proof.
  unfold with_string_values. revert s.
  induction cps as [| cp cps IH]; intros s; cbn [fold_left List.length stored].
  { destruct s; cbn. f_equal. lia. }
  rewrite IH. destruct s; cbn. f_equal. lia.
Qed.

Lemma string_body fuel body s :
  _lex s = L_string ->
  Forall (fun cp => cp <> _stringDelimiter s /\ cp <> 0x0A /\ cp <> 0x5C /\
                    cp <> EOF_SENTINEL) body ->
  feed (S fuel) s (map Num body) = Some (with_string_values body s).
Proof.
  unfold with_string_values. revert s.
  induction body as [| cp body IH]; intros s Hlex Hbody; [done |].
  apply Forall_cons in Hbody as [(Hq & Hlf & Hbs & Heof) Hbody].
  cbn [map feed fold_left lex]. rewrite Hlex. cbn [method]. unfold S_string.
  cbn [eqv]. unfold EOF_SENTINEL in *.
  repeat match goal with
         | |- context [?a =? ?b] => destruct (Z.eqb_spec a b); [done |]
         end.
  cbn [mbind option_bind]. apply IH; by destruct s.
Qed.

Lemma testSimpleStringValue_true index buf s start :
  u32_get (_tokens s) (index + 2) = Num start ->
  u32_get (_tokens s) (index + 3) = Num (start + Z.of_nat (List.length buf)) ->
  0 <= start ->
  take (List.length buf) (drop (Z.to_nat start) (_stringValues s)) = buf ->
  _testSimpleStringValue index buf s = true.
Proof.
  intros Hstart Hend H0 Hslice. unfold _testSimpleStringValue. rewrite Hstart, Hend.
  replace (start + Z.of_nat (List.length buf) - start) with (Z.of_nat (List.length buf))
    by lia.
  rewrite Z.eqb_refl, Nat2Z.id. cbn [negb].
  destruct buf as [| cp buf]; [done |].
  assert (Z.to_nat start + List.length (cp :: buf) <= List.length (_stringValues s))%nat.
  { apply (f_equal List.length) in Hslice. rewrite length_take, length_drop in Hslice.
    cbn [List.length] in *. lia. }
  apply test_from_slices; [lia | lia | lia | cbn; lia |].
  change (Z.to_nat 0) with 0%nat. by rewrite drop_0, Hslice, take_ge.
Qed.

(** X13. A quotation mark or an apostrophe, code points among which
    there is no such delimiter, no line feed, no backslash and no end of
    input, and the delimiter again: one STRING token is recorded, whose
    string value is these code points as they stand, and the tokenizer is
    back in its initial lexical state. *)
Theorem string_token_holds_its_contents fuel q body s :
  _lex s = L_input ->
  q = 0x22 \/ q = 0x27 ->
  Forall (fun cp => cp <> q /\ cp <> 0x0A /\ cp <> 0x5C /\ cp <> EOF_SENTINEL /\
                    0 <= cp < 2 ^ 32) body ->
  0 <= _tokensLength s ->
  _tokensLength s + 4 <= Z.of_nat (List.length (_tokens s)) ->
  0 <= _stringValuesStart s ->
  _stringValuesStart s = _stringValuesLength s ->
  _stringValuesLength s + Z.of_nat (List.length body)
    <= Z.of_nat (List.length (_stringValues s)) ->
  Z.of_nat (List.length (_stringValues s)) < 2 ^ 32 ->
  exists s',
    feed (S fuel) s (Num q :: map Num body ++ [Num q]) = Some s' /\
    _lex s' = L_input /\
    _tokensLength s' = _tokensLength s + 4 /\
    u32_get (_tokens s') (_tokensLength s) = Num STRING_TOKEN /\
    _testSimpleStringValue (_tokensLength s) body s' = true.
Proof.
  intros Hlex Hq Hbody Ht0 Ht Hs0 Hstart Hroom Hsmall.
  set (s1 := s |> set_stringDelimiter q |> set_lex L_string).
  assert (lex (S fuel) s (Num q) = Some s1) as Hopen.
  { cbn [lex]. rewrite Hlex. by destruct Hq as [-> | ->]. }
  assert (feed (S fuel) s1 (map Num body) = Some (with_string_values body s1)) as Hfeed.
  { apply string_body; [by destruct s |].
    eapply Forall_impl; [exact Hbody |]. subst s1. destruct s. cbn. tauto. }
  rewrite with_string_values_fields in Hfeed.
  match type of Hfeed with _ = Some ?x => set (s2 := x) in Hfeed end.
  exists (_addStringValueTokenWithoutOffset STRING_TOKEN s2).
  split; [| split; [| split; [| split]]].
  - cbn [feed]. rewrite Hopen. cbn [mbind option_bind]. rewrite feed_app, Hfeed.
    cbn [mbind option_bind feed lex].
    replace (_lex s2) with L_string by (subst s1 s2; by destruct s).
    cbn [method]. unfold S_string.
    replace (_stringDelimiter s2) with q by (subst s1 s2; by destruct s).
    cbn [eqv]. by rewrite Z.eqb_refl.
  - subst s1 s2. by destruct s.
  - subst s1 s2. destruct s; cbn. lia.
  - subst s1 s2. destruct s; cbn in *. read_back. done.
  - assert (map ToUint32 body = body) as Hu32.
    { clear -Hbody. induction Hbody as [| cp body (_ & _ & _ & _ & ?) _ IH]; cbn [map];
        [done |]. by rewrite ToUint32_small, IH. }
    apply (testSimpleStringValue_true _ _ _ (_stringValuesLength s)).
    + subst s1 s2. destruct s; cbn in *. subst. read_back. done.
    + subst s1 s2. destruct s; cbn in *. subst. read_back. done.
    + lia.
    + subst s1 s2. destruct s; cbn in *. rewrite stored_splice, Hu32 by lia.
      rewrite drop_app_length' by (rewrite length_take; lia).
      by rewrite take_app_length.
Qed.

(** ** The end of input *)

(** X14. The end of input does not end a name: when [_finish] finds
    the tokenizer in an identifier, an at-keyword, a hash or the unit of a
    dimension, the end-of-input sentinel counts as one more name code point
    (it is not below U+0080) and is appended to the string value; no token
    is recorded for the name, and the lexical state stays what it was. *)
Theorem end_of_input_inside_a_name_emits_no_token fuel s :
  _error s = None ->
  _lex s = L_ident \/ _lex s = L_atKeyword \/ _lex s = L_hash \/ _lex s = L_numberUnit ->
  exists s',
    _finish (S fuel) s = Some s' /\
    _tokens s' = _tokens s /\ _tokensLength s' = _tokensLength s /\
    _lex s' = _lex s /\
    _stringValues s' =
      u32_set (_stringValues s) (_stringValuesLength s) (Num EOF_SENTINEL) /\
    _stringValuesLength s' = _stringValuesLength s + 1.
Proof.
  intros Herr Hlex. unfold _finish. rewrite Herr. cbn [lex].
  match goal with |- context [method _ (_lex ?s1)] =>
    replace (_lex s1) with (_lex s) by (by destruct s)
  end.
  destruct Hlex as [Hlex | [Hlex | [Hlex | Hlex]]]; rewrite Hlex; cbn [method];
    eexists; (split; [reflexivity |]); by destruct s.
Qed.

(** X15. The end of input does not end a number either: when
    [_finish] finds the tokenizer in the digits of a number, whether before
    or after the decimal point or in the exponent, the number is committed,
    the sentinel is taken for the first code point of a unit, and no token is
    recorded. *)
Theorem end_of_input_inside_a_number_emits_no_token fuel s s' :
  _error s = None ->
  _lex s = L_number \/ _lex s = L_numberInDecimal \/ _lex s = L_numberExponent ->
  _finish (S fuel) s = Some s' ->
  _tokens s' = _tokens s /\ _tokensLength s' = _tokensLength s /\
  _lex s' = L_numberUnit /\
  _stringValuesLength s' = _stringValuesLength s + 1.
Proof.
  intros Herr Hlex H. unfold _finish in H. rewrite Herr in H. cbn [lex] in H.
  match type of H with context [method _ (_lex ?s1)] =>
    replace (_lex s1) with (_lex s) in H by (by destruct s)
  end.
  destruct Hlex as [Hlex | [Hlex | Hlex]]; rewrite Hlex in H; cbn [method] in H;
    unfold S_number, S_numberInDecimal, S_numberExponent, number_default in H;
    repeat match type of H with
           | context [if ?c then _ else _] =>
               let b := eval vm_compute in c in
               change c with b in H; cbv iota in H
           end;
    (destruct (_commitNumber 1 _) as [s1 |] eqn:H1; [| done]);
    cbn [mbind option_bind] in H;
    change (isNameStart (Num EOF_SENTINEL)) with true in H; cbv iota in H;
    injection H as <-; unfold _commitNumber in H1; run_body H1; by destruct s.
Qed.

(** ** Errors in strict mode *)

(** X16. In strict mode [_fail] returns true and sets [_error],
    and nothing else changes. The error names the module and the anchor it
    was given and the line and column reached; its snippet has at most 45
    code points and begins at most 15 code points before the token in
    progress. *)
Theorem fail_strict_sets_the_error module hash s terminal s' :
  _recover s = false ->
  0 <= _positionsLength s ->
  (forall b, previousTokenEnd s = Num b -> 0 <= b) ->
  _fail module hash s = Some (terminal, s') ->
  terminal = true /\
  exists err,
    s' = set_error (Some err) s /\
    err_module err = module /\ err_hash err = hash /\
    err_disambigLine err = _line s /\ err_disambigCol err = _column s /\
    (List.length (err_sourceText err) <= 45)%nat /\
    0 <= err_pointerPrefix err <= 15.
Proof.
  intros Hrecover Hpl Hstart H. unfold _fail in H. rewrite Hrecover in H.
  destruct (previousTokenEnd s) as [b |] eqn:Hb.
  - specialize (Hstart b eq_refl). run_body H. split; [done |].
    eexists. split; [reflexivity |]. cbn. repeat split; try lia.
    assert (0 <= _positionsLength s / 2) by (apply Z.div_pos; lia).
    unfold subarray, rel_index. rewrite length_take.
    repeat match goal with
           | |- context [?a <? ?b] => destruct (Z.ltb_spec a b)
           end; lia.
  - run_body H. split; [done |].
    eexists. split; [reflexivity |]. cbn. repeat split; lia.
Qed.

(** ** The normalized source *)

Lemma u32_set_no_FF_CR (a : list Z) (i cp : Z) :
  Forall no_FF_CR a -> no_FF_CR cp -> 0 <= cp < 2 ^ 32 ->
  Forall no_FF_CR (u32_set a i (Num cp)).
Proof.
  intros Ha Hcp H32. unfold u32_set, ta_set. destruct (i <? 0); [done |].
  apply Forall_insert; [done |]. unfold u32. by rewrite ToUint32_small.
Qed.

Lemma write_loop_no_FF_CR fuel cps s s' :
  write_loop fuel cps s = Some s' ->
  Forall (fun cp => 0 <= cp < 2 ^ 32) cps ->
  Forall no_FF_CR (_source s) -> Forall no_FF_CR (_source s').
Proof.
  revert s. induction cps as [| cp cps IH]; intros s H Hcps Hsrc; cbn [write_loop] in H.
  { by injection H as ->. }
  apply Forall_cons in Hcps as [Hcp Hcps].
  destruct (_lastCPWasCR s && (cp =? 10)); [apply IH in H; [done .. | by destruct s] |].
  set (cp' := if cp =? 0 then _ else _) in H.
  assert (no_FF_CR cp' /\ 0 <= cp' < 2 ^ 32) as [Hno H32]
    by (subst cp'; unfold no_FF_CR; repeat case_match; lia).
  clearbody cp'.
  match type of H with mbind _ ?m = _ => destruct m as [s2 |] eqn:Hlex; [| done] end.
  cbn [mbind option_bind] in H. apply lex_kept in Hlex as [Hsrc2 _ _ _ _ _ _].
  assert (Forall no_FF_CR (_source s2)) as Hs2
    by (rewrite Hsrc2; destruct s; cbn; by apply u32_set_no_FF_CR).
  destruct (_error s2); [by injection H as <- |].
  match type of H with (if ?c then _ else _) = _ => destruct c end;
    (apply IH in H; [done .. | by destruct s2]).
Qed.

(** X17. A form feed or a carriage return of the input never reaches
    the source buffer: [_write] stores a line feed in its place. Whatever
    the chunks of code points and the buffer sizes, neither U+000C nor
    U+000D is among the elements of the source buffer of the parser. *)
Theorem source_never_holds_FF_or_CR fuel recover size chunks s :
  Forall (Forall (fun cp => 0 <= cp < 2 ^ 32)) chunks ->
  tokenize fuel recover size chunks = Some s ->
  Forall (fun cp => cp <> 0x0C /\ cp <> 0x0D) (_source s).
Proof.
  intros Hchunks H. unfold tokenize in H.
  destruct (constructor recover size) as [s0 |] eqn:Hs0; [| done].
  apply constructor_fields in Hs0 as ->. cbn [mbind option_bind] in H.
  destruct (write_chunks fuel chunks _) as [s1 |] eqn:H1; [| done].
  cbn [mbind option_bind] in H.
  assert (forall s, Forall no_FF_CR (_source s) -> forall s1,
            write_chunks fuel chunks s = Some s1 -> Forall no_FF_CR (_source s1)) as Hwrite.
  { clear -Hchunks. induction Hchunks as [| cps chunks Hcps _ IH]; intros s Hs s1 H;
      cbn [write_chunks] in H; [by injection H as <- |].
    destruct (_write fuel cps s) as [s2 |] eqn:H2; [| done]. cbn [mbind option_bind] in H.
    assert (Forall no_FF_CR (_source s2)) as Hs2.
    { unfold _write in H2.
      match type of H2 with mbind _ ?m = _ => destruct m as [s3 |] eqn:H3; [| done] end.
      cbn [mbind option_bind] in H2. apply write_loop_no_FF_CR in H2; [done .. |].
      destruct (_ <? _); [| by injection H3 as <-].
      unfold _expandBuffers in H3. run_body H3.
      match goal with Hg : grow 0 _ (_source s) = Some _ |- _ =>
        unfold grow in Hg; destruct (_ || _); [done |]; injection Hg as <- end.
      destruct s; cbn in *. apply Forall_app. split; [done |].
      by apply Forall_replicate. }
    destruct (_error s2); [by injection H as <- | by eapply IH]. }
  apply Hwrite in H1; [| cbn; by apply Forall_replicate].
  unfold _finish in H. destruct (_error s1); [by injection H as <- |].
  match type of H with mbind _ ?m = _ => destruct m as [s2 |] eqn:Hlex; [| done] end.
  apply lex_kept in Hlex as [Hsrc2 _ _ _ _ _ _]. injection H as <-.
  destruct s1, s2; cbn in *. subst. by apply u32_set_no_FF_CR.
Qed.

(** ** The code point classes *)

Lemma case_of_outside cp labels :
  Forall (fun k => 0 <= k < 128) labels -> ~ (0 <= cp < 128) ->
  case_of (Num cp) labels = false.
Proof.
  intros Hlabels Hcp. unfold case_of. apply not_true_is_false.
  intros (k & Hk & [= ->]%eqv_true)%existsb_exists.
  apply Hcp. rewrite Forall_forall in Hlabels. apply Hlabels. by apply list_elem_of_In.
Qed.

Lemma below_128 (P : Z -> Prop) :
  (forall n, (n < 128)%nat -> P (Z.of_nat n)) -> forall cp, 0 <= cp < 128 -> P cp.
Proof. intros HP cp Hcp. rewrite <- (Z2Nat.id cp) by lia. apply HP. lia. Qed.

Ltac each_below_128 :=
  apply below_128;
  [ let n := fresh "n" in
    let Hn := fresh "Hn" in
    intros n Hn;
    do 128 (destruct n as [| n]; [vm_compute; repeat split; reflexivity |]); lia
  | lia ].

Ltac all_labels_small :=
  repeat (constructor; [lia |]); constructor.

(** X18. The three tables of code points written out as [switch]
    statements have no gap: a code point starts a name when it is a letter,
    a low line or not below U+0080; it continues a name when it starts one
    or is a hyphen-minus or a digit; it is a hex digit when it is a digit or
    one of the letters A to F, in either case. *)
Theorem class_tables_are_the_ranges cp :
  isNameStart (Num cp) =
    ((0x41 <=? cp) && (cp <=? 0x5A) || (cp =? 0x5F) ||
     (0x61 <=? cp) && (cp <=? 0x7A) || (0x80 <=? cp)) /\
  isNameContinue (Num cp) =
    (isNameStart (Num cp) || (cp =? 0x2D) || (0x30 <=? cp) && (cp <=? 0x39)) /\
  isHex (Num cp) =
    ((0x30 <=? cp) && (cp <=? 0x39) || (0x41 <=? cp) && (cp <=? 0x46) ||
     (0x61 <=? cp) && (cp <=? 0x66)).
Proof.
  destruct (decide (0 <= cp < 128)) as [Hcp | Hcp].
  - pattern cp. each_below_128.
  - unfold isNameStart, isNameContinue, isHex.
    rewrite !case_of_outside by first [done | all_labels_small].
    cbn [gev]. repeat split;
      repeat match goal with
             | |- context [?a <=? ?b] => destruct (Z.leb_spec a b)
             | |- context [?a =? ?b] => destruct (Z.eqb_spec a b)
             end; first [reflexivity | lia].
Qed.

(** X19. For a hex digit, the bit operations of [toHexValue] give
    the value of the digit: 0 to 9 for the digits, 10 to 15 for the letters
    A to F in either case. *)
Theorem toHexValue_is_the_digit_value cp :
  isHex (Num cp) = true ->
  toHexValue (Num cp) =
    if cp <=? 0x39 then cp - 0x30 else if cp <=? 0x46 then cp - 0x41 + 10 else cp - 0x61 + 10.
Proof.
  intros Hhex. apply isHex_cases in Hhex.
  repeat (apply elem_of_cons in Hhex as [-> | Hhex]; [vm_compute; reflexivity |]).
  by apply elem_of_nil in Hhex.
Qed.

(** ** Identifiers, through [_write] *)

Lemma normalized_not_CR cp : (normalized cp =? 0x0D) = false.
Proof. unfold normalized. repeat case_match; lia. Qed.

(** One round of the loop of [_write] for a code point on which the current
    lexical state acts as [f], a function that commutes with the bookkeeping
    of [_write] and sets no error. *)
Lemma write_loop_quiet_round fuel cp cps s (f : CSSParser -> CSSParser) :
  _lastCPWasCR s = false -> _error s = None ->
  (forall s2, rewritten s s2 -> lex fuel s2 (Num (normalized cp)) = Some (f s2)) ->
  (forall s2, rewritten s s2 ->
     rewritten (f s) (f s2) /\ _error (f s2) = _error s2 /\
     _sourceLength (f s2) = _sourceLength s2 /\ _lastCPWasCR (f s2) = _lastCPWasCR s2) ->
  exists s1,
    write_loop fuel (cp :: cps) s = write_loop fuel cps s1 /\
    rewritten (f s) s1 /\
    _sourceLength s1 = _sourceLength s + 1 /\
    _lastCPWasCR s1 = false /\ _error s1 = None.
Proof.
  intros Hcr Herr Hlex Hf. cbn [write_loop]. rewrite Hcr. cbn [andb].
  fold (normalized cp). cbv zeta. rewrite !normalized_not_CR.
  match goal with |- context [lex fuel ?s2 _] =>
    assert (rewritten s s2) as Hs2 by rewritten_step;
    assert (_error s2 = None /\ _sourceLength s2 = _sourceLength s + 1 /\
            _lastCPWasCR s2 = false) as (He2 & Hsl2 & Hcr2)
      by (destruct s; cbn in *; by repeat split);
    rewrite (Hlex s2 Hs2); destruct (Hf s2 Hs2) as (Hre & He & Hsl & Hcr');
    set (s3 := f s2) in *
  end.
  cbn [mbind option_bind]. rewrite He, He2.
  assert (forall g : CSSParser -> CSSParser,
            (forall x, rewritten x (g x) /\ _sourceLength (g x) = _sourceLength x /\
                       _lastCPWasCR (g x) = _lastCPWasCR x /\ _error (g x) = _error x) ->
            rewritten (f s) (g s3) /\ _sourceLength (g s3) = _sourceLength s + 1 /\
            _lastCPWasCR (g s3) = false /\ _error (g s3) = None) as Hg.
  { intros g Hgx. destruct (Hgx s3) as (Hr & Hgsl & Hgcr & Hgerr).
    split; [| split; [lia | split; congruence]].
    destruct Hre as (? & ? & ? & ? & ? & ? & ? & Hre), Hr as (? & ? & ? & ? & ? & ? & ? & Hr).
    rewrite Hr, Hre. destruct (f s). do 7 eexists. reflexivity. }
  destruct (_ || _); eexists; (split; [reflexivity |]).
  - apply (Hg (fun x => x |> set_line (_line x + 1) |> set_column 0)).
    intros x. split; [rewritten_step | by destruct x].
  - apply (Hg (fun x => x |> set_column (_column x + 1))).
    intros x. split; [rewritten_step | by destruct x].
Qed.

Lemma rewritten_fields s s' :
  rewritten s s' ->
  _lex s' = _lex s /\ _error s' = _error s /\
  _tokens s' = _tokens s /\ _tokensLength s' = _tokensLength s /\
  _stringValues s' = _stringValues s /\ _stringValuesLength s' = _stringValuesLength s /\
  _stringValuesStart s' = _stringValuesStart s.
Proof. intros (? & ? & ? & ? & ? & ? & ? & ->). by destruct s. Qed.

Lemma rewritten_trans s1 s2 s3 : rewritten s1 s2 -> rewritten s2 s3 -> rewritten s1 s3.
Proof.
  intros (? & ? & ? & ? & ? & ? & ? & ->) (? & ? & ? & ? & ? & ? & ? & ->).
  destruct s1. do 7 eexists. reflexivity.
Qed.

Lemma rewritten_stringValue cp s s' :
  rewritten s s' -> rewritten (_stringValue cp s) (_stringValue cp s').
Proof.
  intros (? & ? & ? & ? & ? & ? & ? & ->). destruct s. do 7 eexists. reflexivity.
Qed.

Lemma rewritten_set_lex l s s' : rewritten s s' -> rewritten (set_lex l s) (set_lex l s').
Proof.
  intros (? & ? & ? & ? & ? & ? & ? & ->). destruct s. do 7 eexists. reflexivity.
Qed.

Lemma rewritten_with_string_values cps s s' :
  rewritten s s' -> rewritten (with_string_values cps s) (with_string_values cps s').
Proof.
  unfold with_string_values. revert s s'.
  induction cps as [| cp cps IH]; intros s s' H; [done |].
  cbn [fold_left]. by apply IH, rewritten_stringValue.
Qed.

Lemma isNameStart_isNameContinue cp : isNameStart (Num cp) = true -> isNameContinue (Num cp) = true.
Proof.
  destruct (decide (0 <= cp < 128)) as [Hcp | Hcp].
  - pattern cp. apply below_128; [| done]. intros n Hn.
    do 128 (destruct n as [| n]; [vm_compute; tauto |]). lia.
  - unfold isNameStart, isNameContinue.
    by rewrite !case_of_outside by first [done | all_labels_small].
Qed.

(** A code point that starts a name is none of those [$input] has a case
    for, the end-of-input sentinel apart. *)
Lemma input_name_start lex cp s :
  isNameStart (Num cp) = true -> cp <> EOF_SENTINEL ->
  S_input lex (Num cp) s = _reconsumeCurrentCP lex L_ident (Num cp) s.
Proof.
  intros Hstart Heof. unfold S_input, case_of, digits. cbn [existsb eqv].
  repeat match goal with
         | |- context [cp =? ?k] =>
             destruct (Z.eqb_spec cp k) as [-> | ?]; [by vm_compute in Hstart |]
         end.
  cbn [orb]. destruct (Z.eqb_spec cp EOF_SENTINEL); [done |]. by rewrite Hstart.
Qed.

Lemma ident_first fuel cp s :
  _lex s = L_input -> isNameStart (Num cp) = true -> cp <> EOF_SENTINEL ->
  lex (S (S fuel)) s (Num cp) = Some (s |> set_lex L_ident |> _stringValue (Num cp)).
Proof.
  intros Hlex Hstart Heof. cbn [lex]. rewrite Hlex. cbn [method].
  rewrite input_name_start by done. unfold _reconsumeCurrentCP. cbn [lex].
  replace (_lex (set_lex L_ident s)) with L_ident by (by destruct s).
  cbn [method]. unfold S_ident. by rewrite isNameStart_isNameContinue.
Qed.

Lemma ident_next fuel cp s :
  _lex s = L_ident -> isNameContinue (Num cp) = true ->
  lex (S fuel) s (Num cp) = Some (s |> _stringValue (Num cp)).
Proof. intros Hlex Hcont. cbn [lex]. rewrite Hlex. cbn [method]. unfold S_ident. by rewrite Hcont. Qed.

Lemma normalized_name cp : isNameContinue (Num cp) = true -> normalized cp = cp.
Proof.
  intros H. unfold normalized.
  destruct (Z.eqb_spec cp 0) as [-> | ?]; [by vm_compute in H |].
  destruct (Z.eqb_spec cp 12) as [-> | ?]; [by vm_compute in H |].
  destruct (Z.eqb_spec cp 13) as [-> | ?]; [by vm_compute in H | done].
Qed.

Lemma rewritten_refl s : rewritten s s.
Proof. destruct s. do 7 eexists. reflexivity. Qed.

(** The code points of a name, written while an identifier is in progress,
    are appended to the string values. *)
Lemma write_loop_name fuel cs rest s :
  _lex s = L_ident -> _lastCPWasCR s = false -> _error s = None ->
  Forall (fun cp => isNameContinue (Num cp) = true) cs ->
  exists s1,
    write_loop (S fuel) (cs ++ rest) s = write_loop (S fuel) rest s1 /\
    rewritten (with_string_values cs s) s1 /\
    _sourceLength s1 = _sourceLength s + Z.of_nat (List.length cs) /\
    _lastCPWasCR s1 = false /\ _error s1 = None.
Proof.
  revert s. induction cs as [| c cs IH]; intros s Hlex Hcr Herr Hcs.
  { exists s. cbn. split; [done |]. split; [apply rewritten_refl |]. split; [lia | done]. }
  apply Forall_cons in Hcs as [Hc Hcs].
  destruct (write_loop_quiet_round (S fuel) c (cs ++ rest) s (_stringValue (Num c)))
    as (s1 & Hstep & Hre1 & Hsl1 & Hcr1 & Herr1); try done.
  { intros s2 (Hlex2 & _)%rewritten_fields. rewrite normalized_name by done.
    apply ident_next; congruence. }
  { intros s2 Hs2. split; [by apply rewritten_stringValue | by destruct s2]. }
  destruct (IH s1) as (s2 & Hrun & Hre2 & Hsl2 & Hcr2 & Herr2); try done.
  { apply rewritten_fields in Hre1 as (-> & _). by destruct s. }
  exists s2. cbn [app]. rewrite Hstep, Hrun. split; [done |].
  split; [| split; [cbn [List.length]; lia | done]].
  eapply rewritten_trans; [| exact Hre2].
  by apply (rewritten_with_string_values cs) in Hre1.
Qed.

Lemma takes_agree (a a' : list Z) (n : Z) :
  List.length a' = List.length a ->
  (forall i, i < n -> u32_get a' i = u32_get a i) ->
  take (Z.to_nat n) a' = take (Z.to_nat n) a.
Proof.
  intros Hlen Hget. apply list_eq. intros k.
  destruct (decide (k < Z.to_nat n)%nat) as [Hk | Hk].
  - rewrite !lookup_take_lt by done.
    specialize (Hget (Z.of_nat k) ltac:(lia)). rewrite !u32_get_lookup, !Nat2Z.id in Hget by lia.
    destruct (a' !! k) as [x |] eqn:Hx, (a !! k) as [y |] eqn:Hy; try done.
    by injection Hget as ->.
  - by rewrite !lookup_take_ge by lia.
Qed.

(** A token with a string value, emitted with one code point to give back:
    its four slots and the string values it delimits are in place when the
    emitter returns, after the code point has been lexed again. *)
Lemma addStringValueTokenWithOffset_recorded fuel tokenType s s' :
  _addStringValueTokenWithOffset (lex fuel) tokenType 1 s = Some s' ->
  0 <= _tokensLength s -> _tokensLength s + 4 <= Z.of_nat (List.length (_tokens s)) ->
  0 <= tokenType < 2 ^ 32 -> 0 <= _sourceLength s - 1 < 2 ^ 32 ->
  0 <= _stringValuesStart s -> _stringValuesLength s < 2 ^ 32 ->
  _stringValuesStart s <= _stringValuesLength s ->
  _tokensLength s + 4 <= _tokensLength s' /\
  u32_get (_tokens s') (_tokensLength s) = Num tokenType /\
  u32_get (_tokens s') (_tokensLength s + 1) = Num (_sourceLength s - 1) /\
  u32_get (_tokens s') (_tokensLength s + 2) = Num (_stringValuesStart s) /\
  u32_get (_tokens s') (_tokensLength s + 3) = Num (_stringValuesLength s) /\
  take (Z.to_nat (_stringValuesLength s)) (_stringValues s') =
    take (Z.to_nat (_stringValuesLength s)) (_stringValues s).
Proof.
  intros H Ht0 Ht Htype Hsl Hs0 Hs32 Hstart.
  unfold _addStringValueTokenWithOffset in H. cbn [Z.eqb Pos.eqb refeeds] in H.
  match type of H with mbind _ (mbind _ ?m) = _ => destruct m as [s2 |] eqn:H2; [| done] end.
  cbn [mbind option_bind] in H. injection H as <-.
  unfold refeed in H2. apply lex_extends in H2 as [Htl Htok _ _ _ _ _ _ _ Hstr Hsize].
  destruct s; cbn in *. destruct Hstr as (_ & _ & Hsv); [lia |].
  destruct s2; cbn in *. rewrite !Htok by lia.
  repeat split; try lia; try (read_back; first [done | f_equal; lia]).
  by apply takes_agree.
Qed.

(** The last round of the loop of [_write]. *)
Lemma write_loop_last fuel cp s s' :
  write_loop fuel [cp] s = Some s' -> _lastCPWasCR s = false ->
  exists s1 s2,
    rewritten s s1 /\ _sourceLength s1 = _sourceLength s + 1 /\
    lex fuel s1 (Num (normalized cp)) = Some s2 /\ rewritten s2 s'.
Proof.
  intros H Hcr. cbn [write_loop] in H. rewrite Hcr in H. cbn [andb] in H.
  fold (normalized cp) in H.
  match type of H with mbind _ (lex _ ?x _) = _ =>
    exists x; destruct (lex fuel x (Num (normalized cp))) as [s2 |] eqn:Hlex; [| done]
  end.
  exists s2. cbn [mbind option_bind] in H.
  split; [rewritten_step |]. split; [by destruct s |]. split; [done |].
  destruct (_error s2); [injection H as <-; apply rewritten_refl |].
  destruct (_ || _); injection H as <-; rewritten_step.
Qed.

(** X20. An identifier written to the parser, followed by a code
    point that cannot go on with it and is neither a backslash nor a left
    parenthesis: when [_write] returns, an IDENT token is recorded whose end
    is the source index after the identifier and whose string value is the
    code points of the identifier, whatever the code point that followed has
    set off. *)
Theorem ident_token_holds_its_name fuel c cs t s s' :
  write_loop (S (S fuel)) (c :: cs ++ [t]) s = Some s' ->
  _lex s = L_input -> _lastCPWasCR s = false -> _error s = None ->
  isNameStart (Num c) = true -> c <> EOF_SENTINEL ->
  Forall (fun cp => isNameContinue (Num cp) = true) cs ->
  Forall (fun cp => 0 <= cp < 2 ^ 32) (c :: cs) ->
  isNameContinue (Num (normalized t)) = false ->
  normalized t <> 0x5C -> normalized t <> 0x28 ->
  0 <= _tokensLength s -> _tokensLength s + 4 <= Z.of_nat (List.length (_tokens s)) ->
  0 <= _sourceLength s -> _sourceLength s + Z.of_nat (List.length (c :: cs)) < 2 ^ 32 ->
  0 <= _stringValuesStart s -> _stringValuesStart s = _stringValuesLength s ->
  _stringValuesLength s + Z.of_nat (List.length (c :: cs))
    <= Z.of_nat (List.length (_stringValues s)) ->
  Z.of_nat (List.length (_stringValues s)) < 2 ^ 32 ->
  let i := _tokensLength s in
  i + 4 <= _tokensLength s' /\
  u32_get (_tokens s') i = Num IDENT_TOKEN /\
  u32_get (_tokens s') (i + 1) = Num (_sourceLength s + Z.of_nat (List.length (c :: cs))) /\
  _testSimpleStringValue i (c :: cs) s' = true.
Proof.
  intros H Hlex Hcr Herr Hc Heof Hcs H32 Ht Hbs Hlp Ht0 Htok Hsl0 Hsl Hs0 Hstart Hroom Hsmall i.
  set (name := c :: cs) in *.
  assert (isNameContinue (Num c) = true) as Hc' by (by apply isNameStart_isNameContinue).
  destruct (write_loop_quiet_round (S (S fuel)) c (cs ++ [t]) s
              (fun x => x |> set_lex L_ident |> _stringValue (Num c)))
    as (s1 & Hstep & Hre1 & Hsl1 & Hcr1 & Herr1); try done.
  { intros s2 (Hlex2 & _)%rewritten_fields. rewrite normalized_name by done.
    apply ident_first; congruence. }
  { intros s2 Hs2. split; [by apply rewritten_stringValue, rewritten_set_lex | by destruct s2]. }
  rewrite Hstep in H.
  destruct (write_loop_name (S fuel) cs [t] s1) as (s2 & Hrun & Hre2 & Hsl2 & Hcr2 & Herr2);
    try done.
  { apply rewritten_fields in Hre1 as (-> & _). by destruct s. }
  rewrite Hrun in H.
  apply (rewritten_with_string_values cs) in Hre1.
  pose proof (rewritten_trans _ _ _ Hre1 Hre2) as Hre.
  change (with_string_values cs (_stringValue (Num c) (set_lex L_ident s)))
    with (with_string_values name (set_lex L_ident s)) in Hre.
  rewrite with_string_values_fields in Hre.
  apply write_loop_last in H as (s3 & s4 & Hre3 & Hsl3 & H & Hre4); [| done].
  pose proof (rewritten_trans _ _ _ Hre Hre3) as Hs3.
  apply rewritten_fields in Hs3 as (Hlex3 & _ & Htok3 & Htl3 & Hsv3 & Hsvl3 & Hstart3).
  change (lex (S (S fuel)) s3 (Num (normalized t)))
    with (method (lex (S fuel)) (_lex s3) (Num (normalized t)) s3) in H.
  rewrite Hlex3 in H. replace (_lex _) with L_ident in H by (by destruct s).
  cbn [method] in H. unfold S_ident in H. rewrite Ht in H. cbn [eqv] in H.
  rewrite (proj2 (Z.eqb_neq _ _) Hbs), (proj2 (Z.eqb_neq _ _) Hlp) in H.
  assert (_tokens s3 = _tokens s /\ _tokensLength s3 = _tokensLength s /\
          _stringValuesStart s3 = _stringValuesStart s /\
          _stringValuesLength s3 = _stringValuesLength s + Z.of_nat (List.length name) /\
          _stringValues s3 = stored name (_stringValues s) (_stringValuesLength s))
    as (Htok3' & Htl3' & Hstart3' & Hsvl3' & Hsv3').
  { rewrite Htok3, Htl3, Hstart3, Hsvl3, Hsv3. by destruct s. }
  assert (Z.of_nat (List.length name) = Z.of_nat (List.length cs) + 1) as Hname
    by (subst name; cbn [List.length]; lia).
  apply addStringValueTokenWithOffset_recorded in H
    as (Htl4 & Hkind & Hend & Hsv1 & Hsv2 & Htake);
    [| rewrite ?Htok3', ?Htl3', ?Hstart3', ?Hsvl3'; unfold IDENT_TOKEN; lia ..].
  apply rewritten_fields in Hre4 as (_ & _ & Htok' & Htl' & Hsv' & _ & _).
  rewrite Htl3', ?Hstart3', ?Hsvl3' in *. rewrite <- Htok' in *. rewrite <- Hsv' in Htake.
  subst i. split; [lia |]. split; [done |]. split; [rewrite Hend; f_equal; lia |].
  apply (testSimpleStringValue_true _ _ _ (_stringValuesLength s)).
  - by rewrite Hsv1, Hstart.
  - done.
  - lia.
  - rewrite take_drop_commute.
    replace (Z.to_nat (_stringValuesLength s) + List.length name)%nat
      with (Z.to_nat (_stringValuesLength s + Z.of_nat (List.length name))) by lia.
    rewrite Htake, Hsv3', stored_splice by lia.
    assert (map ToUint32 name = name) as ->.
    { clear -H32. induction H32 as [| cp l ? _ IH]; cbn [map]; [done |].
      by rewrite ToUint32_small, IH. }
    rewrite app_assoc, take_app_length' by (rewrite length_app, length_take; lia).
    by rewrite drop_app_length' by (rewrite length_take; lia).
Qed.

(** ** White space and comments, through [_write] *)

Lemma write_loop_spaces fuel ws rest s :
  _lex s = L_whitespace -> _lastCPWasCR s = false -> _error s = None ->
  Forall (fun cp => is_space cp = true) ws ->
  exists s1,
    write_loop (S fuel) (ws ++ rest) s = write_loop (S fuel) rest s1 /\
    rewritten s s1 /\
    _sourceLength s1 = _sourceLength s + Z.of_nat (List.length ws) /\
    _lastCPWasCR s1 = false /\ _error s1 = None.
Proof.
  revert s. induction ws as [| w ws IH]; intros s Hlex Hcr Herr Hws.
  { exists s. cbn. split; [done |]. split; [apply rewritten_refl |]. split; [lia | done]. }
  apply Forall_cons in Hws as [Hw Hws].
  destruct (write_loop_quiet_round (S fuel) w (ws ++ rest) s (fun x => x))
    as (s1 & Hstep & Hre1 & Hsl1 & Hcr1 & Herr1); try done.
  { intros s2 (Hlex2 & _)%rewritten_fields. cbn [lex]. rewrite Hlex2, Hlex. cbn [method].
    unfold S_whitespace. unfold is_space in Hw. by rewrite Hw. }
  destruct (IH s1) as (s2 & Hrun & Hre2 & Hsl2 & Hcr2 & Herr2); try done.
  { apply rewritten_fields in Hre1 as (-> & _). done. }
  exists s2. cbn [app]. rewrite Hstep, Hrun. split; [done |].
  split; [by eapply rewritten_trans |]. split; [cbn [List.length]; lia | done].
Qed.

Lemma addWhitespaceToken_recorded fuel cp s s' :
  _addWhitespaceToken (lex fuel) cp s = Some s' ->
  0 <= _tokensLength s -> _tokensLength s + 4 <= Z.of_nat (List.length (_tokens s)) ->
  0 <= _sourceLength s - 1 < 2 ^ 32 ->
  _tokensLength s + 4 <= _tokensLength s' /\
  u32_get (_tokens s') (_tokensLength s) = Num WHITESPACE_TOKEN /\
  u32_get (_tokens s') (_tokensLength s + 1) = Num (_sourceLength s - 1).
Proof.
  intros H Ht0 Ht Hsl. unfold _addWhitespaceToken in H.
  match type of H with match _error ?x with _ => _ end = _ => set (s1 := x) in H end.
  assert (_tokensLength s1 = _tokensLength s + 4 /\
          u32_get (_tokens s1) (_tokensLength s) = Num WHITESPACE_TOKEN /\
          u32_get (_tokens s1) (_tokensLength s + 1) = Num (_sourceLength s - 1))
    as (Htl1 & Hkind & Hend).
  { subst s1. destruct s; cbn in *. split; [lia |].
    split; read_back; rewrite ?ToUint32_small by (unfold WHITESPACE_TOKEN; lia); done. }
  clearbody s1. destruct (_error s1).
  { injection H as <-. destruct s1; cbn in *. split; [lia | done]. }
  destruct (lex fuel s1 cp) as [s2 |] eqn:Hlex; [| done]. injection H as <-.
  apply lex_extends in Hlex as [Htl Htok _ _ _ _ _ _ _ _ _].
  destruct s2; cbn in *. rewrite !Htok by lia. split; [lia | done].
Qed.

(** X21. A run of white space written to the parser, followed by a
    code point that is no white space: when [_write] returns, one WHITESPACE
    token is recorded for the whole run, and its end is the source index
    after the run. *)
Theorem whitespace_run_is_one_token fuel w ws t s s' :
  write_loop (S fuel) (w :: ws ++ [t]) s = Some s' ->
  _lex s = L_input -> _lastCPWasCR s = false -> _error s = None ->
  Forall (fun cp => is_space cp = true) (w :: ws) ->
  is_space t = false ->
  0 <= _tokensLength s -> _tokensLength s + 4 <= Z.of_nat (List.length (_tokens s)) ->
  0 <= _sourceLength s -> _sourceLength s + Z.of_nat (List.length (w :: ws)) < 2 ^ 32 ->
  let i := _tokensLength s in
  i + 4 <= _tokensLength s' /\
  u32_get (_tokens s') i = Num WHITESPACE_TOKEN /\
  u32_get (_tokens s') (i + 1) = Num (_sourceLength s + Z.of_nat (List.length (w :: ws))).
Proof.
  intros H Hlex Hcr Herr Hws Ht Ht0 Htok Hsl0 Hsl i.
  apply Forall_cons in Hws as [Hw Hws]. cbn [List.length] in *.
  destruct (write_loop_quiet_round (S fuel) w (ws ++ [t]) s (set_lex L_whitespace))
    as (s1 & Hstep & Hre1 & Hsl1 & Hcr1 & Herr1); try done.
  { intros s2 (Hlex2 & _)%rewritten_fields. cbn [lex]. rewrite Hlex2, Hlex. cbn [method].
    unfold S_input. unfold is_space in Hw. by rewrite Hw. }
  { intros s2 Hs2. split; [by apply rewritten_set_lex | by destruct s2]. }
  rewrite Hstep in H.
  destruct (write_loop_spaces fuel ws [t] s1) as (s2 & Hrun & Hre2 & Hsl2 & Hcr2 & Herr2);
    try done.
  { apply rewritten_fields in Hre1 as (-> & _). by destruct s. }
  rewrite Hrun in H.
  pose proof (rewritten_trans _ _ _ Hre1 Hre2) as Hre.
  apply write_loop_last in H as (s3 & s4 & Hre3 & Hsl3 & H & Hre4); [| done].
  pose proof (rewritten_trans _ _ _ Hre Hre3) as Hs3.
  apply rewritten_fields in Hs3 as (Hlex3 & _ & Htok3 & Htl3 & _).
  change (lex (S fuel) s3 (Num (normalized t)))
    with (method (lex fuel) (_lex s3) (Num (normalized t)) s3) in H.
  rewrite Hlex3 in H. replace (_lex _) with L_whitespace in H by (by destruct s).
  cbn [method] in H. unfold S_whitespace in H. unfold is_space in Ht. rewrite Ht in H.
  assert (_tokens s3 = _tokens s /\ _tokensLength s3 = _tokensLength s) as [Htok3' Htl3']
    by (rewrite Htok3, Htl3; by destruct s).
  apply addWhitespaceToken_recorded in H as (Htl4 & Hkind & Hend);
    [| rewrite ?Htok3', ?Htl3'; lia ..].
  apply rewritten_fields in Hre4 as (_ & _ & Htok' & Htl' & _).
  rewrite Htl3' in *. rewrite <- Htok', <- Htl' in *.
  subst i. split; [lia |]. split; [done |]. rewrite Hend. f_equal. lia.
Qed.

Lemma write_loop_last_returns fuel cp s (g : CSSParser -> CSSParser) :
  _lastCPWasCR s = false ->
  (forall s1, rewritten s s1 -> _sourceLength s1 = _sourceLength s + 1 ->
     lex fuel s1 (Num (normalized cp)) = Some (g s1)) ->
  exists s1 s',
    rewritten s s1 /\ _sourceLength s1 = _sourceLength s + 1 /\
    write_loop fuel [cp] s = Some s' /\ rewritten (g s1) s'.
Proof.
  intros Hcr Hlex. cbn [write_loop]. rewrite Hcr. cbn [andb]. fold (normalized cp).
  match goal with |- context [lex fuel ?x _] =>
    assert (rewritten s x) as Hre by rewritten_step;
    assert (_sourceLength x = _sourceLength s + 1) as Hsl by (by destruct s);
    exists x; rewrite (Hlex x Hre Hsl); clear Hlex; generalize dependent x
  end.
  intros x Hre Hsl. generalize (g x). intros y. cbn [mbind option_bind].
  destruct (_error y).
  { exists y. repeat split; try done. apply rewritten_refl. }
  destruct (_ || _); eexists; (repeat split; [done .. |]); rewritten_step.
Qed.

Lemma normalized_other cp k :
  cp <> k -> k <> 0x0A -> k <> 0xFFFD -> (normalized cp =? k) = false.
Proof.
  intros Hcp H1 H2. unfold normalized.
  repeat match goal with |- context [if ?b then _ else _] => destruct b end; lia.
Qed.

Lemma write_loop_comment_body fuel body rest s :
  _lex s = L_comment -> _lastCPWasCR s = false -> _error s = None ->
  Forall (fun cp => cp <> 0x2A /\ cp <> EOF_SENTINEL) body ->
  exists s1,
    write_loop (S fuel) (body ++ rest) s = write_loop (S fuel) rest s1 /\
    rewritten s s1 /\
    _sourceLength s1 = _sourceLength s + Z.of_nat (List.length body) /\
    _lastCPWasCR s1 = false /\ _error s1 = None.
Proof.
  revert s. induction body as [| b body IH]; intros s Hlex Hcr Herr Hbody.
  { exists s. cbn. split; [done |]. split; [apply rewritten_refl |]. split; [lia | done]. }
  apply Forall_cons in Hbody as [[Hb1 Hb2] Hbody].
  destruct (write_loop_quiet_round (S fuel) b (body ++ rest) s (fun x => x))
    as (s1 & Hstep & Hre1 & Hsl1 & Hcr1 & Herr1); try done.
  { intros s2 (Hlex2 & _)%rewritten_fields. cbn [lex]. rewrite Hlex2, Hlex. cbn [method].
    unfold S_comment. cbn [eqv].
    rewrite !normalized_other by (unfold EOF_SENTINEL in *; lia). done. }
  destruct (IH s1) as (s2 & Hrun & Hre2 & Hsl2 & Hcr2 & Herr2); try done.
  { apply rewritten_fields in Hre1 as (-> & _). done. }
  exists s2. cbn [app]. rewrite Hstep, Hrun. split; [done |].
  split; [by eapply rewritten_trans |]. split; [cbn [List.length]; lia | done].
Qed.

(** X22. A comment whose body holds no asterisk, written to the
    parser in one piece while it expects a new token: [_write] returns, with
    one COMMENT token recorded whose end is the source index after the
    closing solidus; the string values are untouched, no error is raised and
    the parser expects a new token again. *)
Theorem comment_is_one_token fuel body s :
  _lex s = L_input -> _lastCPWasCR s = false -> _error s = None ->
  Forall (fun cp => cp <> 0x2A /\ cp <> EOF_SENTINEL) body ->
  0 <= _tokensLength s -> _tokensLength s + 4 <= Z.of_nat (List.length (_tokens s)) ->
  0 <= _sourceLength s -> _sourceLength s + Z.of_nat (List.length body) + 4 < 2 ^ 32 ->
  exists s',
    write_loop (S fuel) (0x2F :: 0x2A :: body ++ [0x2A; 0x2F]) s = Some s' /\
    _tokensLength s' = _tokensLength s + 4 /\
    u32_get (_tokens s') (_tokensLength s) = Num COMMENT_TOKEN /\
    u32_get (_tokens s') (_tokensLength s + 1) =
      Num (_sourceLength s + Z.of_nat (List.length body) + 4) /\
    _lex s' = L_input /\ _error s' = None /\
    _stringValues s' = _stringValues s /\
    _stringValuesLength s' = _stringValuesLength s.
Proof.
  intros Hlex Hcr Herr Hbody Ht0 Htok Hsl0 Hsl.
  destruct (write_loop_quiet_round (S fuel) 0x2F (0x2A :: body ++ [0x2A; 0x2F]) s
              (set_lex L_delimOrComment))
    as (s1 & Hstep1 & Hre1 & Hsl1 & Hcr1 & Herr1); try done.
  { intros s2 (Hlex2 & _)%rewritten_fields. cbn [lex]. by rewrite Hlex2, Hlex. }
  { intros s2 Hs2. split; [by apply rewritten_set_lex | by destruct s2]. }
  pose proof Hre1 as (Hlex1 & _)%rewritten_fields.
  replace (_lex (set_lex _ s)) with L_delimOrComment in Hlex1 by (by destruct s).
  destruct (write_loop_quiet_round (S fuel) 0x2A (body ++ [0x2A; 0x2F]) s1
              (set_lex L_comment))
    as (s2 & Hstep2 & Hre2 & Hsl2 & Hcr2 & Herr2); try done.
  { intros s2 (Hlex2 & _)%rewritten_fields. cbn [lex]. by rewrite Hlex2, Hlex1. }
  { intros s2 Hs2. split; [by apply rewritten_set_lex | by destruct s2]. }
  pose proof Hre2 as (Hlex2 & _)%rewritten_fields.
  replace (_lex (set_lex _ s1)) with L_comment in Hlex2 by (by destruct s1).
  destruct (write_loop_comment_body fuel body [0x2A; 0x2F] s2)
    as (s3 & Hstep3 & Hre3 & Hsl3 & Hcr3 & Herr3); try done.
  pose proof Hre3 as (Hlex3 & _)%rewritten_fields. rewrite Hlex2 in Hlex3.
  destruct (write_loop_quiet_round (S fuel) 0x2A [0x2F] s3 (set_lex L_commentAfterAsterisk))
    as (s4 & Hstep4 & Hre4 & Hsl4 & Hcr4 & Herr4); try done.
  { intros s5 (Hlex5 & _)%rewritten_fields. cbn [lex]. by rewrite Hlex5, Hlex3. }
  { intros s5 Hs5. split; [by apply rewritten_set_lex | by destruct s5]. }
  pose proof Hre4 as (Hlex4 & _)%rewritten_fields.
  replace (_lex (set_lex _ s3)) with L_commentAfterAsterisk in Hlex4 by (by destruct s3).
  destruct (write_loop_last_returns (S fuel) 0x2F s4
              (_addGeneralTokenWithoutOffset COMMENT_TOKEN))
    as (s5 & s' & Hre5 & Hsl5 & Hstep5 & Hre');  try done.
  { intros s5 (Hlex5 & _)%rewritten_fields _. cbn [lex]. by rewrite Hlex5, Hlex4. }
  exists s'. rewrite Hstep1, Hstep2, Hstep3, Hstep4, Hstep5. split; [done |].
  assert (rewritten (set_lex L_commentAfterAsterisk
                       (set_lex L_comment (set_lex L_delimOrComment s))) s5) as Hall.
  { eapply rewritten_trans; [| exact Hre5]. eapply rewritten_trans; [| exact Hre4].
    apply rewritten_set_lex. eapply rewritten_trans; [| exact Hre3].
    eapply rewritten_trans; [| exact Hre2]. by apply rewritten_set_lex. }
  apply rewritten_fields in Hall as (_ & Herr5 & Htok5 & Htl5 & Hsv5 & Hsvl5 & _).
  apply rewritten_fields in Hre' as (Hlex' & Herr' & Htok' & Htl' & Hsv' & Hsvl' & _).
  rewrite Hlex', Herr', Htok', Htl', Hsv', Hsvl'.
  assert (_sourceLength s5 = _sourceLength s + Z.of_nat (List.length body) + 4) as Hsrc by lia.
  clear - Herr5 Htok5 Htl5 Hsv5 Hsvl5 Hsrc Herr Ht0 Htok Hsl0 Hsl.
  destruct s5, s; cbn in *. subst.
  split; [lia |]. split; [read_back; rewrite ?ToUint32_small by (unfold COMMENT_TOKEN; lia); done |].
  split; [read_back; rewrite ?ToUint32_small by lia; done |]. done.
Qed.

(** ** The value of a numeric token is the parse of its own slice *)

Lemma fits_sourceLength s : fits s -> _sourceLength s < 2 ^ 32.
Proof. by intros (_ & _ & _ & _ & _ & _ & _ & H). Qed.

Lemma number_stored_recorded isFloat v index s :
  number_stored isFloat v index s -> value_recorded isFloat v index s.
Proof.
  intros H. split; [done |]. intros -> z Hz. cbn in H. rewrite H. cbn. by rewrite Hz.
Qed.

Lemma first_kind_sound K s s' :
  first_kind K s s' ->
  K <> NUMBER_TOKEN -> K <> PERCENTAGE_TOKEN -> K <> DIMENSION_TOKEN ->
  numeric_step s s'.
Proof.
  intros [Hlt Hk] H1 H2 H3. right. split; [done |].
  repeat split; intros Hx%Hk; congruence.
Qed.

Lemma u32_get_set_kind (a : list Z) (i K k : Z) :
  0 <= K < 2 ^ 32 -> u32_get (u32_set a i (Num K)) i = Num k -> k = K.
Proof.
  intros HK. unfold u32_get, u32_set, ta_get, ta_set, u32, ToUint32.
  rewrite (Z.mod_small K) by lia.
  destruct (i <? 0) eqn:Hi; [done |].
  destruct (decide (Z.to_nat i < List.length a)%nat) as [Hin | Hout].
  - rewrite list_lookup_insert_eq by done. by intros [= <-].
  - rewrite list_insert_ge by lia. rewrite lookup_ge_None_2 by lia. done.
Qed.

Lemma token_start_set i j tokens v :
  i - 3 < j -> token_start i (u32_set tokens j v) = token_start i tokens.
Proof.
  intros Hj. unfold token_start. destruct (i =? 0); [done |].
  by rewrite u32_get_set_ne by lia.
Qed.

(** The counts stored in a [Uint32Array] are stored as they are. *)
Ltac small_indices :=
  repeat match goal with
         | |- context [ToUint32 ?n] => rewrite (ToUint32_small n) by lia
         end.

(** A slot that holds one kind of token does not hold another. *)
Ltac other_kind :=
  try (let Hx := fresh in intros Hx; exfalso; injection Hx as Hx; by vm_compute in Hx).

Section Numeric.

Variable lex : CSSParser -> value -> option CSSParser.
Hypothesis lex_ext : forall s cp s', lex s cp = Some s' -> extends s s'.
Hypothesis lex_kept : forall s cp s', lex s cp = Some s' -> kept s s'.

(** [_addNumberToken(offset)] after [_commitNumber(offset)], or later with
    as much more of an offset as the source got longer. *)
Lemma addNumberToken_sound offset s s' :
  _addNumberToken lex offset s = Some s' -> counts_ok s -> fits s' ->
  0 <= _sourceLength s - offset < 2 ^ 32 ->
  _numericTokenValue s = parse_upto (_sourceLength s - offset) (_tokensLength s) s ->
  numeric_step s s'.
Proof.
  intros H (Ht0 & Hf0 & Hi0 & Hs0 & Hsv) (Ht & Hf & Hi & Hs & Hf32 & Hi32 & Hs32 & Hsl32) He Hv.
  unfold _addNumberToken in H.
  match type of H with mbind _ ?m = _ => destruct m as [s2 |] eqn:H2; [| done] end.
  cbn [mbind option_bind] in H. injection H as <-.
  pose proof (refeeds_kept _ lex_kept _ _ _ H2) as [Hsrc _ _ _ _ _ _].
  apply (refeeds_ext _ lex_ext) in H2.
  destruct H2 as [Htl Htok Htsz Hfl Hfv Hfsz Hil Hiv Hisz _ _ _ _ _ _ _].
  unfold parse_upto in Hv. right. unfold numeric_token_sound, parse_upto.
  destruct (_numericTokenIsFloat s) eqn:Hflag.
  all: destruct s; cbn in *; subst; cbn in *.
  all: destruct s2; cbn in *; subst.
  all: split; [lia |].
  all: rewrite !Htok by lia; rewrite ?Hfv by lia; rewrite ?Hiv by lia.
  all: rewrite !u32_set_length in Htsz; rewrite ?ta_set_length in Hfsz;
    rewrite ?ta_set_length in Hisz.
  all: repeat split; intros Hkind; revert Hkind; read_back; other_kind; intros _.
  all: small_indices.
  - eexists _, true, _. do 3 (split; [reflexivity |]). cbn [Z.b2z].
    apply number_stored_recorded. unfold number_stored, parse_upto. cbn.
    rewrite Hfv by lia. read_back. do 3 f_equal.
    unfold token_start. destruct (_ =? 0); [done |]. rewrite Htok by lia. by read_back.
  - eexists _, false, _. do 3 (split; [reflexivity |]). cbn [Z.b2z].
    apply number_stored_recorded. unfold number_stored, parse_upto. cbn.
    rewrite Hiv by lia. read_back. do 4 f_equal.
    unfold token_start. destruct (_ =? 0); [done |]. rewrite Htok by lia. by read_back.
Qed.

(** [_addPercentageToken()] after [_commitNumber(1)]: the token ends with
    the percent sign, the number before it. *)
Lemma addPercentageToken_sound s :
  counts_ok s -> fits (_addPercentageToken s) -> 0 <= _sourceLength s ->
  _numericTokenValue s = parse_upto (_sourceLength s - 1) (_tokensLength s) s ->
  numeric_step s (_addPercentageToken s).
Proof.
  intros (Ht0 & Hf0 & Hi0 & Hs0 & Hsv) (Ht & Hf & Hi & Hs & Hf32 & Hi32 & Hs32 & Hsl32) He Hv.
  unfold parse_upto in Hv. right. unfold numeric_token_sound, parse_upto.
  destruct s; cbn in *; subst; cbn in *.
  rewrite !u32_set_length in Ht. rewrite ta_set_length in Hf, Hf32.
  split; [lia |].
  repeat split; intros Hkind; revert Hkind; read_back; other_kind; intros _.
  small_indices. eexists _, _. do 2 (split; [reflexivity |]).
  read_back. do 3 f_equal. by rewrite !token_start_set by lia.
Qed.

(** [_addDimensionToken(offset)] for a number committed up to an index that
    is not past the end of the token. *)
Lemma addDimensionToken_sound offset s s' k :
  _addDimensionToken lex offset s = Some s' -> counts_ok s -> fits s' ->
  0 <= k <= _sourceLength s - offset -> _sourceLength s - offset < 2 ^ 32 ->
  _numericTokenValue s = parse_upto k (_tokensLength s) s ->
  numeric_step s s'.
Proof.
  intros H (Ht0 & Hf0 & Hi0 & Hs0 & Hsv) (Ht & Hf & Hi & Hs & Hf32 & Hi32 & Hs32 & Hsl32) Hk He Hv.
  unfold _addDimensionToken in H.
  match type of H with mbind _ ?m = _ => destruct m as [s2 |] eqn:H2; [| done] end.
  cbn [mbind option_bind] in H. injection H as <-.
  pose proof (refeed_1_or_2_kept _ lex_kept _ _ _ H2) as [Hsrc _ _ _ _ _ _].
  apply (refeed_1_or_2_ext _ lex_ext) in H2.
  destruct H2 as [Htl Htok Htsz Hfl Hfv Hfsz Hil Hiv Hisz Hstr Hssz _ _ _ _ _].
  unfold parse_upto in Hv. right. unfold numeric_token_sound, parse_upto.
  destruct (_numericTokenIsFloat s) eqn:Hflag.
  all: destruct s; cbn in *; subst; cbn in *.
  all: destruct Hstr as (Hstart & Hlen & Hsvs); [lia |].
  all: destruct s2; cbn in *; subst.
  all: split; [lia |].
  all: rewrite !Htok by lia.
  all: rewrite !u32_set_length in Htsz; rewrite !u32_set_length in Hssz;
    rewrite ?ta_set_length in Hfsz; rewrite ?ta_set_length in Hisz.
  all: repeat split; intros Hkind; revert Hkind; read_back; other_kind; intros _.
  all: small_indices.
  - eexists _, k, true, _, _. split; [reflexivity |]. split; [lia |]. split; [reflexivity |].
    rewrite !Hsvs by lia. read_back. do 2 (split; [reflexivity |]). cbn [Z.b2z].
    apply number_stored_recorded. unfold number_stored, parse_upto. cbn.
    rewrite Hfv by lia. read_back. do 3 f_equal.
    unfold token_start. destruct (_ =? 0); [done |]. rewrite Htok by lia. by read_back.
  - eexists _, k, false, _, _. split; [reflexivity |]. split; [lia |]. split; [reflexivity |].
    rewrite !Hsvs by lia. read_back. do 2 (split; [reflexivity |]). cbn [Z.b2z].
    apply number_stored_recorded. unfold number_stored, parse_upto. cbn.
    rewrite Hiv by lia. read_back. do 4 f_equal.
    unfold token_start. destruct (_ =? 0); [done |]. rewrite Htok by lia. by read_back.
Qed.

End Numeric.

(** A store at or after the end of a slice does not change the slice. *)
Lemma subarray_set_beyond (a : list Z) (j b e : Z) (v : value) :
  0 <= b -> 0 <= e <= j -> subarray (u32_set a j v) b e = subarray a b e.
Proof.
  intros Hb He. unfold subarray, u32_set, ta_set.
  destruct (j <? 0) eqn:Hj; [done |]. rewrite length_insert.
  set (len := Z.of_nat (List.length a)).
  unfold rel_index. destruct (Z.ltb_spec b 0); [lia |]. destruct (Z.ltb_spec e 0); [lia |].
  apply list_eq. intros n.
  destruct (decide (n < Z.to_nat (Z.min e len - Z.min b len))%nat) as [Hn | Hn].
  - rewrite !lookup_take_lt by done. rewrite !lookup_drop.
    apply list_lookup_insert_ne. lia.
  - rewrite !lookup_take_ge by lia. done.
Qed.

Lemma token_start_nonneg i tokens :
  Forall (fun n => 0 <= n) tokens -> 0 <= token_start i tokens.
Proof.
  intros Htok. unfold token_start. destruct (i =? 0); [done |].
  unfold u32_get, ta_get. destruct (_ <? 0); [done |].
  destruct (tokens !! _) as [n |] eqn:Hn; [| done].
  by apply (Forall_lookup_1 _ _ _ _ Htok Hn).
Qed.

Lemma tokens_nonneg_set tokens i v :
  Forall (fun n => 0 <= n) tokens -> Forall (fun n => 0 <= n) (u32_set tokens i v).
Proof. apply u32_set_nonneg. Qed.

Lemma committed_upto_next k cp s :
  committed_upto k s -> call_ok s -> k <= _sourceLength s ->
  committed_upto k (next_call cp s).
Proof.
  intros [Hk Hv] (_ & Htok & _) Hle. split; [done |].
  unfold parse_upto, next_call in *. destruct s; cbn in *.
  rewrite subarray_set_beyond; [done | by apply token_start_nonneg | lia].
Qed.

Section FirstKind.

Variable lex : CSSParser -> value -> option CSSParser.
Hypothesis lex_ext : forall s cp s', lex s cp = Some s' -> extends s s'.

(** The slot of the kind, after the stores that follow it and the calls
    that follow them. *)
Ltac kind_slot Htok :=
  split; [cbn in *; lia |];
  intros k; cbn in *; rewrite Htok by lia;
  repeat rewrite u32_get_set_ne by lia;
  apply u32_get_set_kind; by vm_compute.

Lemma addDelimTokenWithOffset_first cp offset s s' :
  _addDelimTokenWithOffset lex cp offset s = Some s' -> first_kind DELIM_TOKEN s s'.
Proof.
  intros H. unfold _addDelimTokenWithOffset in H. destruct offset as [offset |]; [| done].
  match type of H with mbind _ ?m = _ => destruct m as [s2 |] eqn:H2; [| done] end.
  cbn [mbind option_bind] in H. injection H as <-.
  apply (refeeds_ext _ lex_ext) in H2. destruct H2 as [Htl Htok _ _ _ _ _ _ _ _ _ _ _ _ _ _].
  destruct s, s2. kind_slot Htok.
Qed.

Lemma addHashToken_first offset s s' :
  _addHashToken lex offset s = Some s' -> first_kind HASH_TOKEN s s'.
Proof.
  intros H. unfold _addHashToken in H.
  match type of H with mbind _ ?m = _ => destruct m as [s2 |] eqn:H2; [| done] end.
  cbn [mbind option_bind] in H. injection H as <-.
  apply (refeed_1_or_2_ext _ lex_ext) in H2.
  destruct H2 as [Htl Htok _ _ _ _ _ _ _ _ _ _ _ _ _ _].
  destruct s, s2. kind_slot Htok.
Qed.

Lemma addWhitespaceToken_first cp s s' :
  _addWhitespaceToken lex cp s = Some s' -> first_kind WHITESPACE_TOKEN s s'.
Proof.
  intros H. unfold _addWhitespaceToken in H. run_body H.
  - destruct s. split; [cbn; lia |]. intros k. cbn.
    repeat rewrite u32_get_set_ne by lia. apply u32_get_set_kind. by vm_compute.
  - match goal with H2 : lex _ _ = Some ?s2 |- _ =>
      apply lex_ext in H2; destruct H2 as [Htl Htok _ _ _ _ _ _ _ _ _ _ _ _ _ _];
      destruct s, s2
    end.
    kind_slot Htok.
Qed.

Lemma addStringValueTokenWithOffset_first K offset s s' :
  _addStringValueTokenWithOffset lex K offset s = Some s' ->
  0 <= K < 2 ^ 32 -> first_kind K s s'.
Proof.
  intros H HK. unfold _addStringValueTokenWithOffset in H.
  run_body H.
  all: repeat match goal with
         | H2 : refeeds lex _ _ = Some _ |- _ => apply (refeeds_ext _ lex_ext) in H2
         | H2 : refeed_while lex _ _ = Some _ |- _ => apply (refeed_while_ext _ lex_ext) in H2
         end.
  all: match goal with H2 : extends _ ?s2 |- _ =>
         destruct H2 as [Htl Htok _ _ _ _ _ _ _ _ _ _ _ _ _ _]; destruct s, s2
       end.
  all: split; [cbn in *; lia |];
    intros k; cbn in *; rewrite Htok by lia;
    repeat rewrite u32_get_set_ne by lia;
    by apply u32_get_set_kind.
Qed.

(** The emitters that make no call. *)
Lemma addGeneralTokenWithoutOffset_first K s :
  0 <= K < 2 ^ 32 -> first_kind K s (_addGeneralTokenWithoutOffset K s).
Proof.
  intros HK. destruct s. split; [cbn; lia |]. intros k. cbn.
  repeat rewrite u32_get_set_ne by lia. by apply u32_get_set_kind.
Qed.

Lemma addDelimTokenWithoutOffset_first cp s :
  first_kind DELIM_TOKEN s (_addDelimTokenWithoutOffset cp s).
Proof.
  destruct s. split; [cbn; lia |]. intros k. cbn.
  repeat rewrite u32_get_set_ne by lia. apply u32_get_set_kind. by vm_compute.
Qed.

Lemma addStringValueTokenWithoutOffset_first K s :
  0 <= K < 2 ^ 32 -> first_kind K s (_addStringValueTokenWithoutOffset K s).
Proof.
  intros HK. destruct s. split; [cbn; lia |]. intros k. cbn.
  repeat rewrite u32_get_set_ne by lia. by apply u32_get_set_kind.
Qed.

End FirstKind.

Lemma commitNumber_result offset s s' :
  _commitNumber offset s = Some s' ->
  s' = set_numericTokenValue (parse_upto (_sourceLength s - offset) (_tokensLength s) s) s.
Proof. unfold _commitNumber. intros H. run_body H. reflexivity. Qed.

(** The facts of the calls among the hypotheses that record no token. *)
Ltac quiet_calls :=
  repeat match goal with
         | H : _commitNumber _ _ = Some ?c |- _ => apply commitNumber_result in H; subst c
         | H : fail_then _ _ _ = Some ?c |- _ =>
             apply fail_then_result in H; destruct H as (? & ? & ->)
         | H : _fail _ _ _ = Some (_, ?c) |- _ =>
             apply fail_result in H; destruct H as (? & ? & ->)
         end.

Lemma first_kind_extends K s c s' :
  first_kind K s c -> extends c s' -> first_kind K s s'.
Proof.
  intros [Hlt Hk] [Htl Htok _ _ _ _ _ _ _ _ _ _ _ _ _ _]. split; [lia |].
  intros k. rewrite Htok by lia. apply Hk.
Qed.

Section Step.

Variable lex : CSSParser -> value -> option CSSParser.
Hypothesis lex_ext : forall s cp s', lex s cp = Some s' -> extends s s'.
Hypothesis lex_kept : forall s cp s', lex s cp = Some s' -> kept s s'.
Hypothesis lex_numeric : forall s cp s',
  lex s cp = Some s' -> call_ok s -> fits s' -> committed s -> slips s cp = false ->
  numeric_step s s'.

(** A token that is no numeric token. *)
Ltac other_token :=
  match goal with
  | H : _addDelimTokenWithOffset lex _ _ _ = Some _ |- _ =>
      apply (addDelimTokenWithOffset_first _ lex_ext) in H
  | H : _addHashToken lex _ _ = Some _ |- _ => apply (addHashToken_first _ lex_ext) in H
  | H : _addWhitespaceToken lex _ _ = Some _ |- _ =>
      apply (addWhitespaceToken_first _ lex_ext) in H
  | H : _addStringValueTokenWithOffset lex _ _ _ = Some _ |- _ =>
      apply (addStringValueTokenWithOffset_first _ lex_ext) in H; [| by vm_compute]
  | |- numeric_step _ (_addGeneralTokenWithoutOffset ?K ?x) =>
      pose proof (addGeneralTokenWithoutOffset_first K x ltac:(by vm_compute))
  | |- numeric_step _ (_stringValue _ (_addStringValueTokenWithoutOffset ?K ?x)) =>
      pose proof (addStringValueTokenWithoutOffset_first K x ltac:(by vm_compute))
  | |- numeric_step _ (set_lex _ (_addStringValueTokenWithoutOffset ?K ?x)) =>
      pose proof (addStringValueTokenWithoutOffset_first K x ltac:(by vm_compute))
  | |- numeric_step _ (_addStringValueTokenWithoutOffset ?K ?x) =>
      pose proof (addStringValueTokenWithoutOffset_first K x ltac:(by vm_compute))
  | |- numeric_step _ (_addDelimTokenWithoutOffset ?c ?x) =>
      pose proof (addDelimTokenWithoutOffset_first c x)
  end;
  match goal with
  | H : first_kind ?K _ _ |- _ =>
      apply (first_kind_sound K); [| by vm_compute ..];
      let A := fresh in let B := fresh in
      destruct H as [A B]; split; [exact A | exact B]
  end.

(** The hypotheses about the state, field by field. *)
Ltac open_state Hl Hok Hfits Hcom Hslip :=
  match goal with
  | |- numeric_step ?x _ =>
      is_var x; destruct x;
      cbn in Hl; subst;
      unfold call_ok, counts_ok in Hok; cbn in Hok;
      destruct Hok as ((? & ? & ? & ? & ?) & ? & ? & ?);
      let Hsl := fresh "Hsl" in
      pose proof (fits_sourceLength _ Hfits) as Hsl; cbn in Hsl;
      unfold committed in Hcom; cbn in Hcom;
      unfold slips in Hslip; cbn [_lex] in Hslip
  end.

Ltac call_ok_goal :=
  unfold call_ok, counts_ok, next_call; cbn;
  repeat split; first [lia | done | by apply u32_set_nonneg].

(** A call that records no token and ends outside the states of a
    number. *)
Ltac quiet_step :=
  left; split; [reflexivity |];
  intros ?; split; [call_ok_goal | exact I].

(** A call of [_lex] made before any token is recorded. *)
Ltac nested_call :=
  match goal with
  | H : lex _ _ = Some _ |- _ =>
      apply lex_numeric in H;
      [ exact H | call_ok_goal | assumption | exact I | reflexivity ]
  end.

(** Two parses of the same slice of the source. *)
Ltac slice_eq :=
  unfold parse_upto in *; cbn in *;
  rewrite ?subarray_set_beyond by first [lia | by apply token_start_nonneg];
  first
    [ reflexivity
    | assumption
    | do 2 f_equal; lia
    | match goal with
      | Hv : ?v = ParseFloat _ |- ?v = _ => rewrite Hv; do 2 f_equal; lia
      end ].

Ltac counts_goal := unfold counts_ok; cbn; lia.

(** A numeric token, emitted in the call that committed its number or in a
    later one. *)
Ltac numeric_token Hcom :=
  match goal with
  | H : _addNumberToken lex _ _ = Some _ |- _ =>
      apply (addNumberToken_sound _ lex_ext lex_kept) in H;
      [ exact H | counts_goal | assumption
      | cbn; first [ lia | destruct Hcom as [? _]; lia ]
      | first [ reflexivity | destruct Hcom as [_ Hcom]; exact Hcom ] ]
  | |- numeric_step _ (_addPercentageToken ?x) =>
      change (numeric_step x (_addPercentageToken x));
      apply addPercentageToken_sound; [counts_goal | assumption | cbn; lia | reflexivity]
  | H : _addDimensionToken lex _ ?x = Some _ |- _ =>
      match x with
      | context [set_numericTokenValue (parse_upto ?k _ _)] =>
          apply (addDimensionToken_sound _ lex_ext lex_kept _ _ _ k) in H;
          [ exact H | counts_goal | assumption | cbn; lia | cbn; lia | reflexivity ]
      end
  | H : _addDimensionToken lex _ ?x = Some _ |- _ =>
      let k := fresh "k" in
      let Hk := fresh "Hk" in
      destruct Hcom as (k & Hk & ? & Hcom); cbn in Hk;
      apply (addDimensionToken_sound _ lex_ext lex_kept _ _ _ k) in H;
      [ exact H | counts_goal | assumption | cbn; lia | cbn; lia | exact Hcom ]
  end.

(** What the state of a number owes to the next call. *)
Ltac committed_goal Hcom :=
  unfold committed, next_call; cbn; unfold unit_committed, committed_upto in *; cbn;
  first
    [ exact I
    | lia
    | split; [lia | slice_eq]
    | match goal with
      | |- context [parse_upto ?k _ _] =>
          exists k; split; [lia |]; split; [lia | slice_eq]
      end
    | let Hk := fresh "Hk" in
      let Hv := fresh "Hv" in
      destruct Hcom as [Hk Hv]; cbn in Hk;
      first
        [ split; [lia | slice_eq]
        | match type of Hv with
          | _ = parse_upto ?k _ _ =>
              exists k; cbn; split; [lia |]; split; [lia | slice_eq]
          end ]
    | let k := fresh "k" in
      let Hk := fresh "Hk" in
      destruct Hcom as (k & Hk & ? & Hcom); cbn in Hk;
      exists k; split; [lia |]; split; [lia | slice_eq] ].

(** A call that records no token and ends in a state of a number. *)
Ltac pending_step Hcom :=
  left; split; [reflexivity |];
  intros ?; split; [call_ok_goal | committed_goal Hcom].

(** A call of [_lex] for the unit, made before any token is recorded. *)
Ltac unit_call Hcom :=
  match goal with
  | H : lex _ _ = Some _ |- _ =>
      apply lex_numeric in H;
      [ exact H | call_ok_goal | assumption | committed_goal Hcom | reflexivity ]
  end.

Lemma method_numeric l cp s s' :
  method lex l cp s = Some s' -> _lex s = l ->
  call_ok s -> fits s' -> committed s -> slips s cp = false ->
  numeric_step s s'.
Proof.
  intros H Hl Hok Hfits Hcom Hslip.
  destruct l; cbn [method] in H;
    unfold S_atKeyword, S_atKeywordEscape, S_badURL, S_badURLEscape, S_cdcOrIdent,
      S_comment, S_commentAfterAsterisk, S_delimOrAtKeyword,
      S_delimOrAtKeywordAfterBackslash, S_delimOrAtKeywordAfterHyphen,
      S_delimOrAtKeywordAfterHyphenBackslash, S_delimOrCDO,
      S_delimOrCDOAfterExclamationPoint, S_delimOrCDOAfterExclamationPointHyphen,
      S_delimOrComment, S_delimOrFractionalNumber, S_delimOrHash,
      S_delimOrHashAfterBackslash, S_delimOrIdentAfterHyphenBackslash,
      S_delimOrIdentInitialEscape, S_delimOrNegativeSignedNumberOrCDCOrIdent,
      S_delimOrNegativeSignedNumberFractional, S_delimOrPositiveSignedNumber,
      S_delimOrPositiveSignedNumberFractional, S_escape, S_escapeHex, S_functionOrURL,
      S_hash, S_hashAfterHyphen, S_hashAfterHyphenBackslash, S_hashEscape, S_ident,
      S_identEscape, S_input, S_number, S_numberExponent, S_numberInDecimal,
      S_numberPossibleExponentOrUnit, S_numberPossibleExponentSignedOrUnitPlus,
      S_numberPossibleExponentSignedOrUnitHyphen, S_numberPossibleFraction,
      S_numberPossibleUnitBackslash, S_numberPossibleUnitHyphen,
      S_numberPossibleUnitHyphenBackslash, S_numberUnit, S_numberUnitEscape, S_string,
      S_stringEscape, S_url, S_urlAfterWhitespace, S_urlEscape, S_whitespace,
      fail_or, url_eof, number_default, _escape, _reconsumeCurrentCP in H;
    run_body H; quiet_calls.
  all: open_state Hl Hok Hfits Hcom Hslip.
  all: try (solve [other_token]).
  all: try (solve [quiet_step]).
  all: try (solve [nested_call]).
  all: try (solve [numeric_token Hcom]).
  all: try (solve [pending_step Hcom]).
  all: try (solve [unit_call Hcom]).
  all: try (match goal with
            | Hd : case_of _ digits = false, Hn : _ || _ = true |- _ =>
                by rewrite Hd, Hn in Hslip
            end).
  all: try (match type of Hcom with
            | match ?after with _ => _ end =>
                destruct after; try (exfalso; exact Hcom);
                first [quiet_step | pending_step Hcom | nested_call | unit_call Hcom]
            end).
  (* the FUNCTION token of [$functionOrURL], and the call after it *)
  match goal with
  | Hf : _addStringValueTokenWithOffset lex _ _ _ = Some ?c |- _ =>
      apply (addStringValueTokenWithOffset_first _ lex_ext) in Hf; [| by vm_compute];
      destruct c
  end.
  match goal with
  | Hf : first_kind _ _ _, Hc : lex ?x _ = Some _ |- numeric_step ?s0 _ =>
      apply lex_ext in Hc;
      apply (first_kind_sound FUNCTION_TOKEN); [| by vm_compute ..];
      apply (first_kind_extends _ _ _ _ (Hf : first_kind FUNCTION_TOKEN s0 x) Hc)
  end.
Qed.

End Step.



(** The transition that [slips] names: the state for [-] after an exponent
    sign that turns out to begin a unit ([1e-x]) goes on to the unit without
    [_commitNumber], which its sibling for [+] and its own branch for any
    other code point both call. The DIMENSION token gets the value committed
    last, here the constructor's 0, and not the parse of [1]. *)
Lemma exponent_hyphen_unit_not_committed :
  (fun s => (token_kinds s, _getStringValueOfNonHashToken 0 s,
             _intValuesLength s, ta_get (_intValues s) 0)) <$>
    tokenize 4 true DEFAULT_SIZE [codepoints "1e-x;"] =
  Some ([Num DIMENSION_TOKEN; Num SEMICOLON_TOKEN], codepoints "e-x",
        1, Some (StoreInt32 Zero)).
Proof. vm_compute. reflexivity. Qed.

(** ** Instances of the properties of the surrounding code *)

Lemma errors_go_where_recover_says_witness :
  exists s,
    tokenize 4 true 8 [codepoints "a b"] = Some s /\ _error s = None.
Proof.
  eexists. split; [vm_compute; reflexivity |].
  apply (errors_go_where_recover_says 4 true 8 [codepoints "a b"]).
  vm_compute. reflexivity.
Defined.

Lemma tokens_come_in_fours_witness :
  let s := new_fields true 8 in
  exists s',
    _write 4 (codepoints "a b") s = Some s' /\
    exists k, 0 <= k /\ _tokensLength s' = _tokensLength s + 4 * k.
Proof.
  intros s. eexists. split; [vm_compute; reflexivity |].
  apply (tokens_come_in_fours 4 s).
  left. exists (codepoints "a b"). vm_compute. reflexivity.
Defined.

Lemma recover_mode_reads_every_code_point_witness :
  let chunks := [codepoints "a"; codepoints " b"] in
  exists s,
    tokenize 4 true 2 chunks = Some s /\
    _positionsLength s = 2 * Z.of_nat (List.length (concat chunks)).
Proof.
  intros chunks. eexists. split; [vm_compute; reflexivity |].
  apply (recover_mode_reads_every_code_point 4 2 chunks).
  vm_compute. reflexivity.
Defined.

Lemma chunks_do_not_matter_with_room_witness :
  let chunks := [codepoints "a"; codepoints " b"] in
  Forall (Forall (fun cp => 0 <= cp)) chunks /\
  Z.of_nat (List.length (concat chunks)) <= 8 /\
  tokenize 4 true 8 chunks = tokenize 4 true 8 [concat chunks].
Proof.
  intros chunks.
  assert (Hcps : Forall (Forall (fun cp => 0 <= cp)) chunks)
    by (repeat constructor; vm_compute; discriminate).
  assert (Hsize : Z.of_nat (List.length (concat chunks)) <= 8)
    by (vm_compute; discriminate).
  split; [exact Hcps |]. split; [exact Hsize |].
  exact (chunks_do_not_matter_with_room 4 true 8 chunks Hcps Hsize).
Defined.

Lemma recorded_tokens_persist_witness :
  exists s s',
    tokenize 4 true 2 [codepoints "a "] = Some s /\
    _write 4 (codepoints "b ") s = Some s' /\
    persists s s'.
Proof.
  eexists. eexists. split; [vm_compute; reflexivity |].
  split; [vm_compute; reflexivity |].
  apply (recorded_tokens_persist 4).
  left. exists (codepoints "b "). vm_compute. reflexivity.
Defined.

Lemma testSimpleStringValue_compares_the_slice_witness :
  exists s,
    tokenize 4 true 8 [codepoints "ab "] = Some s /\
    u32_get (_tokens s) (0 + 2) = Num 0 /\
    u32_get (_tokens s) (0 + 3) = Num 2 /\
    (_testSimpleStringValue 0 (codepoints "ab") s = true <->
     2 - 0 = Z.of_nat (List.length (codepoints "ab")) /\
     subarray (_stringValues s) 0 2 = codepoints "ab").
Proof.
  eexists. split; [vm_compute; reflexivity |].
  split; [vm_compute; reflexivity |]. split; [vm_compute; reflexivity |].
  refine (testSimpleStringValue_compares_the_slice 0 (codepoints "ab") _ 0 2 _ _ _).
  - vm_compute. reflexivity.
  - vm_compute. reflexivity.
  - lia.
Defined.

Lemma token_sources_tile_the_source_witness :
  exists s,
    tokenize 4 true 8 [codepoints "a b;"] = Some s /\
    token_ends s = map Num [1; 2; 3; 4] /\
    concat (token_sources s) = take (Z.to_nat 4) (_source s).
Proof.
  eexists. split; [vm_compute; reflexivity |].
  split; [vm_compute; reflexivity |].
  refine (token_sources_tile_the_source _ [1; 2; 3; 4] _ _ _).
  - vm_compute. reflexivity.
  - cbn. lia.
  - vm_compute. discriminate.
Defined.

Lemma numeric_getters_read_back_witness :
  let number := codepoints "99999999999" in
  let s1 := new_fields true 16
              |> set_source (number ++ [0x3B; 0; 0; 0; 0])
              |> set_sourceLength 12
              |> set_numericTokenValue (ParseFloat number) in
  let s2 := new_fields true 16
              |> set_source (codepoints "12px;" ++ replicate 11 0)
              |> set_sourceLength 5
              |> set_stringValues (codepoints "px" ++ replicate 14 0)
              |> set_stringValuesLength 2
              |> set_numericTokenValue (ParseFloat (codepoints "12")) in
  room s1 /\ room s2 /\
  (exists s', _addNumberToken (lex 3) 1 s1 = Some s' /\
     _getNumberTokenIsFloat 0 s' = false /\
     _getNumericValueOfNumberToken 0 s' = OfInt (StoreInt32 (ParseFloat number)) /\
     integer_read (_getNumericValueOfNumberToken 0 s') = Some 1215752191) /\
  (exists s', _addDimensionToken (lex 3) 1 s2 = Some s' /\
     _getDimensionTokenIsFloat 0 s' = false /\
     integer_read (_getNumericValueOfDimensionToken 0 s') = Some 12) /\
  _getNumericValueOfPercentageToken 0 (_addPercentageToken s2) =
    OfFloat (ParseFloat (codepoints "12")).
Proof.
  intros number s1 s2.
  assert (Hroom1 : room s1) by (unfold room; simpl; lia).
  assert (Hroom2 : room s2) by (unfold room; simpl; lia).
  split; [exact Hroom1 |]. split; [exact Hroom2 |].
  destruct (numeric_getters_read_back 3 s1 Hroom1) as (Hnumber & _ & _).
  destruct (numeric_getters_read_back 3 s2 Hroom2) as (_ & Hdimension & Hpercentage).
  split; [| split].
  - eexists. split; [vm_compute; reflexivity |].
    match goal with |- context [_getNumberTokenIsFloat 0 ?x] =>
      destruct (Hnumber 1 x ltac:(vm_compute; reflexivity)) as (Hflag & Hvalue & Hint)
    end.
    split; [exact Hflag |]. split; [exact Hvalue |].
    exact (Hint eq_refl 99999999999 ltac:(vm_compute; reflexivity)).
  - eexists. split; [vm_compute; reflexivity |].
    match goal with |- context [_getDimensionTokenIsFloat 0 ?x] =>
      destruct (Hdimension 1 x ltac:(vm_compute; reflexivity)) as (Hflag & _ & Hint)
    end.
    split; [exact Hflag |].
    exact (Hint eq_refl 12 ltac:(vm_compute; reflexivity)).
  - exact Hpercentage.
Defined.

Lemma write_records_line_and_column_witness :
  let s := new_fields true 8 in
  let cps := [0x61; 0x0A; 0x62] in
  exists s',
    _write 4 cps s = Some s' /\
    (_line s', _column s') = position_after (_line s) (_column s) cps /\
    forall k, (k < List.length cps)%nat ->
      u32_get (_positions s') (_positionsLength s + 2 * Z.of_nat k) =
        Num (ToUint32 (position_after (_line s) (_column s) (take k cps)).1) /\
      u32_get (_positions s') (_positionsLength s + 2 * Z.of_nat k + 1) =
        Num (ToUint32 (position_after (_line s) (_column s) (take k cps)).2).
Proof.
  intros s cps. eexists. split; [vm_compute; reflexivity |].
  apply (write_records_line_and_column 4 cps s).
  - vm_compute. reflexivity.
  - reflexivity.
  - reflexivity.
  - vm_compute. discriminate.
  - vm_compute. discriminate.
Defined.

Lemma getPositionOfToken_after_fromCPs_witness :
  let cps := [0x61; 0x0A; 0x62] in
  exists s,
    fromCPs 4 true cps = Some s /\
    _getPositionOfToken 4 s =
      [(position_after 0 0 (take 1 cps)).1; (position_after 0 0 (take 1 cps)).2].
Proof.
  intros cps. eexists. split; [vm_compute; reflexivity |].
  apply (getPositionOfToken_after_fromCPs 4 true cps _ 4 1).
  - vm_compute. reflexivity.
  - reflexivity.
  - vm_compute. reflexivity.
  - cbn. lia.
  - vm_compute. reflexivity.
Defined.

Lemma expandBuffers_makes_room_witness :
  let s := new_fields true 4 in
  capacity 4 s /\
  _expandBuffers 5 s =
    Some (s |> set_floatValues (_floatValues s ++ replicate 6 Zero)
            |> set_intValues (_intValues s ++ replicate 6 (StoreInt32 Zero))
            |> set_positions (_positions s ++ replicate 12 0)
            |> set_source (_source s ++ replicate 6 0)
            |> set_stringValues (_stringValues s ++ replicate 6 0)
            |> set_tokens (_tokens s ++ replicate 24 0)).
Proof.
  intros s.
  assert (Hcap : capacity 4 s) by (repeat split; vm_compute; reflexivity).
  split; [exact Hcap |].
  destruct (expandBuffers_makes_room 5 s 4 Hcap) as (_ & _ & H).
  - vm_compute. reflexivity.
  - vm_compute. reflexivity.
  - exact H.
Defined.

Lemma hyphen_before_U0002_never_returns_witness :
  let s := new_fields true 8
             |> set_lex L_delimOrNegativeSignedNumberOrCDCOrIdent
             |> set_source [0x2D; 0x02; 0; 0; 0; 0; 0; 0]
             |> set_sourceLength 2 in
  lex 100 s (Num 0x02) = None.
Proof.
  intros s.
  apply (hyphen_before_U0002_never_returns 100 s).
  - reflexivity.
  - vm_compute. reflexivity.
  - vm_compute. reflexivity.
Defined.

Lemma string_token_holds_its_contents_witness :
  let s := new_fields true 8 in
  let body := codepoints "ab" in
  exists s',
    feed 2 s (Num 0x22 :: map Num body ++ [Num 0x22]) = Some s' /\
    _lex s' = L_input /\
    _tokensLength s' = _tokensLength s + 4 /\
    u32_get (_tokens s') (_tokensLength s) = Num STRING_TOKEN /\
    _testSimpleStringValue (_tokensLength s) body s' = true.
Proof.
  intros s body.
  apply (string_token_holds_its_contents 1 0x22 body s).
  - reflexivity.
  - left. reflexivity.
  - repeat constructor; vm_compute; discriminate.
  - vm_compute. discriminate.
  - vm_compute. discriminate.
  - vm_compute. discriminate.
  - reflexivity.
  - vm_compute. discriminate.
  - vm_compute. reflexivity.
Defined.

Lemma end_of_input_inside_a_name_emits_no_token_witness :
  let s := new_fields true 8 |> set_lex L_ident in
  exists s',
    _finish 2 s = Some s' /\
    _tokens s' = _tokens s /\ _tokensLength s' = _tokensLength s /\
    _lex s' = _lex s /\
    _stringValues s' =
      u32_set (_stringValues s) (_stringValuesLength s) (Num EOF_SENTINEL) /\
    _stringValuesLength s' = _stringValuesLength s + 1.
Proof.
  intros s.
  apply (end_of_input_inside_a_name_emits_no_token 1 s).
  - reflexivity.
  - left. reflexivity.
Defined.

Lemma end_of_input_inside_a_number_emits_no_token_witness :
  let s := new_fields true 8 |> set_lex L_number in
  exists s',
    _finish 2 s = Some s' /\
    _tokens s' = _tokens s /\ _tokensLength s' = _tokensLength s /\
    _lex s' = L_numberUnit /\
    _stringValuesLength s' = _stringValuesLength s + 1.
Proof.
  intros s. eexists. split; [vm_compute; reflexivity |].
  apply (end_of_input_inside_a_number_emits_no_token 1 s).
  - reflexivity.
  - left. reflexivity.
  - vm_compute. reflexivity.
Defined.

Lemma fail_strict_sets_the_error_witness :
  let s := new_fields false 4 in
  exists terminal s',
    _fail "css-syntax-3" "consume-token" s = Some (terminal, s') /\
    terminal = true /\
    exists err,
      s' = set_error (Some err) s /\
      err_module err = "css-syntax-3"%string /\ err_hash err = "consume-token"%string /\
      err_disambigLine err = _line s /\ err_disambigCol err = _column s /\
      (List.length (err_sourceText err) <= 45)%nat /\
      0 <= err_pointerPrefix err <= 15.
Proof.
  intros s. eexists. eexists. split; [vm_compute; reflexivity |].
  apply (fail_strict_sets_the_error "css-syntax-3" "consume-token" s).
  - reflexivity.
  - vm_compute. discriminate.
  - intros b [= <-]. vm_compute. discriminate.
  - vm_compute. reflexivity.
Defined.

Lemma source_never_holds_FF_or_CR_witness :
  let chunks := [[0x61; 0x0C; 0x0D; 0x0A; 0x62]] in
  exists s,
    tokenize 4 false 2 chunks = Some s /\
    Forall (fun cp => cp <> 0x0C /\ cp <> 0x0D) (_source s).
Proof.
  intros chunks. eexists. split; [vm_compute; reflexivity |].
  apply (source_never_holds_FF_or_CR 4 false 2 chunks).
  - repeat constructor; vm_compute; discriminate.
  - vm_compute. reflexivity.
Defined.

Lemma toHexValue_is_the_digit_value_witness :
  isHex (Num 0x63) = true /\ toHexValue (Num 0x63) = 12.
Proof.
  split; [reflexivity |].
  exact (toHexValue_is_the_digit_value 0x63 eq_refl).
Defined.

Lemma ident_token_holds_its_name_witness :
  let s := new_fields true 8 in
  exists s',
    write_loop 4 (0x61 :: [0x62] ++ [0x20]) s = Some s' /\
    _tokensLength s + 4 <= _tokensLength s' /\
    u32_get (_tokens s') (_tokensLength s) = Num IDENT_TOKEN /\
    u32_get (_tokens s') (_tokensLength s + 1) =
      Num (_sourceLength s + Z.of_nat (List.length [0x61; 0x62])) /\
    _testSimpleStringValue (_tokensLength s) [0x61; 0x62] s' = true.
Proof.
  intros s. eexists. split; [vm_compute; reflexivity |].
  apply (ident_token_holds_its_name 2 0x61 [0x62] 0x20 s).
  - vm_compute. reflexivity.
  - reflexivity.
  - reflexivity.
  - reflexivity.
  - reflexivity.
  - vm_compute. discriminate.
  - repeat constructor.
  - repeat constructor; vm_compute; discriminate.
  - reflexivity.
  - vm_compute. discriminate.
  - vm_compute. discriminate.
  - vm_compute. discriminate.
  - vm_compute. discriminate.
  - vm_compute. discriminate.
  - vm_compute. reflexivity.
  - vm_compute. discriminate.
  - reflexivity.
  - vm_compute. discriminate.
  - vm_compute. reflexivity.
Defined.

Lemma whitespace_run_is_one_token_witness :
  let s := new_fields true 8 in
  exists s',
    write_loop 4 (0x20 :: [0x0D] ++ [0x61]) s = Some s' /\
    _tokensLength s + 4 <= _tokensLength s' /\
    u32_get (_tokens s') (_tokensLength s) = Num WHITESPACE_TOKEN /\
    u32_get (_tokens s') (_tokensLength s + 1) =
      Num (_sourceLength s + Z.of_nat (List.length [0x20; 0x0D])).
Proof.
  intros s. eexists. split; [vm_compute; reflexivity |].
  apply (whitespace_run_is_one_token 3 0x20 [0x0D] 0x61 s).
  - vm_compute. reflexivity.
  - reflexivity.
  - reflexivity.
  - reflexivity.
  - repeat constructor.
  - reflexivity.
  - vm_compute. discriminate.
  - vm_compute. discriminate.
  - vm_compute. discriminate.
  - vm_compute. reflexivity.
Defined.

Lemma comment_is_one_token_witness :
  let s := new_fields true 8 in
  let body := codepoints "ab" in
  exists s',
    write_loop 2 (0x2F :: 0x2A :: body ++ [0x2A; 0x2F]) s = Some s' /\
    _tokensLength s' = _tokensLength s + 4 /\
    u32_get (_tokens s') (_tokensLength s) = Num COMMENT_TOKEN /\
    u32_get (_tokens s') (_tokensLength s + 1) =
      Num (_sourceLength s + Z.of_nat (List.length body) + 4) /\
    _lex s' = L_input /\ _error s' = None /\
    _stringValues s' = _stringValues s /\
    _stringValuesLength s' = _stringValuesLength s.
Proof.
  intros s body.
  apply (comment_is_one_token 1 body s).
  - reflexivity.
  - reflexivity.
  - reflexivity.
  - repeat constructor; vm_compute; discriminate.
  - vm_compute. discriminate.
  - vm_compute. discriminate.
  - vm_compute. discriminate.
  - vm_compute. reflexivity.
Defined.

